(** * slide: sliding-window session tracker

    A shallow embedding of the Go package [slide] (the [Session] type, the
    [Tracker] interface and its implementation [tracker]) and the properties
    of its start/end event protocol, of the maximum-lifetime split and of the
    janitor sweep.

    Modelling choices.
    - [*Session[T]] pointers are locations into an explicit object store
      ([heap]); the three index structures of the tracker hold locations, so
      that the aliasing between [sessions], [eventToSession] and
      [retiredSessions] is the one of the Go code.
    - [time.Time] values are readings of the process' monotonic clock, in
      nanoseconds, as [Z]; [time.Now()] is an argument of every operation.
    - every operation is a computation in the monad [M]: it threads the
      tracker and answers [None] where Go would panic on a nil dereference.
    - each call of the two user-supplied functions is appended to a trace:
      [initCalls] for [sessionInitFunc], [endCalls] for [onSessionEnd].
    - [run] takes a call, or a tick of the janitor, as one step: what the
      tracker does when no goroutine runs inside the call or the tick of
      another.  [schedule] takes one critical section as one step and
      interleaves the callers and the janitor. *)

From Stdlib Require Import ZArith.
From stdpp Require Import gmap strings list fin_maps fin_sets.

Local Open Scope Z_scope.

(** ** Data model *)

Abbreviation loc := positive.
Abbreviation Time := Z.
Abbreviation Duration := Z.

(** [t.Sub(u)].  Go saturates the difference at the bounds of [int64]
    nanoseconds; both readings come from [time.Now()] of one process, they
    are non-negative and below [2^63], and their difference is exact. *)
Definition Sub (t u : Time) : Duration := t - u.

(** [type SessionMetadata struct { Created, Updated time.Time }] *)
Record SessionMetadata : Type := mkSessionMetadata {
  Created : Time;
  Updated : Time
}.

(** [type Session[T any] struct]; the mutex is not a field of the
    model, the operations below are the critical sections. *)
Record Session (T : Type) : Type := mkSession {
  data : T;
  events : gset string;
  retired : bool;
  metadata : SessionMetadata
}.
Arguments mkSession {T} _ _ _ _.
Arguments data {T} _.
Arguments events {T} _.
Arguments retired {T} _.
Arguments metadata {T} _.

(** One dispatch [go t.onSessionEnd(session.data, &session.metadata)]: the
    session, the payload and the metadata as they are when the goroutine is
    started. *)
Record EndCall (T : Type) : Type := mkEndCall {
  ended : loc;
  endData : T;
  endMetadata : SessionMetadata
}.
Arguments mkEndCall {T} _ _ _.
Arguments ended {T} _.
Arguments endData {T} _.
Arguments endMetadata {T} _.

(** [type tracker[T any] struct], its mutable part, with the
    object store and the two traces. *)
Record tracker (T : Type) : Type := mkTracker {
  heap : gmap loc (Session T);
  sessions : gmap string loc;
  eventToSession : gmap string loc;
  retiredSessions : gset loc;
  initCalls : list string;
  endCalls : list (EndCall T)
}.
Arguments mkTracker {T} _ _ _ _ _ _.
Arguments heap {T} _.
Arguments sessions {T} _.
Arguments eventToSession {T} _.
Arguments retiredSessions {T} _.
Arguments initCalls {T} _.
Arguments endCalls {T} _.

(** The Go [error] value of [EventEnd]. *)
Inductive error : Type :=
| nil
| Errorf (msg : string).

(** [fmt.Errorf("event %s is not associated with any session", eventID)] *)
Definition errNotAssociated (eventID : string) : error :=
  Errorf ("event " +:+ eventID +:+ " is not associated with any session").

(** ** The monad of tracker operations *)

Definition M (T A : Type) : Type := tracker T → option (A * tracker T).

Definition ret {T A} (a : A) : M T A := λ t, Some (a, t).

Definition bind {T A B} (m : M T A) (f : A → M T B) : M T B :=
  λ t, match m t with
       | Some (a, t') => f a t'
       | None => None
       end.

Notation "x <- m ;; k" := (bind m (λ x, k))
  (at level 100, m at next level, right associativity).
Notation "m ;;; k" := (bind m (λ _, k))
  (at level 100, right associativity).

Definition gets {T A} (f : tracker T → A) : M T A := λ t, Some (f t, t).

Definition modify {T} (f : tracker T → tracker T) : M T unit :=
  λ t, Some (tt, f t).

(** Reading through a [*Session[T]]. *)
Definition deref {T} (p : loc) : M T (Session T) :=
  λ t, match heap t !! p with
       | Some s => Some (s, t)
       | None => None
       end.

(** Writing through a [*Session[T]]. *)
Definition update {T} (p : loc) (f : Session T → Session T) : M T unit :=
  λ t, match heap t !! p with
       | Some s =>
           Some (tt, mkTracker (<[p := f s]> (heap t)) (sessions t)
                       (eventToSession t) (retiredSessions t)
                       (initCalls t) (endCalls t))
       | None => None
       end.

(** [&Session[T]{...}]: a new object, at an address no live object has. *)
Definition new {T} (s : Session T) : M T loc :=
  λ t, let p := fresh (dom (heap t)) in
       Some (p, mkTracker (<[p := s]> (heap t)) (sessions t)
                   (eventToSession t) (retiredSessions t)
                   (initCalls t) (endCalls t)).

Definition set_sessions {T} (f : gmap string loc → gmap string loc)
    : M T unit :=
  modify (λ t, mkTracker (heap t) (f (sessions t)) (eventToSession t)
                 (retiredSessions t) (initCalls t) (endCalls t)).

Definition set_eventToSession {T} (f : gmap string loc → gmap string loc)
    : M T unit :=
  modify (λ t, mkTracker (heap t) (sessions t) (f (eventToSession t))
                 (retiredSessions t) (initCalls t) (endCalls t)).

Definition set_retiredSessions {T} (f : gset loc → gset loc) : M T unit :=
  modify (λ t, mkTracker (heap t) (sessions t) (eventToSession t)
                 (f (retiredSessions t)) (initCalls t) (endCalls t)).

(** Session field updates. *)
Definition with_events {T} (f : gset string → gset string) (s : Session T)
    : Session T :=
  mkSession (data s) (f (events s)) (retired s) (metadata s).

Definition with_retired {T} (b : bool) (s : Session T) : Session T :=
  mkSession (data s) (events s) b (metadata s).

Definition with_Updated {T} (now : Time) (s : Session T) : Session T :=
  mkSession (data s) (events s) (retired s)
    (mkSessionMetadata (Created (metadata s)) now).

(** ** The operations *)

Section Tracker.
Context {T : Type}.

(** The configuration [NewTracker] copies into the tracker; it never
    changes afterwards.  [onSessionEnd] is [true] when the handler is not
    nil. *)
Variable sessionInitFunc : string → T.
Variable inactivityTimeout : Duration.
Variable maxSessionTimeout : option Duration.
Variable onSessionEnd : bool.

(** [t.sessionInitFunc(sessionDedupKey)], traced. *)
Definition callInit (sessionDedupKey : string) : M T T :=
  λ t, Some (sessionInitFunc sessionDedupKey,
             mkTracker (heap t) (sessions t) (eventToSession t)
               (retiredSessions t) (initCalls t ++ [sessionDedupKey])
               (endCalls t)).

(** [go t.onSessionEnd(session.data, &session.metadata)], traced. *)
Definition goOnSessionEnd (session : loc) : M T unit :=
  s <- deref session ;;
  modify (λ t, mkTracker (heap t) (sessions t) (eventToSession t)
                 (retiredSessions t) (initCalls t)
                 (endCalls t ++ [mkEndCall session (data s) (metadata s)])).

(** [NewTracker]: the three empty maps. *)
Definition NewTracker : tracker T := mkTracker ∅ ∅ ∅ ∅ [] [].

(** The body of [janitorShouldRemove], on the fields it reads under the
    session's lock. *)
Definition shouldRemove (now : Time) (s : Session T) : bool :=
  if decide (size (events s) = 0%nat) then
    match maxSessionTimeout with
    | Some m => bool_decide (Sub now (Created (metadata s)) > m)
    | None => bool_decide (Sub now (Updated (metadata s)) > inactivityTimeout)
    end
  else false.

(** [(s *Session[T]) janitorShouldRemove(now, inactivityTimeout,
    maxSessionTimeout)]. *)
Definition janitorShouldRemove (s : loc) (now : Time) : M T bool :=
  self <- deref s ;;
  ret (shouldRemove now self).

(** [expired := now.Sub(session.metadata.Created) > *t.maxSessionTimeout],
    read only when [t.maxSessionTimeout != nil]. *)
Definition expired (now : Time) (s : Session T) : bool :=
  match maxSessionTimeout with
  | Some m => bool_decide (Sub now (Created (metadata s)) > m)
  | None => false
  end.

(** The literal [&Session[T]{data: t.sessionInitFunc(key), events:
    {eventID}, metadata: {Created: now, Updated: now}}]. *)
Definition newSession (sessionDedupKey eventID : string) (now : Time)
    : M T loc :=
  d <- callInit sessionDedupKey ;;
  new (mkSession d {[eventID]} false (mkSessionMetadata now now)).

(** [(t *tracker[T]) EventStart]. *)
Definition EventStart (sessionDedupKey eventID : string) (now : Time)
    : M T loc :=
  found <- gets (λ t, sessions t !! sessionDedupKey) ;;
  match found with
  | Some session =>
      s <- deref session ;;
      if expired now s then
        update session (λ s, with_events (λ ev, ev ∖ {[eventID]})
                             (with_retired true s)) ;;;
        set_retiredSessions (λ r, {[session]} ∪ r) ;;;
        newS <- newSession sessionDedupKey eventID now ;;
        set_sessions <[sessionDedupKey := newS]> ;;;
        set_eventToSession <[eventID := newS]> ;;;
        ret newS
      else
        update session (with_events (λ ev, {[eventID]} ∪ ev)) ;;;
        set_eventToSession <[eventID := session]> ;;;
        update session (with_Updated now) ;;;
        ret session
  | None =>
      newS <- newSession sessionDedupKey eventID now ;;
      set_sessions <[sessionDedupKey := newS]> ;;;
      set_eventToSession <[eventID := newS]> ;;;
      ret newS
  end.

(** [(t *tracker[T]) EventEnd]. *)
Definition EventEnd (eventID : string) (now : Time) : M T error :=
  found <- gets (λ t, eventToSession t !! eventID) ;;
  match found with
  | None => ret (errNotAssociated eventID)
  | Some session =>
      update session (with_events (λ ev, ev ∖ {[eventID]})) ;;;
      update session (with_Updated now) ;;;
      s <- deref session ;;
      let shouldDelete :=
        bool_decide (size (events s) = 0%nat) && retired s in
      set_eventToSession (delete eventID) ;;;
      (if shouldDelete then
         set_retiredSessions (λ r, r ∖ {[session]}) ;;;
         (if onSessionEnd then goOnSessionEnd session else ret tt)
       else ret tt) ;;;
      ret nil
  end.

(** [janitor], the removal of one snapshot entry of the primary map: the
    critical section that re-reads [t.sessions[dedupKey]], and the
    dispatch that follows it. *)
Definition janitorEvict (dedupKey : string) (session : loc) : M T unit :=
  current <- gets (λ t, sessions t !! dedupKey) ;;
  let same :=
    match current with
    | Some c => bool_decide (c = session)
    | None => false
    end in
  (if same then set_sessions (delete dedupKey) else ret tt) ;;;
  if same && onSessionEnd then goOnSessionEnd session else ret tt.

(** [janitor], the body of [for dedupKey, session := range snapshot]. *)
Definition janitorActive (now : Time) (entry : string * loc) : M T unit :=
  remove <- janitorShouldRemove entry.2 now ;;
  if remove then janitorEvict entry.1 entry.2 else ret tt.

(** [janitor], the body of [for _, session := range snapshotRetired]. *)
Definition janitorRetired (now : Time) (session : loc) : M T unit :=
  remove <- janitorShouldRemove session now ;;
  if remove then
    set_retiredSessions (λ r, r ∖ {[session]}) ;;;
    (if onSessionEnd then goOnSessionEnd session else ret tt)
  else ret tt.

(** A [for ... range] loop over a snapshot.  Go ranges over a map in an
    unspecified order and the callbacks are goroutines: the order of the
    [endCalls] of one sweep carries no meaning. *)
Fixpoint forM {A} (l : list A) (body : A → M T unit) : M T unit :=
  match l with
  | [] => ret tt
  | x :: l' => body x ;;; forM l' body
  end.

(** [janitor], the sweep of the primary sessions on one tick. *)
Definition sweepActive (now : Time) : M T unit :=
  snapshot <- gets (λ t, map_to_list (sessions t)) ;;
  forM snapshot (janitorActive now).

(** [janitor], the sweep of the retired sessions on one tick. *)
Definition sweepRetired (now : Time) : M T unit :=
  snapshotRetired <- gets (λ t, elements (retiredSessions t)) ;;
  forM snapshotRetired (janitorRetired now).

(** [janitor], one iteration of [for range t.ticker.C], when no other
    goroutine runs between two of its critical sections; [janitorStep]
    below takes them one by one. *)
Definition janitorTick (now : Time) : M T unit :=
  sweepActive now ;;; sweepRetired now.

(** *** Sequences of calls *)

Inductive call : Type :=
| Start (sessionDedupKey eventID : string) (now : Time)
| End (eventID : string) (now : Time)
| Tick (now : Time).

Definition step (c : call) : M T unit :=
  match c with
  | Start k e now => EventStart k e now ;;; ret tt
  | End e now => EventEnd e now ;;; ret tt
  | Tick now => janitorTick now
  end.

Definition run (cs : list call) : M T unit := forM cs step.

(** An [EventStart] does not take an event identifier that is open in
    another session than the primary one of its key. *)
Definition start_ok (c : call) (t : tracker T) : bool :=
  match c with
  | Start k e _ =>
      match eventToSession t !! e with
      | None => true
      | Some p => bool_decide (sessions t !! k = Some p)
      end
  | _ => true
  end.

(** Every [EventStart] of the sequence satisfies [start_ok] in the state
    it is called in. *)
Fixpoint starts_ok (cs : list call) (t : tracker T) : Prop :=
  match cs with
  | [] => True
  | c :: cs' =>
      start_ok c t = true ∧
      match step c t with
      | Some (_, t') => starts_ok cs' t'
      | None => True
      end
  end.

(** The event identifiers a sequence of calls starts. *)
Definition started (cs : list call) : list string :=
  flat_map (λ c, match c with Start _ e _ => [e] | _ => [] end) cs.

(** The handles a sequence of [EventStart] calls for one key returns. *)
Fixpoint starts (sessionDedupKey : string) (evs : list (string * Time))
    : M T (list loc) :=
  match evs with
  | [] => ret []
  | (e, now) :: evs' =>
      p <- EventStart sessionDedupKey e now ;;
      ps <- starts sessionDedupKey evs' ;;
      ret (p :: ps)
  end.

End Tracker.

(** ** State predicates *)

Section Predicates.
Context {T : Type}.

(** The sessions the store still references as sessions: the primary one
    of each key (live) and the retired ones. *)
Definition tracked (t : tracker T) : gset loc :=
  map_img (sessions t) ∪ retiredSessions t.

(** [session.events] of the object at [p] of the store [h]. *)
Definition openEvents (h : gmap loc (Session T)) (p : loc) : gset string :=
  match h !! p with
  | Some s => events s
  | None => ∅
  end.

(** No index structure holds a dangling pointer. *)
Definition valid (t : tracker T) : Prop :=
  tracked t ⊆ dom (heap t) ∧
  ∀ e p, eventToSession t !! e = Some p → p ∈ dom (heap t).

(** Every entry of the reverse index names an event that is open in the
    session it maps to, and that session is live or retired. *)
Definition index_sound (t : tracker T) : Prop :=
  ∀ e p, eventToSession t !! e = Some p →
         p ∈ tracked t ∧ e ∈ openEvents (heap t) p.

(** Every open event of a live or retired session is in the reverse
    index, mapped to that session. *)
Definition index_complete (t : tracker T) : Prop :=
  ∀ p e, p ∈ tracked t → e ∈ openEvents (heap t) p →
         eventToSession t !! e = Some p.

Definition consistent (t : tracker T) : Prop :=
  index_sound t ∧ index_complete t.

(** Σ |openEvents| over the live and the retired sessions. *)
Definition totalOpen (t : tracker T) : nat :=
  sum_list_with (λ p, size (openEvents (heap t) p)) (elements (tracked t)).

(** The session an [EventEnd] leaves behind. *)
Definition ended_session (e : string) (now : Time) (s : Session T)
    : Session T :=
  mkSession (data s) (events s ∖ {[e]}) (retired s)
    (mkSessionMetadata (Created (metadata s)) now).

(** [shouldDelete] of [EventEnd]. *)
Definition drained (e : string) (s : Session T) : bool :=
  bool_decide (size (events s ∖ {[e]}) = 0%nat) && retired s.

(** What [janitorShouldRemove] answers for the object at [p] of the
    store [h]. *)
Definition removable (inactivityTimeout : Duration)
    (maxSessionTimeout : option Duration) (now : Time)
    (h : gmap loc (Session T)) (p : loc) : bool :=
  match h !! p with
  | Some s => shouldRemove inactivityTimeout maxSessionTimeout now s
  | None => false
  end.

(** The dispatches of [onSessionEnd] for the objects at [ps]. *)
Definition endCallsOf (onSessionEnd : bool) (h : gmap loc (Session T))
    (ps : list loc) : list (EndCall T) :=
  if onSessionEnd then
    flat_map (λ p, match h !! p with
                   | Some s => [mkEndCall p (data s) (metadata s)]
                   | None => []
                   end) ps
  else [].

End Predicates.

(** ** The rest of the package: handles, configuration, options *)

(** [(s *Session[T]) Data()]: the payload, read through the handle. *)
Definition Data {T} (s : loc) : M T T :=
  self <- deref s ;;
  ret (data self).

(** [time.Second] and [time.Minute], in nanoseconds. *)
Definition Second : Duration := 1000000000.
Definition Minute : Duration := 60 * Second.

Module Options.
Section Options.
(** [F] stands for the function values of type [OnEndFunc[T]]; a Go function
    value may be nil, so the handler is an [option F]. *)
Context {F : Type}.

(** [type config[T any] struct]. *)
Record config : Type := mkConfig {
  janitorInterval : Duration;
  inactivityTimeout : Duration;
  maxSessionTimeout : option Duration;
  onSessionEnd : option F
}.

(** [type Option[T any]], a function on a pointer to the [config[T]]: the
    update it makes. *)
Definition Option : Type := config → config.

Definition WithJanitorInterval (janitorInterval' : Duration) : Option :=
  λ c, mkConfig janitorInterval' (inactivityTimeout c)
         (maxSessionTimeout c) (onSessionEnd c).

Definition WithInactivityTimeout (inactivityTimeout' : Duration) : Option :=
  λ c, mkConfig (janitorInterval c) inactivityTimeout'
         (maxSessionTimeout c) (onSessionEnd c).

(** [c.maxSessionTimeout = &maxSessionTimeout]: never nil. *)
Definition WithMaxSessionTimeout (maxSessionTimeout' : Duration) : Option :=
  λ c, mkConfig (janitorInterval c) (inactivityTimeout c)
         (Some maxSessionTimeout') (onSessionEnd c).

Definition WithOnSessionEnd (onSessionEnd' : option F) : Option :=
  λ c, mkConfig (janitorInterval c) (inactivityTimeout c)
         (maxSessionTimeout c) onSessionEnd'.

(** [NewTracker]: the defaults, then [for _, opt := range opts { opt(cfg) }]. *)
Definition defaults : config :=
  mkConfig (30 * Second) (15 * Minute) None None.

Definition newConfig (opts : list Option) : config :=
  foldl (λ cfg opt, opt cfg) defaults opts.

(** The options the package exports. *)
Inductive exported : Option → Prop :=
| exported_JanitorInterval d : exported (WithJanitorInterval d)
| exported_InactivityTimeout d : exported (WithInactivityTimeout d)
| exported_MaxSessionTimeout d : exported (WithMaxSessionTimeout d)
| exported_OnSessionEnd f : exported (WithOnSessionEnd f).

(** [t.onSessionEnd != nil], for the tracker [NewTracker] builds. *)
Definition hasOnSessionEnd (cfg : config) : bool :=
  match onSessionEnd cfg with
  | Some _ => true
  | None => false
  end.

End Options.
Arguments config : clear implicits.
Arguments Option : clear implicits.
End Options.

(** A sequence of calls on the tracker [NewTracker(sessionInitFunc, opts...)]
    returns: [NewTracker] copies the inactivity timeout, the maximum session
    lifetime and the handler of the configuration into the tracker. *)
Definition runWith {T F} (sessionInitFunc : string → T)
    (opts : list (Options.Option F)) : list call → M T unit :=
  run sessionInitFunc
    (Options.inactivityTimeout (Options.newConfig opts))
    (Options.maxSessionTimeout (Options.newConfig opts))
    (Options.hasOnSessionEnd (Options.newConfig opts)).

(** ** More state predicates *)

Section MorePredicates.
Context {T : Type}.

(** A primary session is not retired, a session of the retired set is, and
    no session is the primary one of two keys. *)
Definition structured (t : tracker T) : Prop :=
  (∀ k p s, sessions t !! k = Some p → heap t !! p = Some s →
            retired s = false) ∧
  (∀ p s, p ∈ retiredSessions t → heap t !! p = Some s →
          retired s = true) ∧
  (∀ k1 k2 p, sessions t !! k1 = Some p → sessions t !! k2 = Some p →
              k1 = k2).

(** The reading of [time.Now()] a call makes. *)
Definition time_of (c : call) : Time :=
  match c with
  | Start _ _ now => now
  | End _ now => now
  | Tick now => now
  end.

(** The clock does not go back: the calls read non-decreasing times, from
    [lo] on. *)
Fixpoint clock_ok (lo : Time) (cs : list call) : Prop :=
  match cs with
  | [] => True
  | c :: cs' => lo ≤ time_of c ∧ clock_ok (time_of c) cs'
  end.

(** A call names the event [e]. *)
Definition mentions (e : string) (c : call) : Prop :=
  match c with
  | Start _ e' _ => e' = e
  | End e' _ => e' = e
  | Tick _ => False
  end.

(** The sessions whose callback was dispatched: each one once, none of them
    live or retired any more, each without open events and with the payload
    and the metadata the callback was given. *)
Definition dispatched (t : tracker T) : Prop :=
  NoDup (ended <$> endCalls t) ∧
  ∀ c, c ∈ endCalls t →
       (ended c ∉ tracked t) ∧
       ∃ s, heap t !! ended c = Some s ∧ endData c = data s ∧
            endMetadata c = metadata s ∧ events s = ∅.

(** The state a tick of the janitor leaves, in closed form. *)
Definition ticked (inactivityTimeout : Duration)
    (maxSessionTimeout : option Duration) (onSessionEnd : bool)
    (now : Time) (t : tracker T) : tracker T :=
  let gone p :=
    removable inactivityTimeout maxSessionTimeout now (heap t) p = true in
  let kept p :=
    removable inactivityTimeout maxSessionTimeout now (heap t) p = false in
  mkTracker (heap t)
    (filter (λ kp, kept kp.2) (sessions t))
    (eventToSession t)
    (filter kept (retiredSessions t))
    (initCalls t)
    (endCalls t
     ++ endCallsOf onSessionEnd (heap t)
          (filter gone (map_to_list (sessions t)).*2)
     ++ endCallsOf onSessionEnd (heap t)
          (filter gone (elements (retiredSessions t)))).

End MorePredicates.

(** The effect of one call, by cases: what each branch of [EventStart] and
    of [EventEnd], and a tick, make of the state. *)
Section Transitions.
Context {T : Type}.
Variable sessionInitFunc : string → T.
Variable inactivityTimeout : Duration.
Variable maxSessionTimeout : option Duration.
Variable onSessionEnd : bool.

Inductive transition : call → tracker T → tracker T → Prop :=
| transition_new k e now t q :
    sessions t !! k = None →
    heap t !! q = None →
    transition (Start k e now) t
      (mkTracker
         (<[q := mkSession (sessionInitFunc k) {[e]} false
                   (mkSessionMetadata now now)]> (heap t))
         (<[k := q]> (sessions t)) (<[e := q]> (eventToSession t))
         (retiredSessions t) (initCalls t ++ [k]) (endCalls t))
| transition_reuse k e now t p s :
    sessions t !! k = Some p →
    heap t !! p = Some s →
    expired maxSessionTimeout now s = false →
    transition (Start k e now) t
      (mkTracker
         (<[p := mkSession (data s) ({[e]} ∪ events s) (retired s)
                   (mkSessionMetadata (Created (metadata s)) now)]> (heap t))
         (sessions t) (<[e := p]> (eventToSession t))
         (retiredSessions t) (initCalls t) (endCalls t))
| transition_split k e now t p s q :
    sessions t !! k = Some p →
    heap t !! p = Some s →
    expired maxSessionTimeout now s = true →
    heap t !! q = None →
    transition (Start k e now) t
      (mkTracker
         (<[q := mkSession (sessionInitFunc k) {[e]} false
                   (mkSessionMetadata now now)]>
            (<[p := mkSession (data s) (events s ∖ {[e]}) true
                      (metadata s)]> (heap t)))
         (<[k := q]> (sessions t)) (<[e := q]> (eventToSession t))
         ({[p]} ∪ retiredSessions t) (initCalls t ++ [k]) (endCalls t))
| transition_unknown e now t :
    eventToSession t !! e = None →
    transition (End e now) t t
| transition_end e now t p s :
    eventToSession t !! e = Some p →
    heap t !! p = Some s →
    transition (End e now) t
      (mkTracker
         (<[p := ended_session e now s]> (heap t))
         (sessions t) (delete e (eventToSession t))
         (if drained e s then retiredSessions t ∖ {[p]}
          else retiredSessions t)
         (initCalls t)
         (if drained e s && onSessionEnd
          then endCalls t
               ++ [mkEndCall p (data s) (metadata (ended_session e now s))]
          else endCalls t))
| transition_tick now t :
    transition (Tick now) t
      (ticked inactivityTimeout maxSessionTimeout onSessionEnd now t).

End Transitions.

(** ** The goroutines of a tracker

    [EventStart] holds the lock of the store from its first access to its
    return.  Under the lock of a session alone, another goroutine runs
    either before [EventStart] writes to the session (after the test of
    [expired] at most, which reads [Created], a field that is never
    written) or after it has written: such a section falls before or after
    the call, which is one step.  [EventEnd] and [janitor] take and release
    locks several times,
    and other goroutines run between two of their critical sections.  Below
    each critical section is one step, and a schedule says, step by step,
    which goroutine runs its next critical section.  [EventEnd] above and
    [janitorTick] are what these steps make when no other goroutine runs in
    between ([EventEnd_sections], [janitorTick_sections]). *)

Section Goroutines.
Context {T : Type}.
Variable sessionInitFunc : string → T.
Variable inactivityTimeout : Duration.
Variable maxSessionTimeout : option Duration.
Variable onSessionEnd : bool.

(** [EventEnd], under the read lock of the store:
    [session, ok := t.eventToSession[eventID]]. *)
Definition EventEnd_lookup (eventID : string) : M T (option loc) :=
  gets (λ t, eventToSession t !! eventID).

(** [EventEnd], under the lock of the session: the event is deleted,
    [Updated] is set, and [shouldDelete] is computed. *)
Definition EventEnd_session (eventID : string) (session : loc) (now : Time)
    : M T bool :=
  update session (with_events (λ ev, ev ∖ {[eventID]})) ;;;
  update session (with_Updated now) ;;;
  s <- deref session ;;
  ret (bool_decide (size (events s) = 0%nat) && retired s).

(** [EventEnd], under the lock of the store:
    [delete(t.eventToSession, eventID)]. *)
Definition EventEnd_unindex (eventID : string) : M T unit :=
  set_eventToSession (delete eventID).

(** [EventEnd], when [shouldDelete]: [delete(t.retiredSessions, session)]
    under the lock of the store, and the dispatch that follows. *)
Definition EventEnd_retire (session : loc) : M T unit :=
  set_retiredSessions (λ r, r ∖ {[session]}) ;;;
  if onSessionEnd then goOnSessionEnd session else ret tt.

(** [janitor], the removal of one entry of the retired snapshot:
    [delete(t.retiredSessions, session)] under the lock of the store, and the
    dispatch that follows. *)
Definition janitorRetire (session : loc) : M T unit :=
  set_retiredSessions (λ r, r ∖ {[session]}) ;;;
  if onSessionEnd then goOnSessionEnd session else ret tt.

(** A call of [EventEnd] that found its session, between two of its
    critical sections: the locals it holds. *)
Inductive ending : Type :=
| AtSession (eventID : string) (session : loc)
| AtIndex (eventID : string) (session : loc) (shouldDelete : bool)
| AtRetired (session : loc).

(** The next critical section of such a call; [None] when the call
    returns (nil). *)
Definition endingStep (now : Time) (c : ending) : M T (option ending) :=
  match c with
  | AtSession e session =>
      shouldDelete <- EventEnd_session e session now ;;
      ret (Some (AtIndex e session shouldDelete))
  | AtIndex e session shouldDelete =>
      EventEnd_unindex e ;;;
      ret (if shouldDelete then Some (AtRetired session) else None)
  | AtRetired session =>
      EventEnd_retire session ;;; ret None
  end.

(** The janitor goroutine between two of its critical sections: blocked on
    the ticker, or in one of its two loops with the time it read at the
    tick, what is left of the snapshot and, after a
    [janitorShouldRemove] that answered true, the entry to remove. *)
Inductive janitorState : Type :=
| Waiting
| Sweeping (now : Time) (snapshot : list (string * loc))
| Evicting (now : Time) (dedupKey : string) (session : loc)
    (snapshot : list (string * loc))
| SweepingRetired (now : Time) (snapshotRetired : list loc)
| Retiring (now : Time) (session : loc) (snapshotRetired : list loc).

(** The next critical section of [janitor].  [tick] is the reading of
    [time.Now()] when a tick starts.  Go ranges over a map in an unspecified
    order, and over the retired snapshot in the order the range over the
    retired set filled it: [i] is the position, in what is left of the
    snapshot, of the entry the loop takes next (a position that is not
    there takes no step). *)
Definition janitorStep (tick : Time) (i : nat) (j : janitorState)
    : M T janitorState :=
  match j with
  | Waiting =>
      snapshot <- gets (λ t, map_to_list (sessions t)) ;;
      ret (Sweeping tick snapshot)
  | Sweeping now [] =>
      snapshotRetired <- gets (λ t, elements (retiredSessions t)) ;;
      ret (SweepingRetired now snapshotRetired)
  | Sweeping now snapshot =>
      match snapshot !! i with
      | Some (dedupKey, session) =>
          remove <- janitorShouldRemove inactivityTimeout maxSessionTimeout
                      session now ;;
          ret (if remove
               then Evicting now dedupKey session (delete i snapshot)
               else Sweeping now (delete i snapshot))
      | None => ret j
      end
  | Evicting now dedupKey session snapshot =>
      janitorEvict onSessionEnd dedupKey session ;;;
      ret (Sweeping now snapshot)
  | SweepingRetired now [] => ret Waiting
  | SweepingRetired now snapshotRetired =>
      match snapshotRetired !! i with
      | Some session =>
          remove <- janitorShouldRemove inactivityTimeout maxSessionTimeout
                      session now ;;
          ret (if remove
               then Retiring now session (delete i snapshotRetired)
               else SweepingRetired now (delete i snapshotRetired))
      | None => ret j
      end
  | Retiring now session snapshotRetired =>
      janitorRetire session ;;;
      ret (SweepingRetired now snapshotRetired)
  end.

(** The tracker with its goroutines: the store, the janitor, and the calls
    of [EventEnd] that have not returned yet. *)
Record world : Type := mkWorld {
  store : tracker T;
  janitorAt : janitorState;
  endings : list ending
}.

(** One step of a schedule: a call of [EventStart]; the first critical
    section of a call of [EventEnd], which returns the error at once or
    joins the calls under way; the next critical section of the [i]-th call
    of [EventEnd] under way, which sets [Updated] to [now] when it is the
    section under the lock of the session (a position without a call takes
    no step); the next critical section of the janitor. *)
Inductive action : Type :=
| CallStart (sessionDedupKey eventID : string) (now : Time)
| CallEnd (eventID : string)
| Resume (i : nat) (now : Time)
| Janitor (tick : Time) (i : nat).

Definition act (a : action) (w : world) : option world :=
  match a with
  | CallStart k e now =>
      match EventStart sessionInitFunc maxSessionTimeout k e now (store w) with
      | Some (_, t') => Some (mkWorld t' (janitorAt w) (endings w))
      | None => None
      end
  | CallEnd e =>
      match EventEnd_lookup e (store w) with
      | Some (Some session, t') =>
          Some (mkWorld t' (janitorAt w) (endings w ++ [AtSession e session]))
      | Some (None, t') => Some (mkWorld t' (janitorAt w) (endings w))
      | None => None
      end
  | Resume i now =>
      match endings w !! i with
      | Some c =>
          match endingStep now c (store w) with
          | Some (Some c', t') =>
              Some (mkWorld t' (janitorAt w) (<[i := c']> (endings w)))
          | Some (None, t') =>
              Some (mkWorld t' (janitorAt w) (delete i (endings w)))
          | None => None
          end
      | None => Some w
      end
  | Janitor tick i =>
      match janitorStep tick i (janitorAt w) (store w) with
      | Some (j', t') => Some (mkWorld t' j' (endings w))
      | None => None
      end
  end.

Fixpoint schedule (acts : list action) (w : world) : option world :=
  match acts with
  | [] => Some w
  | a :: acts' =>
      match act a w with
      | Some w' => schedule acts' w'
      | None => None
      end
  end.

(** A new tracker: the janitor waits for its first tick, no call is under
    way. *)
Definition NewWorld : world := mkWorld NewTracker Waiting [].


(** An action is a call that names the event [e]. *)
Definition names (e : string) (a : action) : Prop :=
  match a with
  | CallStart _ e' _ => e' = e
  | CallEnd e' => e' = e
  | _ => False
  end.

(** The event a call of [EventEnd] under way still has to remove. *)
Definition ending_event (c : ending) : option string :=
  match c with
  | AtSession e _ => Some e
  | AtIndex e _ _ => Some e
  | AtRetired _ => None
  end.

(** A call of [EventEnd] for [e] is under way. *)
Definition inflight (e : string) (w : world) : Prop :=
  Some e ∈ ending_event <$> endings w.

(** The sessions the janitor holds in its locals. *)
Definition janitor_sessions (j : janitorState) : list loc :=
  match j with
  | Waiting => []
  | Sweeping _ snapshot => snapshot.*2
  | Evicting _ _ session snapshot => session :: snapshot.*2
  | SweepingRetired _ snapshotRetired => snapshotRetired
  | Retiring _ session snapshotRetired => session :: snapshotRetired
  end.

(** The object at [p] of the store [h] is marked retired. *)
Definition marked (h : gmap loc (Session T)) (p : loc) : Prop :=
  ∃ s, h !! p = Some s ∧ retired s = true.

(** The locals of a call of [EventEnd] under way: its session is an object
    of the store, marked retired when the call is to remove it from the
    retired set. *)
Definition ending_ok (h : gmap loc (Session T)) (c : ending) : Prop :=
  match c with
  | AtSession _ p => p ∈ dom h
  | AtIndex _ p shouldDelete => p ∈ dom h ∧ (shouldDelete = true → marked h p)
  | AtRetired p => marked h p
  end.

(** The locals of the janitor: the sessions of a snapshot are objects of the
    store, those of a retired snapshot are marked retired. *)
Definition janitor_ok (h : gmap loc (Session T)) (j : janitorState) : Prop :=
  match j with
  | Waiting => True
  | Sweeping _ snapshot => Forall (λ p, p ∈ dom h) snapshot.*2
  | Evicting _ _ session snapshot =>
      Forall (λ p, p ∈ dom h) (session :: snapshot.*2)
  | SweepingRetired _ snapshotRetired => Forall (marked h) snapshotRetired
  | Retiring _ session snapshotRetired =>
      Forall (marked h) (session :: snapshotRetired)
  end.

(** No dangling pointer in the store or in the locals of a goroutine, and
    the retired marks are where the store expects them. *)
Definition sane (w : world) : Prop :=
  valid (store w) ∧ structured (store w) ∧
  janitor_ok (heap (store w)) (janitorAt w) ∧
  Forall (ending_ok (heap (store w))) (endings w).

(** What one critical section of [EventEnd] or of the janitor makes of the
    store, with the event it removes, if any. *)
Inductive effect : option string → tracker T → tracker T → Prop :=
| effect_none t : effect None t t
| effect_session e now p s t :
    heap t !! p = Some s →
    effect (Some e) t
      (mkTracker (<[p := ended_session e now s]> (heap t)) (sessions t)
         (eventToSession t) (retiredSessions t) (initCalls t) (endCalls t))
| effect_unindex e t :
    effect (Some e) t
      (mkTracker (heap t) (sessions t) (delete e (eventToSession t))
         (retiredSessions t) (initCalls t) (endCalls t))
| effect_retire p s t :
    heap t !! p = Some s →
    retired s = true →
    effect None t
      (mkTracker (heap t) (sessions t) (eventToSession t)
         (retiredSessions t ∖ {[p]}) (initCalls t)
         (if onSessionEnd
          then endCalls t ++ [mkEndCall p (data s) (metadata s)]
          else endCalls t))
| effect_evict k p s t :
    sessions t !! k = Some p →
    heap t !! p = Some s →
    effect None t
      (mkTracker (heap t) (delete k (sessions t)) (eventToSession t)
         (retiredSessions t) (initCalls t)
         (if onSessionEnd
          then endCalls t ++ [mkEndCall p (data s) (metadata s)]
          else endCalls t)).

End Goroutines.

(** A sequence of calls without a tick of the janitor. *)
Definition calls_only (cs : list call) : Prop :=
  Forall (λ c, match c with Tick _ => False | _ => True end) cs.

(** ** A concrete tracker

    Payloads are strings and the initializer returns its key; a callback is
    set, the inactivity limit is 5 and the maximum session lifetime 2. *)

Definition ex_init : string → string := λ k, k.

Definition ex_run : list call → M string unit :=
  run ex_init 5 (Some 2) true.

(** After [EventStart "x" "a"] at 0. *)
Definition ex_open : tracker string :=
  mkTracker {[1%positive := mkSession "x" {["a"]} false
                              (mkSessionMetadata 0 0)]}
    {["x" := 1%positive]} {["a" := 1%positive]} ∅ ["x"] [].

(** After [EventStart "x" "a"] at 0 and [EventStart "x" "b"] at 3: the
    first session is retired with ["a"] open. *)
Definition ex_split : tracker string :=
  mkTracker {[1%positive := mkSession "x" {["a"]} true
                              (mkSessionMetadata 0 0);
              2%positive := mkSession "x" {["b"]} false
                              (mkSessionMetadata 3 3)]}
    {["x" := 2%positive]} {["a" := 1%positive; "b" := 2%positive]}
    {[1%positive]} ["x"; "x"] [].

(** After [EventStart "x" "a"] at 0 and [EventEnd "a"] at 1. *)
Definition ex_ended : tracker string :=
  mkTracker {[1%positive := mkSession "x" ∅ false
                              (mkSessionMetadata 0 1)]}
    {["x" := 1%positive]} ∅ ∅ ["x"] [].

(** After [EventStart "a" "e"] at 0 and [EventStart "b" "e"] at 1: two
    keys, one event identifier. *)
Definition ex_shared : tracker string :=
  mkTracker {[1%positive := mkSession "a" {["e"]} false
                              (mkSessionMetadata 0 0);
              2%positive := mkSession "b" {["e"]} false
                              (mkSessionMetadata 1 1)]}
    {["a" := 1%positive; "b" := 2%positive]} {["e" := 2%positive]}
    ∅ ["a"; "b"] [].

(** The options of the example program of the package: a janitor interval
    of 2 seconds and an inactivity timeout of 5 seconds; handlers have the
    type [string → SessionMetadata → unit]. *)
Definition ex_opts
    : list (Options.Option (string → SessionMetadata → unit)) :=
  [Options.WithJanitorInterval (2 * Second);
   Options.WithInactivityTimeout (5 * Second)].

(** The same tracker without a maximum session lifetime, with its
    goroutines. *)
Definition ex_schedule : list action → world → option world :=
  schedule ex_init 5 None true.

(** [EventStart "x" "a"] at 0 and [EventEnd "a"] at 1; at the tick at 10 the
    janitor takes its snapshot and finds the session idle for more than 5:
    it is about to take the lock of the store and remove it. *)
Definition ex_idle : list action :=
  [CallStart "x" "a" 0; CallEnd "a"; Resume 0 1; Resume 0 1;
   Janitor 10 0; Janitor 10 0].


(** The store after [ex_race]. *)


(** ** Equations of the operations *)

Section Properties.
Set Default Proof Using "Type".
Context {T : Type}.
Variable sessionInitFunc : string → T.
Variable inactivityTimeout : Duration.
Variable maxSessionTimeout : option Duration.
Variable onSessionEnd : bool.

Local Abbreviation EventStart :=
  (EventStart sessionInitFunc maxSessionTimeout).
Local Abbreviation EventEnd := (EventEnd (T:=T) onSessionEnd).
Local Abbreviation expired := (expired (T:=T) maxSessionTimeout).
Local Abbreviation shouldRemove :=
  (shouldRemove (T:=T) inactivityTimeout maxSessionTimeout).
Local Abbreviation janitorShouldRemove :=
  (janitorShouldRemove (T:=T) inactivityTimeout maxSessionTimeout).
Local Abbreviation janitorEvict := (janitorEvict (T:=T) onSessionEnd).
Local Abbreviation janitorActive :=
  (janitorActive (T:=T) inactivityTimeout maxSessionTimeout onSessionEnd).
Local Abbreviation janitorRetired :=
  (janitorRetired (T:=T) inactivityTimeout maxSessionTimeout onSessionEnd).
Local Abbreviation sweepActive :=
  (sweepActive (T:=T) inactivityTimeout maxSessionTimeout onSessionEnd).
Local Abbreviation sweepRetired :=
  (sweepRetired (T:=T) inactivityTimeout maxSessionTimeout onSessionEnd).
Local Abbreviation janitorTick :=
  (janitorTick (T:=T) inactivityTimeout maxSessionTimeout onSessionEnd).
Local Abbreviation removable :=
  (removable (T:=T) inactivityTimeout maxSessionTimeout).
Local Abbreviation step :=
  (step sessionInitFunc inactivityTimeout maxSessionTimeout onSessionEnd).
Local Abbreviation run :=
  (run sessionInitFunc inactivityTimeout maxSessionTimeout onSessionEnd).
Local Abbreviation starts := (starts sessionInitFunc maxSessionTimeout).
Local Abbreviation starts_ok :=
  (starts_ok sessionInitFunc inactivityTimeout maxSessionTimeout
     onSessionEnd).
Local Abbreviation endCallsOf := (endCallsOf (T:=T) onSessionEnd).

Lemma EventStart_new k e now (t : tracker T) :
  sessions t !! k = None →
  EventStart k e now t =
    let p := fresh (dom (heap t)) in
    Some (p, mkTracker
               (<[p := mkSession (sessionInitFunc k) {[e]} false
                         (mkSessionMetadata now now)]> (heap t))
               (<[k := p]> (sessions t))
               (<[e := p]> (eventToSession t))
               (retiredSessions t)
               (initCalls t ++ [k])
               (endCalls t)).
Proof.
  intros Hk. unfold EventStart, bind, gets. simpl. rewrite Hk. reflexivity.
Qed.

Lemma EventStart_reuse k e now (t : tracker T) p s :
  sessions t !! k = Some p →
  heap t !! p = Some s →
  expired now s = false →
  EventStart k e now t =
    Some (p, mkTracker
               (<[p := mkSession (data s) ({[e]} ∪ events s) (retired s)
                         (mkSessionMetadata (Created (metadata s)) now)]>
                  (heap t))
               (sessions t)
               (<[e := p]> (eventToSession t))
               (retiredSessions t)
               (initCalls t)
               (endCalls t)).
Proof.
  intros Hk Hp Hx.
  unfold EventStart, bind, gets, deref, update. simpl.
  rewrite Hk, Hp, Hx. simpl. rewrite Hp. simpl.
  rewrite lookup_insert_eq. simpl. rewrite insert_insert_eq. reflexivity.
Qed.

Lemma EventStart_split k e now (t : tracker T) p s :
  sessions t !! k = Some p →
  heap t !! p = Some s →
  expired now s = true →
  EventStart k e now t =
    let old := mkSession (data s) (events s ∖ {[e]}) true (metadata s) in
    let q := fresh (dom (<[p := old]> (heap t))) in
    Some (q, mkTracker
               (<[q := mkSession (sessionInitFunc k) {[e]} false
                         (mkSessionMetadata now now)]>
                  (<[p := old]> (heap t)))
               (<[k := q]> (sessions t))
               (<[e := q]> (eventToSession t))
               ({[p]} ∪ retiredSessions t)
               (initCalls t ++ [k])
               (endCalls t)).
Proof.
  intros Hk Hp Hx.
  unfold EventStart, bind, gets, deref, update. simpl.
  rewrite Hk, Hp, Hx. simpl. rewrite Hp. reflexivity.
Qed.

Lemma EventEnd_unknown e now (t : tracker T) :
  eventToSession t !! e = None →
  EventEnd e now t = Some (errNotAssociated e, t).
Proof.
  intros He. unfold EventEnd, bind, gets. simpl. rewrite He. reflexivity.
Qed.

Lemma EventEnd_known e now (t : tracker T) p s :
  eventToSession t !! e = Some p →
  heap t !! p = Some s →
  EventEnd e now t =
    let s' := ended_session e now s in
    Some (nil, mkTracker
                 (<[p := s']> (heap t))
                 (sessions t)
                 (delete e (eventToSession t))
                 (if drained e s then retiredSessions t ∖ {[p]}
                  else retiredSessions t)
                 (initCalls t)
                 (if drained e s && onSessionEnd
                  then endCalls t ++ [mkEndCall p (data s) (metadata s')]
                  else endCalls t)).
Proof.
  intros He Hp.
  unfold EventEnd, bind, gets, deref, update. simpl.
  rewrite He, Hp. simpl. rewrite lookup_insert_eq. simpl.
  rewrite lookup_insert_eq. simpl. rewrite insert_insert_eq.
  unfold drained. simpl.
  destruct (bool_decide _); simpl; [|reflexivity].
  destruct (retired s); simpl; [|reflexivity].
  destruct onSessionEnd; simpl; [|reflexivity].
  unfold goOnSessionEnd, bind, deref. simpl.
  rewrite lookup_insert_eq. reflexivity.
Qed.

Lemma janitorShouldRemove_eq p now (t : tracker T) s :
  heap t !! p = Some s →
  janitorShouldRemove p now t = Some (shouldRemove now s, t).
Proof.
  intros Hp. unfold janitorShouldRemove, bind, deref, ret.
  rewrite Hp. reflexivity.
Qed.

Lemma janitorEvict_same k p (t : tracker T) s :
  sessions t !! k = Some p →
  heap t !! p = Some s →
  janitorEvict k p t =
    Some (tt, mkTracker (heap t) (delete k (sessions t))
                (eventToSession t) (retiredSessions t) (initCalls t)
                (if onSessionEnd
                 then endCalls t ++ [mkEndCall p (data s) (metadata s)]
                 else endCalls t)).
Proof.
  intros Hk Hp. unfold janitorEvict, bind, gets. simpl.
  rewrite Hk, bool_decide_eq_true_2 by reflexivity. simpl.
  destruct onSessionEnd; [|reflexivity].
  unfold goOnSessionEnd, bind, deref. simpl. rewrite Hp. reflexivity.
Qed.

Lemma janitorEvict_other k p (t : tracker T) :
  sessions t !! k ≠ Some p →
  janitorEvict k p t = Some (tt, t).
Proof.
  intros Hk. unfold janitorEvict, bind, gets. simpl.
  destruct (sessions t !! k) as [c|]; [|reflexivity].
  rewrite bool_decide_eq_false_2 by congruence. reflexivity.
Qed.

Lemma janitorRetired_eq now p (t : tracker T) s :
  heap t !! p = Some s →
  janitorRetired now p t =
    Some (tt, if shouldRemove now s
              then mkTracker (heap t) (sessions t) (eventToSession t)
                     (retiredSessions t ∖ {[p]}) (initCalls t)
                     (if onSessionEnd
                      then endCalls t ++ [mkEndCall p (data s) (metadata s)]
                      else endCalls t)
              else t).
Proof.
  intros Hp. unfold janitorRetired, bind.
  rewrite (janitorShouldRemove_eq _ _ _ _ Hp).
  destruct (shouldRemove now s); [|reflexivity]. simpl.
  destruct onSessionEnd; [|reflexivity].
  unfold goOnSessionEnd, bind, deref. simpl. rewrite Hp. reflexivity.
Qed.

(** *** The two sweeps of a tick *)

Lemma forM_janitorRetired now (l : list loc) : ∀ t : tracker T,
  (∀ p, p ∈ l → p ∈ dom (heap t)) →
  forM l (janitorRetired now) t =
    let gone := filter (λ p, removable now (heap t) p = true) l in
    Some (tt, mkTracker (heap t) (sessions t) (eventToSession t)
                (retiredSessions t ∖ list_to_set gone) (initCalls t)
                (endCalls t ++ endCallsOf (heap t) gone)).
Proof.
  induction l as [|p l IH]; intros t Hl; simpl.
  - unfold ret. f_equal. f_equal. destruct t; simpl. f_equal.
    + set_solver.
    + unfold endCallsOf. destruct onSessionEnd; simpl;
        by rewrite app_nil_r.
  - assert (Hp : p ∈ dom (heap t)) by (apply Hl; left).
    apply elem_of_dom in Hp as [s Hp].
    unfold bind at 1. rewrite (janitorRetired_eq _ _ _ _ Hp).
    assert (Hrem : removable now (heap t) p = shouldRemove now s)
      by (unfold removable; by rewrite Hp).
    rewrite filter_cons.
    destruct (shouldRemove now s) eqn:Hs.
    + rewrite IH by (intros q Hq; simpl; apply Hl; by right). simpl.
      rewrite decide_True by done. f_equal. f_equal. f_equal.
      * set_solver.
      * unfold endCallsOf. destruct onSessionEnd; simpl; rewrite ?Hp;
          by rewrite <- ?app_assoc.
    + rewrite IH by (intros q Hq; apply Hl; by right). simpl.
      rewrite decide_False by (rewrite Hrem; done). reflexivity.
Qed.

Lemma sweepRetired_eq now (t : tracker T) :
  retiredSessions t ⊆ dom (heap t) →
  sweepRetired now t =
    let gone := filter (λ p, removable now (heap t) p = true)
                  (elements (retiredSessions t)) in
    Some (tt, mkTracker (heap t) (sessions t) (eventToSession t)
                (retiredSessions t ∖ list_to_set gone) (initCalls t)
                (endCalls t ++ endCallsOf (heap t) gone)).
Proof.
  intros Hr. unfold sweepRetired, bind, gets.
  apply forM_janitorRetired. intros p Hp. apply Hr. set_solver.
Qed.

Lemma forM_janitorActive now (l : list (string * loc)) : ∀ t : tracker T,
  NoDup l.*1 →
  (∀ k p, (k, p) ∈ l → sessions t !! k = Some p ∧ p ∈ dom (heap t)) →
  ∃ t', forM l (janitorActive now) t = Some (tt, t') ∧
        heap t' = heap t ∧
        eventToSession t' = eventToSession t ∧
        retiredSessions t' = retiredSessions t ∧
        initCalls t' = initCalls t ∧
        ∀ k, sessions t' !! k =
             match sessions t !! k with
             | Some p => if decide ((k, p) ∈ l)
                         then if removable now (heap t) p then None
                              else Some p
                         else Some p
             | None => None
             end.
Proof.
  induction l as [|[k0 p0] l IH]; intros t Hnd Hl; simpl.
  - exists t. repeat split; try done.
    intros k. by destruct (sessions t !! k).
  - destruct (Hl k0 p0) as [Hk0 Hp0]; [left|].
    apply elem_of_dom in Hp0 as [s0 Hp0].
    apply NoDup_cons in Hnd as [Hk0l Hnd].
    assert (Hnotin : ∀ p, (k0, p) ∉ l).
    { intros p Hin. apply Hk0l. apply list_elem_of_fmap.
      by exists (k0, p). }
    unfold bind at 1. unfold janitorActive at 1. unfold bind at 1. simpl.
    rewrite (janitorShouldRemove_eq _ _ _ _ Hp0).
    destruct (shouldRemove now s0) eqn:Hs.
    + rewrite (janitorEvict_same _ _ _ _ Hk0 Hp0).
      edestruct (IH (mkTracker (heap t) (delete k0 (sessions t))
                 (eventToSession t) (retiredSessions t) (initCalls t)
                 (if onSessionEnd
                  then endCalls t ++ [mkEndCall p0 (data s0) (metadata s0)]
                  else endCalls t)))
        as (t' & Hrun & Hh & Hi & Hr & Hc & Hs'); [done| |].
      { intros k p Hin. simpl. destruct (Hl k p) as [? ?]; [by right|].
        split; [|done]. rewrite lookup_delete_ne; [done|].
        intros <-. by apply (Hnotin p). }
      exists t'. simpl in *. repeat split; try done.
      intros k. rewrite Hs'. destruct (decide (k = k0)) as [->|Hne].
      * rewrite lookup_delete_eq, Hk0.
        rewrite decide_True by left.
        unfold removable. by rewrite Hp0, Hs.
      * rewrite lookup_delete_ne by done.
        destruct (sessions t !! k) as [p|]; [|done].
        destruct (decide ((k, p) ∈ l)) as [Hin|Hin].
        -- rewrite decide_True by (by right). done.
        -- rewrite decide_False; [done|].
           intros [Heq|?]%elem_of_cons; [congruence|done].
    + edestruct (IH t) as (t' & Hrun & Hh & Hi & Hr & Hc & Hs'); [done| |].
      { intros k p Hin. apply Hl. by right. }
      exists t'. repeat split; try done.
      intros k. rewrite Hs'.
      destruct (sessions t !! k) as [p|] eqn:Hk; [|done].
      destruct (decide (k = k0)) as [->|Hne].
      * assert (p = p0) as -> by congruence.
        rewrite decide_False by apply Hnotin.
        rewrite decide_True by left.
        unfold removable. by rewrite Hp0, Hs.
      * destruct (decide ((k, p) ∈ l)) as [Hin|Hin].
        -- rewrite decide_True by (by right). done.
        -- rewrite decide_False; [done|].
           intros [Heq|?]%elem_of_cons; [congruence|done].
Qed.

Lemma sweepActive_spec now (t : tracker T) :
  map_img (sessions t) ⊆@{gset loc} dom (heap t) →
  ∃ t', sweepActive now t = Some (tt, t') ∧
        heap t' = heap t ∧
        eventToSession t' = eventToSession t ∧
        retiredSessions t' = retiredSessions t ∧
        initCalls t' = initCalls t ∧
        ∀ k, sessions t' !! k =
             match sessions t !! k with
             | Some p => if removable now (heap t) p then None else Some p
             | None => None
             end.
Proof.
  intros Hv. unfold sweepActive, bind, gets.
  destruct (forM_janitorActive now (map_to_list (sessions t)) t)
    as (t' & Hrun & Hh & Hi & Hr & Hc & Hs).
  - apply NoDup_fst_map_to_list.
  - intros k p Hin%elem_of_map_to_list. split; [done|].
    apply Hv. apply elem_of_map_img. by exists k.
  - exists t'. repeat split; try done.
    intros k. rewrite Hs. destruct (sessions t !! k) as [p|] eqn:Hk; [|done].
    rewrite decide_True; [done|]. by apply elem_of_map_to_list.
Qed.

Lemma elem_of_tracked (t : tracker T) p :
  p ∈ tracked t ↔
  (∃ k, sessions t !! k = Some p) ∨ p ∈ retiredSessions t.
Proof.
  unfold tracked. rewrite elem_of_union, elem_of_map_img. done.
Qed.

Lemma janitorTick_spec now (t : tracker T) :
  tracked t ⊆ dom (heap t) →
  ∃ t', janitorTick now t = Some (tt, t') ∧
        heap t' = heap t ∧
        eventToSession t' = eventToSession t ∧
        initCalls t' = initCalls t ∧
        (∀ k, sessions t' !! k =
              match sessions t !! k with
              | Some p => if removable now (heap t) p then None else Some p
              | None => None
              end) ∧
        (∀ p, p ∈ retiredSessions t' ↔
              p ∈ retiredSessions t ∧ removable now (heap t) p = false).
Proof.
  intros Hv. unfold janitorTick, bind.
  destruct (sweepActive_spec now t) as (t1 & -> & Hh & Hi & Hr & Hc & Hs).
  { intros p Hp. apply Hv. unfold tracked. set_solver. }
  rewrite sweepRetired_eq.
  2:{ rewrite Hh, Hr. intros p Hp. apply Hv. unfold tracked. set_solver. }
  eexists. split; [reflexivity|]. simpl. rewrite Hh, Hr.
  do 4 (split; [done|]).
  intros p. rewrite elem_of_difference, elem_of_list_to_set,
    list_elem_of_filter, elem_of_elements.
  destruct (removable now (heap t) p); naive_solver.
Qed.

(** *** Preservation of the invariants *)

Lemma openEvents_insert (h : gmap loc (Session T)) p s q :
  openEvents (<[p := s]> h) q =
    if decide (p = q) then events s else openEvents h q.
Proof. unfold openEvents. rewrite lookup_insert. by case_decide. Qed.

Lemma fresh_heap (h : gmap loc (Session T)) : h !! fresh (dom h) = None.
Proof. apply not_elem_of_dom, is_fresh. Qed.

Lemma openEvents_Some (h : gmap loc (Session T)) p s :
  h !! p = Some s → openEvents h p = events s.
Proof. intros Hp. unfold openEvents. by rewrite Hp. Qed.

Lemma openEvents_elem (h : gmap loc (Session T)) p e :
  e ∈ openEvents h p → ∃ s, h !! p = Some s ∧ e ∈ events s.
Proof.
  unfold openEvents. destruct (h !! p) as [s|]; [eauto|set_solver].
Qed.

(** The three invariants, as statements on lookups. *)
Lemma valid_lookups (t : tracker T) :
  valid t ↔
  (∀ p, (∃ k, sessions t !! k = Some p) ∨ p ∈ retiredSessions t →
        is_Some (heap t !! p)) ∧
  (∀ e p, eventToSession t !! e = Some p → is_Some (heap t !! p)).
Proof.
  unfold valid. rewrite elem_of_subseteq.
  setoid_rewrite elem_of_tracked. setoid_rewrite elem_of_dom. done.
Qed.

Lemma index_sound_lookups (t : tracker T) :
  index_sound t ↔
  ∀ e p, eventToSession t !! e = Some p →
         ((∃ k, sessions t !! k = Some p) ∨ p ∈ retiredSessions t) ∧
         e ∈ openEvents (heap t) p.
Proof. unfold index_sound. setoid_rewrite elem_of_tracked. done. Qed.

Lemma index_complete_lookups (t : tracker T) :
  index_complete t ↔
  ∀ p e, (∃ k, sessions t !! k = Some p) ∨ p ∈ retiredSessions t →
         e ∈ openEvents (heap t) p → eventToSession t !! e = Some p.
Proof. unfold index_complete. setoid_rewrite elem_of_tracked. done. Qed.

Lemma start_ok_Start k e now (t : tracker T) p :
  start_ok (Start k e now) t = true →
  eventToSession t !! e = Some p → sessions t !! k = Some p.
Proof.
  unfold start_ok. intros Hok He. rewrite He in Hok.
  by apply bool_decide_eq_true in Hok.
Qed.

Lemma EventStart_new_inv k e now (t : tracker T) :
  sessions t !! k = None →
  valid t → index_sound t →
  ∃ p t', EventStart k e now t = Some (p, t') ∧
          valid t' ∧ index_sound t' ∧
          (start_ok (Start k e now) t = true →
           index_complete t → index_complete t') ∧
          eventToSession t' = <[e := p]> (eventToSession t).
Proof.
  intros Hk Hv Hs. rewrite (EventStart_new _ _ _ _ Hk). simpl.
  pose proof (fresh_heap (heap t)) as Hq.
  set (q := fresh (dom (heap t))) in *.
  eexists _, _. split; [reflexivity|].
  apply valid_lookups in Hv as [Hv1 Hv2].
  rewrite index_sound_lookups in Hs.
  rewrite valid_lookups, index_sound_lookups. simpl.
  split_and!; [| | |  |done].
  - intros p0 Hor. apply lookup_insert_is_Some'.
    destruct Hor as [[k0 Hk0]|Hr]; [|right; apply Hv1; eauto].
    destruct (decide (k = k0)) as [->|Hne].
    + rewrite lookup_insert_eq in Hk0. left. congruence.
    + rewrite lookup_insert_ne in Hk0 by done. right. apply Hv1. eauto.
  - intros e0 p0 He0. apply lookup_insert_is_Some'.
    destruct (decide (e = e0)) as [->|Hne].
    + rewrite lookup_insert_eq in He0. left. congruence.
    + rewrite lookup_insert_ne in He0 by done. right. eauto.
  - intros e0 p0 He0. rewrite openEvents_insert.
    destruct (decide (e = e0)) as [->|Hne].
    + rewrite lookup_insert_eq in He0. simplify_eq.
      rewrite decide_True by done. simpl. split; [|set_solver].
      left. exists k. by rewrite lookup_insert_eq.
    + rewrite lookup_insert_ne in He0 by done.
      destruct (Hs _ _ He0) as [Htr Hin].
      destruct (openEvents_elem _ _ _ Hin) as (s0 & Hs0 & _).
      rewrite decide_False by congruence. split; [|done].
      destruct Htr as [[k0 Hk0]|Hr]; [|by right].
      left. exists k0. rewrite lookup_insert_ne; [done|congruence].
  - intros Hok Hc. rewrite index_complete_lookups in Hc.
    rewrite index_complete_lookups. simpl.
    intros p0 e0 Htr. rewrite openEvents_insert.
    destruct (decide (q = p0)) as [<-|Hne]; simpl.
    + intros ->%elem_of_singleton. by rewrite lookup_insert_eq.
    + intros Hin.
      assert (Htr0 : (∃ k0, sessions t !! k0 = Some p0)
                     ∨ p0 ∈ retiredSessions t).
      { destruct Htr as [[k0 Hk0]|Hr]; [|by right].
        left. exists k0. destruct (decide (k = k0)) as [->|Hne'].
        - rewrite lookup_insert_eq in Hk0. congruence.
        - by rewrite lookup_insert_ne in Hk0. }
      pose proof (Hc _ _ Htr0 Hin) as He0.
      rewrite lookup_insert_ne; [done|]. intros <-.
      pose proof (start_ok_Start k e now t _ Hok He0). congruence.
Qed.

Lemma EventStart_reuse_inv k e now (t : tracker T) p s :
  sessions t !! k = Some p → heap t !! p = Some s →
  expired now s = false →
  valid t → index_sound t →
  ∃ t', EventStart k e now t = Some (p, t') ∧
        valid t' ∧ index_sound t' ∧
        (start_ok (Start k e now) t = true →
         index_complete t → index_complete t') ∧
        eventToSession t' = <[e := p]> (eventToSession t).
Proof.
  intros Hk Hp Hx Hv Hs. rewrite (EventStart_reuse _ _ _ _ _ _ Hk Hp Hx).
  pose proof (openEvents_Some _ _ _ Hp) as Hop.
  eexists. split; [reflexivity|].
  apply valid_lookups in Hv as [Hv1 Hv2].
  rewrite index_sound_lookups in Hs.
  rewrite valid_lookups, index_sound_lookups. simpl.
  split_and!; [| | |  |done].
  - intros p0 Hor. apply lookup_insert_is_Some'. right. by apply Hv1.
  - intros e0 p0 He0. apply lookup_insert_is_Some'.
    destruct (decide (e = e0)) as [->|Hne].
    + rewrite lookup_insert_eq in He0. left. congruence.
    + rewrite lookup_insert_ne in He0 by done. right. eauto.
  - intros e0 p0 He0. rewrite openEvents_insert.
    destruct (decide (e = e0)) as [->|Hne].
    + rewrite lookup_insert_eq in He0. simplify_eq.
      rewrite decide_True by done. simpl. split; [eauto|set_solver].
    + rewrite lookup_insert_ne in He0 by done.
      destruct (Hs _ _ He0) as [Htr Hin]. split; [done|].
      case_decide; [|done]. subst p0. simpl. rewrite Hop in Hin.
      set_solver.
  - intros Hok Hc. rewrite index_complete_lookups in Hc.
    rewrite index_complete_lookups. simpl.
    intros p0 e0 Htr. rewrite openEvents_insert.
    destruct (decide (p = p0)) as [<-|Hne]; simpl.
    + intros [->%elem_of_singleton|Hin]%elem_of_union.
      * by rewrite lookup_insert_eq.
      * rewrite <- Hop in Hin. pose proof (Hc _ _ Htr Hin) as He0.
        rewrite lookup_insert. by case_decide.
    + intros Hin. pose proof (Hc _ _ Htr Hin) as He0.
      rewrite lookup_insert_ne; [done|]. intros <-.
      pose proof (start_ok_Start k e now t _ Hok He0). congruence.
Qed.

Lemma EventStart_split_inv k e now (t : tracker T) p s :
  sessions t !! k = Some p → heap t !! p = Some s →
  expired now s = true →
  valid t → index_sound t →
  ∃ q t', EventStart k e now t = Some (q, t') ∧
          valid t' ∧ index_sound t' ∧
          (start_ok (Start k e now) t = true →
           index_complete t → index_complete t') ∧
          eventToSession t' = <[e := q]> (eventToSession t).
Proof.
  intros Hk Hp Hx Hv Hs. rewrite (EventStart_split _ _ _ _ _ _ Hk Hp Hx).
  pose proof (openEvents_Some _ _ _ Hp) as Hop. simpl.
  pose proof (fresh_heap (<[p:=mkSession (data s) (events s ∖ {[e]})
                                 true (metadata s)]> (heap t))) as Hq.
  set (q := fresh (dom (<[p:=_]> (heap t)))) in *.
  rewrite lookup_insert in Hq. case_decide as Hpq; [done|].
  eexists _, _. split; [reflexivity|].
  apply valid_lookups in Hv as [Hv1 Hv2].
  rewrite index_sound_lookups in Hs.
  rewrite valid_lookups, index_sound_lookups. simpl.
  split_and!; [| | |  |done].
  - intros p0 Hor. rewrite !lookup_insert_is_Some'.
    destruct Hor as [[k0 Hk0]|Hr].
    + destruct (decide (k = k0)) as [->|Hne].
      * rewrite lookup_insert_eq in Hk0. left. congruence.
      * rewrite lookup_insert_ne in Hk0 by done. right. right.
        apply Hv1. eauto.
    + apply elem_of_union in Hr as [->%elem_of_singleton|Hr].
      * right. by left.
      * right. right. apply Hv1. eauto.
  - intros e0 p0 He0. rewrite !lookup_insert_is_Some'.
    destruct (decide (e = e0)) as [->|Hne].
    + rewrite lookup_insert_eq in He0. left. congruence.
    + rewrite lookup_insert_ne in He0 by done. right. right. eauto.
  - intros e0 p0 He0. rewrite !openEvents_insert.
    destruct (decide (e = e0)) as [->|Hne].
    + rewrite lookup_insert_eq in He0. simplify_eq.
      rewrite decide_True by done. simpl. split; [|set_solver].
      left. exists k. by rewrite lookup_insert_eq.
    + rewrite lookup_insert_ne in He0 by done.
      destruct (Hs _ _ He0) as [Htr Hin].
      destruct (openEvents_elem _ _ _ Hin) as (s0 & Hs0 & _).
      rewrite decide_False by congruence.
      destruct (decide (p = p0)) as [<-|Hne']; simpl.
      * split; [right; set_solver|]. rewrite Hop in Hin. set_solver.
      * split; [|done]. destruct Htr as [[k0 Hk0]|Hr]; [|right; set_solver].
        left. exists k0. rewrite lookup_insert_ne; [done|congruence].
  - intros Hok Hc. rewrite index_complete_lookups in Hc.
    rewrite index_complete_lookups. simpl.
    intros p0 e0 Htr. rewrite !openEvents_insert.
    destruct (decide (q = p0)) as [<-|Hne]; simpl.
    { intros ->%elem_of_singleton. by rewrite lookup_insert_eq. }
    destruct (decide (p = p0)) as [<-|Hne']; simpl.
    + intros [Hin Hne']%elem_of_difference.
      rewrite <- Hop in Hin.
      rewrite lookup_insert_ne by set_solver. apply Hc; eauto.
    + intros Hin.
      assert (Htr0 : (∃ k0, sessions t !! k0 = Some p0)
                     ∨ p0 ∈ retiredSessions t).
      { destruct Htr as [[k0 Hk0]|Hr]; [|right; set_solver].
        left. exists k0. destruct (decide (k = k0)) as [->|Hne''].
        - rewrite lookup_insert_eq in Hk0. congruence.
        - by rewrite lookup_insert_ne in Hk0. }
      pose proof (Hc _ _ Htr0 Hin) as He0.
      rewrite lookup_insert_ne; [done|]. intros <-.
      pose proof (start_ok_Start k e now t _ Hok He0). congruence.
Qed.

Lemma drained_empty e (s : Session T) :
  drained e s = true → events s ∖ {[e]} = ∅.
Proof.
  unfold drained. intros [Hsz _]%andb_true_iff.
  apply bool_decide_eq_true in Hsz.
  by apply size_empty_inv, leibniz_equiv in Hsz.
Qed.

Lemma EventEnd_inv e now (t : tracker T) :
  valid t → index_sound t →
  ∃ r t', EventEnd e now t = Some (r, t') ∧
          valid t' ∧ index_sound t' ∧
          (index_complete t → index_complete t') ∧
          eventToSession t' = delete e (eventToSession t).
Proof.
  clear sessionInitFunc.
  intros Hv Hs. destruct (eventToSession t !! e) as [p|] eqn:He.
  2:{ rewrite (EventEnd_unknown _ _ _ He). eexists _, _.
      split; [reflexivity|]. by rewrite delete_id. }
  assert (is_Some (heap t !! p)) as [s Hp].
  { apply valid_lookups in Hv as [_ Hv]. eauto. }
  rewrite (EventEnd_known _ _ _ _ _ He Hp).
  pose proof (openEvents_Some _ _ _ Hp) as Hop.
  eexists _, _. split; [reflexivity|].
  apply valid_lookups in Hv as [Hv1 Hv2].
  rewrite index_sound_lookups in Hs.
  rewrite valid_lookups, index_sound_lookups. simpl.
  assert (Hret : ∀ p0, p0 ∈ (if drained e s then retiredSessions t ∖ {[p]}
                             else retiredSessions t) →
                       p0 ∈ retiredSessions t).
  { intros p0. destruct (drained e s); set_solver. }
  split_and!; [| | |  |done].
  - intros p0 Hor. apply lookup_insert_is_Some'. right. apply Hv1.
    destruct Hor as [?|?]; eauto.
  - intros e0 p0 [_ He0]%lookup_delete_Some.
    apply lookup_insert_is_Some'. right. eauto.
  - intros e0 p0 [Hne He0]%lookup_delete_Some.
    destruct (Hs _ _ He0) as [Htr Hin]. rewrite openEvents_insert.
    destruct (decide (p = p0)) as [<-|Hne']; simpl.
    + rewrite Hop in Hin.
      assert (Hin' : e0 ∈ events s ∖ {[e]}) by set_solver.
      split; [|done]. destruct Htr as [?|Hr]; [by left|right].
      destruct (drained e s) eqn:Hd; [|done].
      apply drained_empty in Hd. set_solver.
    + split; [|done]. destruct Htr as [?|Hr]; [by left|right].
      destruct (drained e s); set_solver.
  - intros Hc. rewrite index_complete_lookups in Hc.
    rewrite index_complete_lookups. simpl.
    intros p0 e0 Htr. rewrite openEvents_insert.
    assert (Htr0 : (∃ k0, sessions t !! k0 = Some p0)
                   ∨ p0 ∈ retiredSessions t).
    { destruct Htr as [?|?]; eauto. }
    destruct (decide (p = p0)) as [<-|Hne]; simpl.
    + intros [Hin Hne]%elem_of_difference. rewrite <- Hop in Hin.
      rewrite lookup_delete_ne by set_solver. by apply Hc.
    + intros Hin. pose proof (Hc _ _ Htr0 Hin) as He0.
      rewrite lookup_delete_ne; [done|]. intros <-. congruence.
Qed.

Lemma removable_open now (h : gmap loc (Session T)) p e :
  e ∈ openEvents h p → removable now h p = false.
Proof.
  clear sessionInitFunc.
  intros (s & Hp & Hin)%openEvents_elem. unfold removable. rewrite Hp.
  unfold shouldRemove. rewrite decide_False; [done|].
  intros Hsz%size_empty_inv. set_solver.
Qed.

Lemma janitorTick_inv now (t : tracker T) :
  valid t → index_sound t →
  ∃ t', janitorTick now t = Some (tt, t') ∧
        valid t' ∧ index_sound t' ∧
        (index_complete t → index_complete t') ∧
        eventToSession t' = eventToSession t.
Proof.
  intros Hv Hs.
  destruct (janitorTick_spec now t) as (t' & Hrun & Hh & Hi & _ & Hk & Hr);
    [apply Hv|].
  exists t'. split; [done|].
  assert (Hsub : ∀ p, (∃ k, sessions t' !! k = Some p)
                      ∨ p ∈ retiredSessions t' →
                      (∃ k, sessions t !! k = Some p)
                      ∨ p ∈ retiredSessions t).
  { intros p [[k Hkp]|Hp].
    - left. exists k. rewrite Hk in Hkp.
      destruct (sessions t !! k) as [p'|]; [|done].
      by destruct (removable now (heap t) p'); simplify_eq.
    - right. by apply Hr in Hp as [? _]. }
  apply valid_lookups in Hv as [Hv1 Hv2].
  rewrite index_sound_lookups in Hs.
  rewrite valid_lookups, index_sound_lookups, Hh, Hi.
  split_and!; [| | |  |done].
  - intros p Hp. by apply Hv1, Hsub.
  - done.
  - intros e p He. destruct (Hs _ _ He) as [Htr Hin]. split; [|done].
    pose proof (removable_open now _ _ _ Hin) as Hrem.
    destruct Htr as [[k Hkp]|Hp].
    + left. exists k. by rewrite Hk, Hkp, Hrem.
    + right. by apply Hr.
  - intros Hc. rewrite index_complete_lookups in Hc.
    rewrite index_complete_lookups, Hh, Hi.
    intros p e Htr. by apply Hc, Hsub.
Qed.

Lemma EventStart_inv k e now (t : tracker T) :
  valid t → index_sound t →
  ∃ p t', EventStart k e now t = Some (p, t') ∧
          valid t' ∧ index_sound t' ∧
          (start_ok (Start k e now) t = true →
           index_complete t → index_complete t') ∧
          eventToSession t' = <[e := p]> (eventToSession t).
Proof.
  intros Hv Hs. destruct (sessions t !! k) as [p|] eqn:Hk.
  - assert (is_Some (heap t !! p)) as [s Hp].
    { apply valid_lookups in Hv as [Hv _]. apply Hv. eauto. }
    destruct (expired now s) eqn:Hx.
    + by apply (EventStart_split_inv _ _ _ _ _ _ Hk Hp Hx).
    + exists p. by apply (EventStart_reuse_inv _ _ _ _ _ _ Hk Hp Hx).
  - by apply EventStart_new_inv.
Qed.

Lemma step_inv c (t : tracker T) :
  valid t → index_sound t →
  ∃ t', step c t = Some (tt, t') ∧
        valid t' ∧ index_sound t' ∧
        (start_ok c t = true → index_complete t → index_complete t') ∧
        (∀ e, is_Some (eventToSession t' !! e) →
              is_Some (eventToSession t !! e) ∨ e ∈ started [c]).
Proof.
  intros Hv Hs. destruct c as [k e now|e now|now]; unfold step.
  - destruct (EventStart_inv k e now t Hv Hs)
      as (p & t' & Hrun & Hv' & Hs' & Hc' & Hi).
    exists t'. unfold bind. rewrite Hrun. split_and!; try done.
    intros e0. rewrite Hi, lookup_insert_is_Some'. simpl.
    intros [->|?]; [right; set_solver|by left].
  - destruct (EventEnd_inv e now t Hv Hs)
      as (r & t' & Hrun & Hv' & Hs' & Hc' & Hi).
    exists t'. unfold bind. rewrite Hrun. split_and!; try done.
    intros e0. rewrite Hi. intros [p [_ Hp]%lookup_delete_Some]. eauto.
  - destruct (janitorTick_inv now t Hv Hs)
      as (t' & Hrun & Hv' & Hs' & Hc' & Hi).
    exists t'. split_and!; try done. intros e0. rewrite Hi. by left.
Qed.

Lemma run_inv cs : ∀ t : tracker T,
  valid t → index_sound t →
  ∃ t', run cs t = Some (tt, t') ∧
        valid t' ∧ index_sound t' ∧
        (starts_ok cs t → index_complete t → index_complete t') ∧
        (∀ e, is_Some (eventToSession t' !! e) →
              is_Some (eventToSession t !! e) ∨ e ∈ started cs).
Proof.
  induction cs as [|c cs IH]; intros t Hv Hs.
  - exists t. split_and!; try done. by left.
  - destruct (step_inv c t Hv Hs) as (t1 & Hstep & Hv1 & Hs1 & Hc1 & Hi1).
    destruct (IH t1 Hv1 Hs1) as (t' & Hrun & Hv' & Hs' & Hc' & Hi').
    exists t'. unfold run in *. simpl. unfold bind at 1. rewrite Hstep.
    split_and!; try done.
    + intros [Hok Hrest] Hc. auto.
    + intros e He. destruct (Hi' e He) as [He1|Hin].
      * destruct (Hi1 e He1) as [?|Hin]; [by left|right].
        unfold started in *. simpl in *. set_solver.
      * right. unfold started in *. simpl. set_solver.
Qed.

Lemma NewTracker_inv :
  valid (NewTracker (T:=T)) ∧ consistent (NewTracker (T:=T)).
Proof.
  unfold consistent.
  rewrite valid_lookups, index_sound_lookups, index_complete_lookups.
  unfold NewTracker. simpl. split_and!.
  - intros p [[k Hk]|Hp]; [by rewrite lookup_empty in Hk|set_solver].
  - intros e p He. by rewrite lookup_empty in He.
  - intros e p He. by rewrite lookup_empty in He.
  - intros p e _ Hin. unfold openEvents in Hin.
    rewrite lookup_empty in Hin. set_solver.
Qed.

(** *** Counting the open events *)

Lemma size_union_list_disjoint (f : loc → gset string) (l : list loc) :
  NoDup l →
  (∀ p q e, p ∈ l → q ∈ l → e ∈ f p → e ∈ f q → p = q) →
  size (⋃ (f <$> l)) = sum_list_with (λ p, size (f p)) l.
Proof.
  induction l as [|p l IH]; intros Hnd Hdisj.
  - done.
  - apply NoDup_cons in Hnd as [Hp Hnd]. rewrite fmap_cons. simpl.
    rewrite size_union.
    + rewrite IH; [done|done|].
      intros p1 p2 e ????. apply (Hdisj p1 p2 e); by try right.
    + intros e He1 (X & (q & -> & Hq)%list_elem_of_fmap & He2)
        %elem_of_union_list.
      apply Hp. rewrite (Hdisj p q e); [done|left|by right|done|done].
Qed.

Lemma consistent_size (t : tracker T) :
  consistent t → size (eventToSession t) = totalOpen t.
Proof.
  intros [Hs Hc]. unfold totalOpen.
  rewrite <- size_union_list_disjoint.
  - rewrite <- size_dom. f_equal. apply set_eq. intros e.
    rewrite elem_of_dom, elem_of_union_list. split.
    + intros [p Hp]. destruct (Hs _ _ Hp) as [Htr Hin].
      exists (openEvents (heap t) p). split; [|done].
      apply list_elem_of_fmap. exists p. by rewrite elem_of_elements.
    + intros (X & (p & -> & Hp%elem_of_elements)%list_elem_of_fmap & Hin).
      exists p. by apply Hc.
  - apply NoDup_elements.
  - intros p q e Hp%elem_of_elements Hq%elem_of_elements He1 He2.
    pose proof (Hc _ _ Hp He1). pose proof (Hc _ _ Hq He2). congruence.
Qed.

(** *** Facts on single calls *)

Lemma shouldRemove_true now (s : Session T) :
  shouldRemove now s = true ↔
  events s = ∅ ∧
  match maxSessionTimeout with
  | Some m => Sub now (Created (metadata s)) > m
  | None => Sub now (Updated (metadata s)) > inactivityTimeout
  end.
Proof.
  unfold shouldRemove. case_decide as Hsz.
  - apply size_empty_inv, leibniz_equiv in Hsz.
    destruct maxSessionTimeout; rewrite bool_decide_eq_true; naive_solver.
  - split; [done|]. intros [He _]. rewrite He in Hsz.
    by rewrite size_empty in Hsz.
Qed.

Lemma drained_true e (s : Session T) :
  drained e s = true ↔ retired s = true ∧ events s ∖ {[e]} = ∅.
Proof.
  unfold drained. rewrite andb_true_iff, bool_decide_eq_true. split.
  - intros [Hsz ?]. by apply size_empty_inv, leibniz_equiv in Hsz.
  - intros [? ->]. by rewrite size_empty.
Qed.

(** C1: with a maximum session lifetime [m] configured, an
    [EventStart k e] at [now] that finds a primary session [s] for [k]
    with [now - s.created > m] splits: [s] becomes retired, loses [e]
    from its open events and joins the retired set, its other open events
    stay indexed to it; a brand-new session (payload [sessionInitFunc k],
    open events [{e}], created = updated = [now]) becomes the primary of
    [k], [e] is indexed to it, and it is the session returned. *)
Theorem EventStart_split_spec k e now (t : tracker T) p s m :
  maxSessionTimeout = Some m →
  sessions t !! k = Some p →
  heap t !! p = Some s →
  Sub now (Created (metadata s)) > m →
  ∃ q t',
    EventStart k e now t = Some (q, t') ∧
    q ≠ p ∧ heap t !! q = None ∧
    heap t' !! p =
      Some (mkSession (data s) (events s ∖ {[e]}) true (metadata s)) ∧
    retiredSessions t' = {[p]} ∪ retiredSessions t ∧
    (∀ e', e' ≠ e → eventToSession t' !! e' = eventToSession t !! e') ∧
    heap t' !! q =
      Some (mkSession (sessionInitFunc k) {[e]} false
              (mkSessionMetadata now now)) ∧
    sessions t' = <[k := q]> (sessions t) ∧
    eventToSession t' !! e = Some q ∧
    initCalls t' = initCalls t ++ [k] ∧
    endCalls t' = endCalls t ∧
    (∀ r, r ≠ p → r ≠ q → heap t' !! r = heap t !! r).
Proof.
  intros Hm Hk Hp Hage.
  assert (Hx : expired now s = true).
  { unfold expired. rewrite Hm. by apply bool_decide_eq_true. }
  rewrite (EventStart_split _ _ _ _ _ _ Hk Hp Hx). simpl.
  pose proof (fresh_heap (<[p:=mkSession (data s) (events s ∖ {[e]})
                                 true (metadata s)]> (heap t))) as Hq.
  set (q := fresh (dom (<[p:=_]> (heap t)))) in *.
  rewrite lookup_insert in Hq. case_decide as Hpq; [done|].
  exists q. eexists. split; [reflexivity|]. simpl. split_and!; try done.
  - rewrite lookup_insert_ne by done. by rewrite lookup_insert_eq.
  - intros e' He'. by rewrite lookup_insert_ne.
  - by rewrite lookup_insert_eq.
  - by rewrite lookup_insert_eq.
  - intros r Hrp Hrq. by rewrite !lookup_insert_ne.
Qed.

(** C2: [janitorShouldRemove] answers false when the session has open
    events; otherwise, with a maximum lifetime [m] configured it answers
    true exactly when [now - created > m], and with none configured
    exactly when [now - updated > inactivityTimeout]; the call leaves the
    whole state, the session included, as it was. *)
Theorem janitorShouldRemove_spec p now (t : tracker T) s :
  heap t !! p = Some s →
  ∃ b,
    janitorShouldRemove p now t = Some (b, t) ∧
    (events s ≠ ∅ → b = false) ∧
    (events s = ∅ →
     match maxSessionTimeout with
     | Some m => b = true ↔ Sub now (Created (metadata s)) > m
     | None => b = true ↔ Sub now (Updated (metadata s)) > inactivityTimeout
     end).
Proof.
  intros Hp. exists (shouldRemove now s).
  split; [by apply janitorShouldRemove_eq|]. split.
  - intros Hne. destruct (shouldRemove now s) eqn:Hb; [|done].
    by apply shouldRemove_true in Hb as [? _].
  - intros He. pose proof (shouldRemove_true now s) as Hiff.
    destruct maxSessionTimeout; naive_solver.
Qed.

(** C3: an [EventEnd e] whose event the reverse index maps to a session
    [s] removes [e] from the open events of [s], sets [s.updated] to the
    current time, removes [e] from the reverse index and returns nil.  It
    removes [s] from the retired set and, when a callback is configured,
    dispatches it with the payload and the metadata of [s], exactly when
    [s] is retired and no open event is left once [e] is removed (which,
    for an [e] that is open in [s], says that [e] was the only one); an
    [EventEnd] of an unknown event dispatches nothing. *)
Theorem EventEnd_known_spec e now (t : tracker T) p s :
  eventToSession t !! e = Some p →
  heap t !! p = Some s →
  ∃ t',
    EventEnd e now t = Some (nil, t') ∧
    heap t' = <[p := mkSession (data s) (events s ∖ {[e]}) (retired s)
                       (mkSessionMetadata (Created (metadata s)) now)]>
                (heap t) ∧
    eventToSession t' = delete e (eventToSession t) ∧
    sessions t' = sessions t ∧
    initCalls t' = initCalls t ∧
    (retired s = true ∧ events s ∖ {[e]} = ∅ →
     retiredSessions t' = retiredSessions t ∖ {[p]} ∧
     endCalls t' =
       if onSessionEnd
       then endCalls t ++
            [mkEndCall p (data s)
               (mkSessionMetadata (Created (metadata s)) now)]
       else endCalls t) ∧
    (¬ (retired s = true ∧ events s ∖ {[e]} = ∅) →
     retiredSessions t' = retiredSessions t ∧ endCalls t' = endCalls t) ∧
    (e ∈ events s → events s ∖ {[e]} = ∅ ↔ events s = {[e]}) ∧
    (∀ e0 now0, eventToSession t !! e0 = None →
                ∃ r, EventEnd e0 now0 t = Some (r, t)).
Proof.
  clear sessionInitFunc.
  intros He Hp. rewrite (EventEnd_known _ _ _ _ _ He Hp).
  eexists. split; [reflexivity|]. simpl.
  pose proof (drained_true e s) as Hd.
  split_and!; try done.
  - intros Hlast. apply Hd in Hlast. by rewrite Hlast.
  - intros Hlast. destruct (drained e s); [|done].
    exfalso. by apply Hlast, Hd.
  - intros Hin. split; [|set_solver]. intros Hemp. apply set_eq.
    intros x. rewrite elem_of_singleton. split; [|by intros ->].
    intros Hx. destruct (decide (x = e)); [done|]. set_solver.
  - intros e0 now0 He0. eexists. by apply EventEnd_unknown.
Qed.

Lemma elem_of_endCallsOf (h : gmap loc (Session T)) (ps : list loc) c :
  c ∈ endCallsOf h ps ↔
  onSessionEnd = true ∧
  ∃ p s, p ∈ ps ∧ h !! p = Some s ∧ c = mkEndCall p (data s) (metadata s).
Proof.
  unfold endCallsOf. destruct onSessionEnd.
  - rewrite list_elem_of_In, in_flat_map. split.
    + intros (p & Hp%list_elem_of_In & Hc). split; [done|].
      destruct (h !! p) as [s|] eqn:Hs; [|by destruct Hc].
      exists p, s. destruct Hc as [<-|[]]. done.
    + intros (_ & p & s & Hp & Hs & ->). exists p.
      rewrite <- list_elem_of_In, Hs. split; [done|by left].
  - split; [by intros ?%elem_of_nil|by intros [? _]].
Qed.

(** C4, as the code has it: the sweep of the retired set removes a
    retired session and dispatches the configured callback for it exactly
    when [janitorShouldRemove] answers true, that is when the session has
    no open event and is expired (older than the maximum lifetime if one
    is configured, idle for longer than the inactivity timeout
    otherwise); a retired session that still holds an open event stays in
    the retired set and no callback is dispatched for it. *)
Theorem sweepRetired_spec now (t : tracker T) :
  retiredSessions t ⊆ dom (heap t) →
  ∃ t' fired,
    sweepRetired now t = Some (tt, t') ∧
    heap t' = heap t ∧ sessions t' = sessions t ∧
    eventToSession t' = eventToSession t ∧
    endCalls t' = endCalls t ++ fired ∧
    ∀ p s, p ∈ retiredSessions t → heap t !! p = Some s →
           let gone :=
             events s = ∅ ∧
             match maxSessionTimeout with
             | Some m => Sub now (Created (metadata s)) > m
             | None =>
                 Sub now (Updated (metadata s)) > inactivityTimeout
             end in
           (p ∉ retiredSessions t' ↔ gone) ∧
           (mkEndCall p (data s) (metadata s) ∈ fired ↔
            onSessionEnd = true ∧ gone) ∧
           (events s ≠ ∅ →
            p ∈ retiredSessions t' ∧ ∀ c, c ∈ fired → ended c ≠ p).
Proof.
  intros Hv. rewrite (sweepRetired_eq _ _ Hv). simpl.
  eexists _, _. split; [reflexivity|]. simpl. split_and!; try done.
  intros p s Hp Hs.
  assert (Hrem : removable now (heap t) p = true ↔
                 events s = ∅ ∧
                 match maxSessionTimeout with
                 | Some m => Sub now (Created (metadata s)) > m
                 | None =>
                     Sub now (Updated (metadata s)) > inactivityTimeout
                 end).
  { unfold removable. rewrite Hs. apply shouldRemove_true. }
  assert (Hgone : p ∈ filter (λ p, removable now (heap t) p = true)
                        (elements (retiredSessions t)) ↔
                  removable now (heap t) p = true).
  { rewrite list_elem_of_filter, elem_of_elements. naive_solver. }
  split_and!.
  - rewrite <- Hrem, <- Hgone, elem_of_difference, elem_of_list_to_set.
    split; [|naive_solver]. intros Hn.
    destruct (decide (p ∈ filter (λ p, removable now (heap t) p = true)
                            (elements (retiredSessions t)))); naive_solver.
  - rewrite <- Hrem, <- Hgone, elem_of_endCallsOf. split.
    + intros (? & p' & s' & Hp' & Hs' & Heq). by simplify_eq.
    + intros [? ?]. split; [done|]. by exists p, s.
  - intros Hne.
    assert (Hkeep : removable now (heap t) p ≠ true) by naive_solver.
    split.
    + rewrite elem_of_difference, elem_of_list_to_set. naive_solver.
    + intros c (_ & p' & s' & Hp' & Hs' & ->)%elem_of_endCallsOf. simpl.
      intros ->. naive_solver.
Qed.

(** C9: when the janitor removes the snapshot entry [(k, s)] it deletes
    the primary mapping of [k] only if the store maps [k] to the very
    session [s] at that moment, and it dispatches the callback for [s]
    only if that deletion took place; when another session has taken the
    slot of [k] nothing is deleted and nothing is dispatched.  The body of
    the sweep calls the removal only when [janitorShouldRemove] is
    true. *)
Theorem janitorEvict_spec now k p (t : tracker T) s :
  heap t !! p = Some s →
  ∃ t1 t2,
    janitorEvict k p t = Some (tt, t1) ∧
    (sessions t1 ≠ sessions t →
     sessions t !! k = Some p ∧ sessions t1 = delete k (sessions t)) ∧
    (endCalls t1 ≠ endCalls t →
     sessions t !! k = Some p ∧ sessions t1 = delete k (sessions t) ∧
     onSessionEnd = true ∧
     endCalls t1 = endCalls t ++ [mkEndCall p (data s) (metadata s)]) ∧
    (sessions t !! k = Some p →
     sessions t1 = delete k (sessions t) ∧
     (onSessionEnd = true →
      endCalls t1 = endCalls t ++ [mkEndCall p (data s) (metadata s)])) ∧
    (∀ p', sessions t !! k = Some p' → p' ≠ p → t1 = t) ∧
    (sessions t !! k = None → t1 = t) ∧
    heap t1 = heap t ∧ eventToSession t1 = eventToSession t ∧
    retiredSessions t1 = retiredSessions t ∧
    janitorActive now (k, p) t = Some (tt, t2) ∧
    t2 = (if shouldRemove now s then t1 else t).
Proof.
  intros Hp.
  assert (Hact : ∀ t1, janitorEvict k p t = Some (tt, t1) →
            janitorActive now (k, p) t =
              Some (tt, if shouldRemove now s then t1 else t)).
  { intros t1 Ht1. unfold janitorActive, bind. simpl.
    rewrite (janitorShouldRemove_eq _ _ _ _ Hp).
    by destruct (shouldRemove now s). }
  destruct (decide (sessions t !! k = Some p)) as [Hk|Hk].
  - pose proof (janitorEvict_same _ _ _ _ Hk Hp) as Hev.
    eexists _, _. split; [exact Hev|].
    rewrite (Hact _ Hev). simpl. split_and!; try done.
    + intros Hne. destruct onSessionEnd; [done|]. by destruct Hne.
    + intros _. split; [done|]. by intros ->.
    + intros p' Hk' Hne. congruence.
    + intros Hk'. congruence.
  - pose proof (janitorEvict_other _ _ _ Hk) as Hev.
    exists t. eexists. split; [exact Hev|].
    rewrite (Hact _ Hev). split_and!; try done.
Qed.

(** C10: an [EventEnd] of an event that is not in the reverse index
    returns an error and leaves the whole state as it was: the primary
    map, the reverse index, the retired set, every session, and the trace
    of dispatched callbacks. *)
Theorem EventEnd_unknown_unchanged e now (t : tracker T) :
  eventToSession t !! e = None →
  EventEnd e now t = Some (errNotAssociated e, t) ∧
  errNotAssociated e ≠ nil.
Proof. intros He. split; [by apply EventEnd_unknown|done]. Qed.

(** *** Facts on sequences of calls *)

(** C5, as the code has it: after every finite sequence of [EventStart]
    and [EventEnd] calls on a new tracker, made one after the other and
    with no step of the janitor in between, in which no [EventStart] takes
    an event identifier that is, at the call, indexed to another session
    than the primary one of its key, the reverse index and the open-event
    sets agree: every reverse-index entry maps an event that is open in its
    target, a live or retired session; every open event of a live or
    retired session is indexed to that session; and the size of the reverse
    index is the sum of the open-event counts over the live and retired
    sessions. *)
Theorem calls_consistent cs :
  calls_only cs →
  starts_ok cs NewTracker →
  ∃ t : tracker T,
    run cs NewTracker = Some (tt, t) ∧
    index_sound t ∧ index_complete t ∧
    size (eventToSession t) = totalOpen t.
Proof.
  intros _ Hok. destruct NewTracker_inv as [Hv [Hs Hc]].
  destruct (run_inv cs _ Hv Hs) as (t & Hrun & _ & Hs' & Hc' & _).
  exists t. split_and!; [done|done|by apply Hc'|].
  apply consistent_size. split; [done|by apply Hc'].
Qed.

(** C6, as the code has it: with a maximum lifetime [m] and a callback
    configured, when a session [s] that holds an open event [a] is split
    away by an [EventStart] at [now] (age above [m]) and [a] ends at
    [now' > now], the callback of [s] is dispatched by that [EventEnd]
    with the payload of [s], with [created] the creation time of [s],
    earlier than the split, and with [updated = now'], the time of that
    last [EventEnd], later than the split. *)
Theorem split_then_drain k e a now now' (t : tracker T) p s m :
  maxSessionTimeout = Some m →
  onSessionEnd = true →
  sessions t !! k = Some p →
  heap t !! p = Some s →
  events s ∖ {[e]} = {[a]} →
  eventToSession t !! a = Some p →
  0 ≤ m →
  Sub now (Created (metadata s)) > m →
  now < now' →
  ∃ q t1 t2 c,
    EventStart k e now t = Some (q, t1) ∧ q ≠ p ∧
    EventEnd a now' t1 = Some (nil, t2) ∧
    endCalls t1 = endCalls t ∧
    endCalls t2 = endCalls t ++ [c] ∧
    ended c = p ∧ endData c = data s ∧
    Created (endMetadata c) = Created (metadata s) ∧
    Updated (endMetadata c) = now' ∧
    Created (endMetadata c) < now ∧
    now < Updated (endMetadata c).
Proof.
  intros Hm Hcb Hk Hp Hev Ha Hm0 Hage Hlt.
  assert (Hx : expired now s = true).
  { unfold expired. rewrite Hm. by apply bool_decide_eq_true. }
  assert (Hae : a ≠ e) by set_solver.
  rewrite (EventStart_split _ _ _ _ _ _ Hk Hp Hx). simpl.
  pose proof (fresh_heap (<[p:=mkSession (data s) (events s ∖ {[e]})
                                 true (metadata s)]> (heap t))) as Hq.
  set (q := fresh (dom (<[p:=_]> (heap t)))) in *.
  rewrite lookup_insert in Hq. case_decide as Hpq; [done|].
  eexists q, _, _, _. split; [reflexivity|]. split; [done|].
  erewrite EventEnd_known; simpl.
  2:{ by rewrite lookup_insert_ne. }
  2:{ rewrite lookup_insert_ne by done. by rewrite lookup_insert_eq. }
  assert (Hd : drained a (mkSession (data s) (events s ∖ {[e]}) true
                            (metadata s)) = true).
  { apply drained_true. simpl. split; [done|]. rewrite Hev. set_solver. }
  rewrite Hd, Hcb. simpl.
  split_and!; try done. simpl. unfold Sub in Hage. lia.
Qed.

Lemma EventStart_Some k e now (t t1 : tracker T) p :
  EventStart k e now t = Some (p, t1) →
  sessions t1 !! k = Some p ∧
  (∃ s1, heap t1 !! p = Some s1 ∧ e ∈ events s1 ∧
         Updated (metadata s1) = now ∧
         (heap t !! p = None → data s1 = sessionInitFunc k ∧
                               events s1 = {[e]} ∧
                               Created (metadata s1) = now)) ∧
  (heap t !! p = None → initCalls t1 = initCalls t ++ [k]) ∧
  (is_Some (heap t !! p) → initCalls t1 = initCalls t).
Proof.
  destruct (sessions t !! k) as [p0|] eqn:Hk.
  - destruct (heap t !! p0) as [s0|] eqn:Hp0.
    2:{ unfold EventStart, bind, gets, deref. simpl.
        by rewrite Hk, Hp0. }
    destruct (expired now s0) eqn:Hx.
    + rewrite (EventStart_split _ _ _ _ _ _ Hk Hp0 Hx). simpl.
      pose proof (fresh_heap (<[p0:=mkSession (data s0)
                   (events s0 ∖ {[e]}) true (metadata s0)]> (heap t)))
        as Hq.
      set (q := fresh (dom (<[p0:=_]> (heap t)))) in *.
      rewrite lookup_insert in Hq. case_decide as Hpq; [done|].
      intros [= <- <-]. simpl. rewrite !lookup_insert_eq.
      split_and!; try done.
      * eexists. split; [done|]. simpl. split_and!; try done. set_solver.
      * intros [? ?]. congruence.
    + rewrite (EventStart_reuse _ _ _ _ _ _ Hk Hp0 Hx).
      intros [= <- <-]. simpl. rewrite lookup_insert_eq.
      split_and!; try done.
      * eexists. split; [done|]. simpl. split_and!; try done; [set_solver|].
        congruence.
      * congruence.
  - rewrite (EventStart_new _ _ _ _ Hk). simpl.
    pose proof (fresh_heap (heap t)) as Hq.
    intros [= <- <-]. simpl. rewrite !lookup_insert_eq.
    split_and!; try done.
    + eexists. split; [done|]. simpl. split_and!; try done. set_solver.
    + intros [? ?]. congruence.
Qed.

Lemma default_last_cons {A} (d x : A) l :
  default d (last (x :: l)) = default x (last l).
Proof. rewrite last_cons. by destruct (last l). Qed.

Lemma starts_reuse k p evs : ∀ (t : tracker T) s,
  sessions t !! k = Some p →
  heap t !! p = Some s →
  (∀ e now, (e, now) ∈ evs → expired now s = false) →
  ∃ t' s',
    starts k evs t = Some (replicate (length evs) p, t') ∧
    sessions t' = sessions t ∧
    initCalls t' = initCalls t ∧
    heap t' !! p = Some s' ∧
    data s' = data s ∧
    events s' = list_to_set evs.*1 ∪ events s ∧
    retired s' = retired s ∧
    Created (metadata s') = Created (metadata s) ∧
    Updated (metadata s') = default (Updated (metadata s)) (last evs.*2).
Proof.
  induction evs as [|[e now] evs IH]; intros t s Hk Hp Hx.
  - exists t, s. simpl. split_and!; try done. set_solver.
  - simpl. unfold bind at 1.
    rewrite (EventStart_reuse _ _ _ _ _ _ Hk Hp) by (apply (Hx e now); left).
    unfold bind at 1.
    match goal with
    | |- context [starts k evs ?t1] =>
        destruct (IH t1 (mkSession (data s) ({[e]} ∪ events s) (retired s)
                           (mkSessionMetadata (Created (metadata s)) now)))
          as (t' & s' & Hrun & IHr)
    end; [exact Hk|by simpl; apply lookup_insert_eq| |].
    { intros e' now' Hin. unfold expired. simpl.
      apply (Hx e' now'). by right. }
    rewrite Hrun. simpl in *.
    destruct IHr as (Hs1 & Hs2 & Hs3 & Hs4 & Hs5 & Hs6 & Hs7 & Hs8).
    exists t', s'. split_and!; try done.
    + rewrite Hs5. set_solver.
    + rewrite Hs8. symmetry. apply default_last_cons.
Qed.

(** C7: once an [EventStart] for key [k] has returned a session, every
    further [EventStart] for [k], as long as the session does not exceed
    the maximum lifetime, returns that very session; the initializer is
    not called again (it was called once, by the call that created the
    session, and that payload stays), and each such call adds its event
    to the open events of the session and sets [updated] to its time. *)
Theorem starts_same_session k e0 now0 rest (t t1 : tracker T) p s1 :
  EventStart k e0 now0 t = Some (p, t1) →
  heap t1 !! p = Some s1 →
  (∀ e now, (e, now) ∈ rest → expired now s1 = false) →
  ∃ t' s',
    starts k ((e0, now0) :: rest) t =
      Some (replicate (S (length rest)) p, t') ∧
    sessions t' !! k = Some p ∧
    heap t' !! p = Some s' ∧
    data s' = data s1 ∧
    events s' = list_to_set rest.*1 ∪ events s1 ∧
    e0 ∈ events s1 ∧
    Created (metadata s') = Created (metadata s1) ∧
    Updated (metadata s') = default now0 (last rest.*2) ∧
    initCalls t' = initCalls t1 ∧
    (heap t !! p = None →
     initCalls t' = initCalls t ++ [k] ∧ data s' = sessionInitFunc k ∧
     Created (metadata s') = now0) ∧
    (is_Some (heap t !! p) → initCalls t' = initCalls t).
Proof.
  intros Hfirst Hp Hx.
  destruct (EventStart_Some _ _ _ _ _ _ Hfirst)
    as (Hk & (s1' & Hp' & He0 & Hu & Hnew) & Hinit & Hold).
  assert (s1' = s1) as -> by congruence.
  destruct (starts_reuse k p rest t1 s1 Hk Hp Hx)
    as (t' & s' & Hrun & Hs1 & Hs2 & Hs3 & Hs4 & Hs5 & Hs6 & Hs7 & Hs8).
  exists t', s'. simpl. unfold bind at 1. rewrite Hfirst.
  unfold bind at 1. rewrite Hrun. simpl.
  split_and!; try done.
  - by rewrite Hs1.
  - by rewrite Hs8, Hu.
  - intros Hn. destruct (Hnew Hn) as (? & ? & ?).
    pose proof (Hinit Hn). split_and!; congruence.
  - intros Hsome. rewrite Hs2. by apply Hold.
Qed.

End Properties.

(** ** The properties on the concrete tracker *)

Lemma ex_open_run : ex_run [Start "x" "a" 0] NewTracker = Some (tt, ex_open).
Proof. vm_compute. reflexivity. Qed.

Lemma ex_split_run :
  ex_run [Start "x" "a" 0; Start "x" "b" 3] NewTracker = Some (tt, ex_split).
Proof. vm_compute. reflexivity. Qed.

Lemma ex_ended_run :
  ex_run [Start "x" "a" 0; End "a" 1] NewTracker = Some (tt, ex_ended).
Proof. vm_compute. reflexivity. Qed.

Lemma ex_shared_run :
  ex_run [Start "a" "e" 0; Start "b" "e" 1] NewTracker = Some (tt, ex_shared).
Proof. vm_compute. reflexivity. Qed.

Lemma EventStart_split_spec_witness :
  sessions ex_open !! "x" = Some 1%positive ∧
  heap ex_open !! 1%positive =
    Some (mkSession "x" {["a"]} false (mkSessionMetadata 0 0)) ∧
  Sub 3 0 > 2 ∧
  ∃ q t',
    EventStart ex_init (Some 2) "x" "b" 3 ex_open = Some (q, t') ∧
    q ≠ 1%positive ∧
    sessions t' = <["x" := q]> (sessions ex_open) ∧
    retiredSessions t' = {[1%positive]} ∪ retiredSessions ex_open.
Proof.
  split; [reflexivity|]. split; [reflexivity|]. split; [reflexivity|].
  destruct (EventStart_split_spec ex_init (Some 2) "x" "b" 3 ex_open
              1%positive (mkSession "x" {["a"]} false (mkSessionMetadata 0 0))
              2 eq_refl eq_refl eq_refl eq_refl)
    as (q & t' & Hrun & Hq & _ & _ & Hr & _ & _ & Hs & _).
  exists q, t'. repeat split; assumption.
Defined.

Lemma janitorShouldRemove_spec_witness :
  heap ex_ended !! 1%positive =
    Some (mkSession "x" ∅ false (mkSessionMetadata 0 1)) ∧
  ∃ b, janitorShouldRemove 5 (Some 2) 1%positive 10 ex_ended
       = Some (b, ex_ended) ∧
       (b = true ↔ Sub 10 0 > 2).
Proof.
  split; [reflexivity|].
  destruct (janitorShouldRemove_spec 5 (Some 2) 1%positive 10 ex_ended
              (mkSession "x" ∅ false (mkSessionMetadata 0 1)) eq_refl)
    as (b & Hrun & _ & Hb).
  exists b. split; [assumption|]. apply Hb. reflexivity.
Defined.

Lemma EventEnd_known_spec_witness :
  eventToSession ex_split !! "a" = Some 1%positive ∧
  heap ex_split !! 1%positive =
    Some (mkSession "x" {["a"]} true (mkSessionMetadata 0 0)) ∧
  ∃ t', EventEnd true "a" 4 ex_split = Some (nil, t') ∧
        retiredSessions t' = retiredSessions ex_split ∖ {[1%positive]} ∧
        endCalls t' = [mkEndCall 1%positive "x" (mkSessionMetadata 0 4)].
Proof.
  split; [reflexivity|]. split; [reflexivity|].
  destruct (EventEnd_known_spec true "a" 4 ex_split 1%positive
              (mkSession "x" {["a"]} true (mkSessionMetadata 0 0))
              eq_refl eq_refl)
    as (t' & Hrun & _ & _ & _ & _ & Hlast & _).
  exists t'. split; [assumption|]. apply Hlast.
  split; [reflexivity|]. vm_compute. reflexivity.
Defined.

Lemma sweepRetired_spec_witness :
  retiredSessions ex_split ⊆ dom (heap ex_split) ∧
  ∃ t', sweepRetired 5 (Some 2) true 1000 ex_split = Some (tt, t') ∧
        1%positive ∈ retiredSessions t'.
Proof.
  assert (Hsub : retiredSessions ex_split ⊆ dom (heap ex_split)).
  { compute_done. }
  split; [exact Hsub|].
  destruct (sweepRetired_spec 5 (Some 2) true 1000 ex_split Hsub)
    as (t' & fired & Hrun & _ & _ & _ & _ & Hall).
  exists t'. split; [assumption|].
  apply (Hall 1%positive
           (mkSession "x" {["a"]} true (mkSessionMetadata 0 0))).
  - compute_done.
  - reflexivity.
  - simpl. intros Hemp. apply (f_equal size) in Hemp. vm_compute in Hemp.
    discriminate Hemp.
Defined.

(** C4, as the claim states it, fails: the retired session 1 is expired
    (and idle) at the tick at 1000 and still holds the open event ["a"];
    the tick leaves it in the retired set and dispatches nothing. *)
Lemma sweepRetired_stale_counterexample :
  1%positive ∈ retiredSessions ex_split ∧
  heap ex_split !! 1%positive =
    Some (mkSession "x" {["a"]} true (mkSessionMetadata 0 0)) ∧
  Sub 1000 0 > 2 ∧ Sub 1000 0 > 5 ∧
  sweepRetired 5 (Some 2) true 1000 ex_split = Some (tt, ex_split) ∧
  janitorTick 5 (Some 2) true 1000 ex_split = Some (tt, ex_split) ∧
  endCalls ex_split = [].
Proof.
  split; [compute_done|].
  repeat split; vm_compute; reflexivity.
Qed.

Lemma calls_consistent_witness :
  calls_only [Start "x" "a" 0; Start "x" "b" 3; End "a" 4; End "c" 5] ∧
  starts_ok ex_init 5 (Some 2) true
    [Start "x" "a" 0; Start "x" "b" 3; End "a" 4; End "c" 5] NewTracker ∧
  ∃ t, ex_run [Start "x" "a" 0; Start "x" "b" 3; End "a" 4; End "c" 5]
         NewTracker = Some (tt, t) ∧
       size (eventToSession t) = totalOpen t.
Proof.
  assert (Hcalls : calls_only
            [Start "x" "a" 0; Start "x" "b" 3; End "a" 4; End "c" 5]).
  { repeat constructor. }
  assert (Hok : starts_ok ex_init 5 (Some 2) true
            [Start "x" "a" 0; Start "x" "b" 3; End "a" 4; End "c" 5]
            NewTracker).
  { vm_compute. repeat split. }
  split; [exact Hcalls|]. split; [exact Hok|].
  destruct (calls_consistent ex_init 5 (Some 2) true _ Hcalls Hok)
    as (t & Hrun & _ & _ & Hsize).
  exists t. split; assumption.
Defined.

(** C5, as the claim states it, fails: two keys start the same event
    identifier; ["e"] is open in the live session 1 but indexed to session
    2, and the reverse index has one entry for two open events. *)
Lemma run_shared_id_counterexample :
  ex_run [Start "a" "e" 0; Start "b" "e" 1] NewTracker
    = Some (tt, ex_shared) ∧
  1%positive ∈ tracked ex_shared ∧
  "e" ∈ openEvents (heap ex_shared) 1%positive ∧
  eventToSession ex_shared !! "e" = Some 2%positive ∧
  ¬ index_complete ex_shared ∧
  size (eventToSession ex_shared) = 1%nat ∧
  totalOpen ex_shared = 2%nat.
Proof.
  assert (H1 : 1%positive ∈ tracked ex_shared)
    by (compute_done).
  assert (H2 : "e" ∈ openEvents (heap ex_shared) 1%positive)
    by (compute_done).
  split; [vm_compute; reflexivity|].
  split; [exact H1|]. split; [exact H2|]. split; [reflexivity|].
  split; [|split; vm_compute; reflexivity].
  intros Hc. specialize (Hc _ _ H1 H2). vm_compute in Hc. discriminate Hc.
Qed.

Lemma split_then_drain_witness :
  sessions ex_open !! "x" = Some 1%positive ∧
  events (mkSession "x" {["a"]} false (mkSessionMetadata 0 0)) ∖ {["b"]}
    = {["a"]} ∧
  Sub 3 0 > 2 ∧ 3 < 4 ∧
  ∃ q t1 t2,
    EventStart ex_init (Some 2) "x" "b" 3 ex_open = Some (q, t1) ∧
    EventEnd true "a" 4 t1 = Some (nil, t2) ∧
    endCalls t2 = [mkEndCall 1%positive "x" (mkSessionMetadata 0 4)].
Proof.
  assert (Hev : events (mkSession "x" {["a"]} false (mkSessionMetadata 0 0))
                  ∖ {["b"]} = {["a"]}) by (vm_compute; reflexivity).
  split; [reflexivity|]. split; [exact Hev|]. split; [reflexivity|].
  split; [lia|].
  destruct (split_then_drain ex_init (Some 2) true "x" "b" "a" 3 4 ex_open
              1%positive (mkSession "x" {["a"]} false (mkSessionMetadata 0 0))
              2 eq_refl eq_refl eq_refl eq_refl Hev eq_refl
              ltac:(lia) eq_refl ltac:(lia))
    as (q & t1 & t2 & c & Hs & _ & He & _ & Hc & Hp & Hd & Hcr & Hup & _).
  exists q, t1, t2. split; [assumption|]. split; [assumption|].
  rewrite Hc. simpl. destruct c as [cp cd [cc cu]]. simpl in *.
  subst. reflexivity.
Defined.

(** C6, as the claim states it, fails: the session created at 0 is split
    away at 3 and its open event ends at 4; the callback gets
    [updated = 4], which is not earlier than the split. *)
Lemma split_updated_counterexample :
  ex_run [Start "x" "a" 0; Start "x" "b" 3] NewTracker
    = Some (tt, ex_split) ∧
  endCalls ex_split = [] ∧
  ∃ t, ex_run [End "a" 4] ex_split = Some (tt, t) ∧
       endCalls t = [mkEndCall 1%positive "x" (mkSessionMetadata 0 4)] ∧
       ¬ (Updated (mkSessionMetadata 0 4) < 3).
Proof.
  split; [vm_compute; reflexivity|]. split; [reflexivity|].
  eexists. split; [vm_compute; reflexivity|].
  split; [reflexivity|]. simpl. lia.
Qed.

Lemma starts_same_session_witness :
  EventStart ex_init (Some 5) "x" "a" 0 NewTracker
    = Some (1%positive, ex_open) ∧
  ∃ t' s',
    starts ex_init (Some 5) "x" [("a", 0); ("b", 1); ("c", 2)] NewTracker
      = Some ([1%positive; 1%positive; 1%positive], t') ∧
    heap t' !! 1%positive = Some s' ∧
    events s' = {["b"; "c"]} ∪ {["a"]} ∧
    Updated (metadata s') = 2 ∧
    initCalls t' = ["x"].
Proof.
  assert (Hfirst : EventStart ex_init (Some 5) "x" "a" 0 NewTracker
                   = Some (1%positive, ex_open))
    by (vm_compute; reflexivity).
  split; [exact Hfirst|].
  destruct (starts_same_session ex_init (Some 5) "x" "a" 0
              [("b", 1); ("c", 2)] NewTracker ex_open 1%positive
              (mkSession "x" {["a"]} false (mkSessionMetadata 0 0))
              Hfirst eq_refl)
    as (t' & s' & Hrun & _ & Hp & _ & Hev & _ & _ & Hup & _ & Hnew & _).
  { intros e now Hin.
    apply elem_of_cons in Hin as [Heq|Hin];
      [injection Heq as -> ->; reflexivity|].
    apply elem_of_cons in Hin as [Heq|Hin];
      [injection Heq as -> ->; reflexivity|].
    apply elem_of_nil in Hin. destruct Hin. }
  exists t', s'. split; [exact Hrun|]. split; [exact Hp|].
  split; [exact Hev|]. split; [exact Hup|].
  apply Hnew. reflexivity.
Defined.

Lemma janitorEvict_spec_witness :
  heap ex_split !! 1%positive =
    Some (mkSession "x" {["a"]} true (mkSessionMetadata 0 0)) ∧
  sessions ex_split !! "x" = Some 2%positive ∧
  ∃ t1, janitorEvict true "x" 1%positive ex_split = Some (tt, t1) ∧
        t1 = ex_split.
Proof.
  split; [reflexivity|]. split; [reflexivity|].
  destruct (janitorEvict_spec 5 (Some 2) true 1000 "x" 1%positive ex_split
              (mkSession "x" {["a"]} true (mkSessionMetadata 0 0)) eq_refl)
    as (t1 & t2 & Hrun & _ & _ & _ & Hother & _).
  exists t1. split; [exact Hrun|].
  apply (Hother 2%positive); [reflexivity|discriminate].
Defined.

Lemma EventEnd_unknown_unchanged_witness :
  eventToSession ex_ended !! "a" = None ∧
  EventEnd true "a" 2 ex_ended = Some (errNotAssociated "a", ex_ended).
Proof.
  split; [reflexivity|].
  apply (EventEnd_unknown_unchanged true "a" 2 ex_ended). reflexivity.
Defined.

(** ** More properties: runs, the janitor, handles, options *)

Section MoreProperties.
Set Default Proof Using "Type".
Context {T : Type}.
Variable sessionInitFunc : string → T.
Variable inactivityTimeout : Duration.
Variable maxSessionTimeout : option Duration.
Variable onSessionEnd : bool.

Local Abbreviation EventStart :=
  (EventStart sessionInitFunc maxSessionTimeout).
Local Abbreviation EventEnd := (EventEnd (T:=T) onSessionEnd).
Local Abbreviation expired := (expired (T:=T) maxSessionTimeout).
Local Abbreviation shouldRemove :=
  (shouldRemove (T:=T) inactivityTimeout maxSessionTimeout).
Local Abbreviation janitorActive :=
  (janitorActive (T:=T) inactivityTimeout maxSessionTimeout onSessionEnd).
Local Abbreviation sweepActive :=
  (sweepActive (T:=T) inactivityTimeout maxSessionTimeout onSessionEnd).
Local Abbreviation sweepRetired :=
  (sweepRetired (T:=T) inactivityTimeout maxSessionTimeout onSessionEnd).
Local Abbreviation janitorTick :=
  (janitorTick (T:=T) inactivityTimeout maxSessionTimeout onSessionEnd).
Local Abbreviation removable :=
  (removable (T:=T) inactivityTimeout maxSessionTimeout).
Local Abbreviation step :=
  (step sessionInitFunc inactivityTimeout maxSessionTimeout onSessionEnd).
Local Abbreviation run :=
  (run sessionInitFunc inactivityTimeout maxSessionTimeout onSessionEnd).
Local Abbreviation endCallsOf := (endCallsOf (T:=T) onSessionEnd).
Local Abbreviation ticked :=
  (ticked (T:=T) inactivityTimeout maxSessionTimeout onSessionEnd).

(** *** The tick in closed form *)

Lemma endCallsOf_app (h : gmap loc (Session T)) ps qs :
  endCallsOf h (ps ++ qs) = endCallsOf h ps ++ endCallsOf h qs.
Proof.
  unfold endCallsOf. destruct onSessionEnd; [|done].
  induction ps as [|p ps IH]; [done|]. simpl. by rewrite IH, app_assoc.
Qed.

Lemma forM_janitorActive_calls now (l : list (string * loc)) :
  ∀ t : tracker T,
  NoDup l.*1 →
  (∀ k p, (k, p) ∈ l → sessions t !! k = Some p ∧ p ∈ dom (heap t)) →
  ∃ t', forM l (janitorActive now) t = Some (tt, t') ∧
        endCalls t' =
          endCalls t
          ++ endCallsOf (heap t)
               (filter (λ p, removable now (heap t) p = true) l.*2).
Proof.
  induction l as [|[k0 p0] l IH]; intros t Hnd Hl.
  - exists t. split; [done|]. simpl. unfold endCallsOf.
    destruct onSessionEnd; simpl; by rewrite app_nil_r.
  - destruct (Hl k0 p0) as [Hk0 Hp0]; [left|].
    apply elem_of_dom in Hp0 as [s0 Hp0].
    rewrite fmap_cons in Hnd. apply NoDup_cons in Hnd as [Hk0l Hnd].
    assert (Hnotin : ∀ p, (k0, p) ∉ l).
    { intros p Hin. apply Hk0l. apply list_elem_of_fmap. by exists (k0, p). }
    assert (Hrem : removable now (heap t) p0 = shouldRemove now s0)
      by (unfold removable; by rewrite Hp0).
    simpl. unfold bind at 1. unfold janitorActive at 1.
    unfold bind at 1. simpl.
    rewrite (janitorShouldRemove_eq _ _ _ _ _ _ Hp0).
    rewrite filter_cons. simpl.
    destruct (shouldRemove now s0) eqn:Hs.
    + rewrite (janitorEvict_same _ _ _ _ _ Hk0 Hp0).
      match goal with
      | |- context [forM l _ ?t1] =>
          destruct (IH t1) as (t' & Hrun & Hc); [done| |]
      end.
      { intros k p Hin. simpl. destruct (Hl k p) as [? ?]; [by right|].
        split; [|done]. rewrite lookup_delete_ne; [done|].
        intros <-. by apply (Hnotin p). }
      exists t'. split; [done|]. rewrite Hc. simpl.
      rewrite decide_True by (by rewrite Hrem).
      change (p0 :: ?l) with ([p0] ++ l). rewrite endCallsOf_app.
      unfold endCallsOf at 2. destruct onSessionEnd; simpl.
      * rewrite Hp0. simpl. by rewrite <- app_assoc.
      * done.
    + destruct (IH t) as (t' & Hrun & Hc); [done| |].
      { intros k p Hin. apply Hl. by right. }
      exists t'. split; [done|]. rewrite Hc.
      by rewrite decide_False by (by rewrite Hrem).
Qed.

Lemma janitorTick_eq now (t : tracker T) :
  tracked t ⊆ dom (heap t) →
  janitorTick now t = Some (tt, ticked now t).
Proof.
  intros Hv.
  assert (Himg : map_img (sessions t) ⊆@{gset loc} dom (heap t)).
  { intros p Hp. apply Hv. unfold tracked. set_solver. }
  assert (Hret : retiredSessions t ⊆ dom (heap t)).
  { intros p Hp. apply Hv. unfold tracked. set_solver. }
  unfold janitorTick, bind.
  destruct (sweepActive_spec inactivityTimeout maxSessionTimeout onSessionEnd
              now t Himg) as (t1 & Hrun & Hh & Hi & Hr & Hc & Hs).
  destruct (forM_janitorActive_calls now (map_to_list (sessions t)) t)
    as (t1' & Hrun' & Hcalls).
  { apply NoDup_fst_map_to_list. }
  { intros k p Hin%elem_of_map_to_list. split; [done|].
    apply Himg. apply elem_of_map_img. by exists k. }
  assert (t1' = t1) as ->.
  { unfold sweepActive, bind, gets in Hrun. congruence. }
  rewrite Hrun. rewrite sweepRetired_eq by (by rewrite Hh, Hr). simpl.
  unfold ticked. rewrite Hh, Hi, Hr, Hc, Hcalls.
  f_equal. f_equal. f_equal.
  - apply map_eq. intros k. rewrite Hs, map_lookup_filter.
    destruct (sessions t !! k) as [p|]; [|done]. simpl.
    destruct (removable now (heap t) p); by simplify_option_eq.
  - apply set_eq. intros p.
    rewrite elem_of_difference, elem_of_list_to_set, list_elem_of_filter,
      elem_of_elements, elem_of_filter.
    destruct (removable now (heap t) p); naive_solver.
  - by rewrite app_assoc.
Qed.

(** *** One call, by cases *)

Local Abbreviation transition :=
  (transition sessionInitFunc inactivityTimeout maxSessionTimeout
     onSessionEnd).

Lemma step_transition c (t : tracker T) :
  valid t → ∃ t', step c t = Some (tt, t') ∧ transition c t t'.
Proof.
  intros Hv. pose proof Hv as [Hv1 Hv2]%valid_lookups.
  destruct c as [k e now|e now|now]; unfold step.
  - destruct (sessions t !! k) as [p|] eqn:Hk.
    + assert (is_Some (heap t !! p)) as [s Hp] by (apply Hv1; eauto).
      destruct (expired now s) eqn:Hx.
      * unfold bind.
        rewrite (EventStart_split _ _ _ _ _ _ _ _ Hk Hp Hx). simpl.
        pose proof (fresh_heap (<[p:=mkSession (data s) (events s ∖ {[e]})
                                       true (metadata s)]> (heap t))) as Hq.
        set (q := fresh (dom (<[p:=_]> (heap t)))) in *.
        rewrite lookup_insert in Hq. case_decide as Hpq; [done|].
        eexists. split; [reflexivity|]. by apply transition_split.
      * unfold bind.
        rewrite (EventStart_reuse _ _ _ _ _ _ _ _ Hk Hp Hx).
        eexists. split; [reflexivity|]. by apply transition_reuse.
    + unfold bind. rewrite (EventStart_new _ _ _ _ _ _ Hk). simpl.
      eexists. split; [reflexivity|].
      apply transition_new; [done|apply fresh_heap].
  - destruct (eventToSession t !! e) as [p|] eqn:He.
    + assert (is_Some (heap t !! p)) as [s Hp] by eauto.
      unfold bind. rewrite (EventEnd_known _ _ _ _ _ _ He Hp). simpl.
      eexists. split; [reflexivity|]. by apply transition_end.
    + unfold bind. rewrite (EventEnd_unknown _ _ _ _ He).
      eexists. split; [reflexivity|]. by apply transition_unknown.
  - rewrite janitorTick_eq by apply Hv.
    eexists. split; [reflexivity|]. apply transition_tick.
Qed.

(** An invariant of the calls is an invariant of the runs. *)
Lemma run_invariant (I : tracker T → Prop) :
  (∀ c t t', valid t → index_sound t → I t → transition c t t' → I t') →
  ∀ cs t t', valid t → index_sound t → I t →
             run cs t = Some (tt, t') → I t'.
Proof.
  intros Hstep. induction cs as [|c cs IH]; intros t t' Hv Hs HI Hrun.
  - unfold run in Hrun. simpl in Hrun. by injection Hrun as <-.
  - destruct (step_transition c t Hv) as (t1 & Hst & Htr).
    destruct (step_inv sessionInitFunc inactivityTimeout maxSessionTimeout
                onSessionEnd c t Hv Hs) as (t1' & Hst' & Hv1 & Hs1 & _).
    assert (t1' = t1) as -> by congruence.
    unfold run in Hrun. simpl in Hrun. unfold bind at 1 in Hrun.
    rewrite Hst in Hrun.
    apply (IH t1 t'); [done|done| |done]. by apply (Hstep c t).
Qed.

(** *** The shape of the store *)

Lemma transition_structured c (t t' : tracker T) :
  valid t → structured t → transition c t t' → structured t'.
Proof.
  intros [Hv1 Hv2]%valid_lookups (Hprim & Hret & Hinj) Htr.
  destruct Htr as [k e now t q Hk Hq|k e now t p s Hk Hp Hx
                  |k e now t p s q Hk Hp Hx Hq|e now t He
                  |e now t p s He Hp|now t];
    unfold structured; simpl.
  - (* a new session for an unseen key *)
    assert (Hold : ∀ k' p', sessions t !! k' = Some p' → p' ≠ q).
    { intros k' p' Hk' ->. destruct (Hv1 q) as [? ?]; [eauto|congruence]. }
    split_and!.
    + intros k' p' s'. rewrite lookup_insert. case_decide as Hkk.
      * intros [= <-]. rewrite lookup_insert_eq. by intros [= <-].
      * intros Hk'.
        rewrite lookup_insert_ne by (by apply not_eq_sym, (Hold k')).
        by apply (Hprim k').
    + intros p' s' Hin. destruct (decide (q = p')) as [<-|Hne].
      * destruct (Hv1 q) as [? ?]; [eauto|congruence].
      * rewrite lookup_insert_ne by done. by apply Hret.
    + intros k1 k2 p'. rewrite !lookup_insert.
      repeat case_decide; simplify_eq; try done.
      * intros [= <-] Hk2. by destruct (Hold k2 q).
      * intros Hk1 [= <-]. by destruct (Hold k1 q).
      * apply Hinj.
  - (* the primary session is used again *)
    split_and!; [| |done].
    + intros k' p' s' Hk'. rewrite lookup_insert. case_decide as Hpp.
      * intros [= <-]. simpl. subst p'. by apply (Hprim k' p s).
      * by apply (Hprim k').
    + intros p' s' Hin. rewrite lookup_insert. case_decide as Hpp.
      * intros [= <-]. simpl. subst p'. by apply (Hret p s).
      * by apply Hret.
  - (* split *)
    assert (Hpq : p ≠ q) by congruence.
    assert (Hold : ∀ k' p', sessions t !! k' = Some p' → p' ≠ q).
    { intros k' p' Hk' ->. destruct (Hv1 q) as [? ?]; [eauto|congruence]. }
    split_and!.
    + intros k' p' s'. rewrite lookup_insert. case_decide as Hkk.
      * intros [= <-]. rewrite lookup_insert_eq. by intros [= <-].
      * intros Hk'.
        rewrite lookup_insert_ne by (by apply not_eq_sym, (Hold k')).
        rewrite lookup_insert_ne.
        -- by apply (Hprim k').
        -- intros <-. apply Hkk. by apply (Hinj k k' p).
    + intros p' s' Hin. destruct (decide (q = p')) as [<-|Hne].
      * apply elem_of_union in Hin as [Hin%elem_of_singleton|Hin];
          [done|]. destruct (Hv1 q) as [? ?]; [eauto|congruence].
      * rewrite lookup_insert_ne by done. rewrite lookup_insert.
        case_decide as Hpp; [by intros [= <-]|].
        apply Hret. set_solver.
    + intros k1 k2 p'. rewrite !lookup_insert.
      repeat case_decide; simplify_eq; try done.
      * intros [= <-] Hk2. by destruct (Hold k2 q).
      * intros Hk1 [= <-]. by destruct (Hold k1 q).
      * apply Hinj.
  - done.
  - (* the end of an event *)
    split_and!; [| |done].
    + intros k' p' s' Hk'. rewrite lookup_insert. case_decide as Hpp.
      * intros [= <-]. simpl. subst p'. by apply (Hprim k' p s).
      * by apply (Hprim k').
    + intros p' s' Hin.
      assert (Hin' : p' ∈ retiredSessions t)
        by (destruct (drained e s); set_solver).
      rewrite lookup_insert. case_decide as Hpp.
      * intros [= <-]. simpl. subst p'. by apply (Hret p s).
      * by apply Hret.
  - (* a tick *)
    split_and!.
    + intros k p s [Hk _]%map_lookup_filter_Some. by apply (Hprim k).
    + intros p s [_ Hin]%elem_of_filter. by apply Hret.
    + intros k1 k2 p [Hk1 _]%map_lookup_filter_Some
        [Hk2 _]%map_lookup_filter_Some. by apply (Hinj k1 k2 p).
Qed.

Lemma NewTracker_structured : structured (NewTracker (T:=T)).
Proof.
  unfold structured, NewTracker. simpl. split_and!.
  - intros k p s Hk. by rewrite lookup_empty in Hk.
  - intros p s Hp. set_solver.
  - intros k1 k2 p Hk. by rewrite lookup_empty in Hk.
Qed.

(** *** Dispatched callbacks *)

(** A call makes no session live or retired but a new one. *)
Lemma transition_tracked c (t t' : tracker T) p :
  transition c t t' →
  p ∈ tracked t' → p ∈ tracked t ∨ heap t !! p = None.
Proof.
  intros Htr.
  destruct Htr as [k e now t q Hk Hq|k e now t p0 s Hk Hp Hx
                  |k e now t p0 s q Hk Hp Hx Hq|e now t He
                  |e now t p0 s He Hp|now t];
    rewrite !elem_of_tracked; simpl; try (by left).
  - intros [[k' Hk']|Hin]; [|left; by right].
    rewrite lookup_insert in Hk'. case_decide; simplify_eq; [by right|].
    left. left. eauto.
  - intros [[k' Hk']|Hin].
    + rewrite lookup_insert in Hk'. case_decide; simplify_eq; [by right|].
      left. left. eauto.
    + left. apply elem_of_union in Hin as [->%elem_of_singleton|Hin].
      * left. eauto.
      * by right.
  - intros [?|Hin]; left; [by left|right].
    destruct (drained e s); set_solver.
  - intros [[k Hk%map_lookup_filter_Some]|Hin%elem_of_filter]; left.
    + left. exists k. apply Hk.
    + right. apply Hin.
Qed.

(** A call leaves alone the sessions that are neither live nor retired. *)
Lemma transition_untracked c (t t' : tracker T) p s :
  index_sound t →
  transition c t t' →
  p ∉ tracked t → heap t !! p = Some s → heap t' !! p = Some s.
Proof.
  intros Hs Htr Hn Hp.
  assert (Hprim : ∀ k, sessions t !! k ≠ Some p).
  { intros k Hk. apply Hn, elem_of_tracked. eauto. }
  destruct Htr as [k e now t q Hk Hq|k e now t p0 s0 Hk Hp0 Hx
                  |k e now t p0 s0 q Hk Hp0 Hx Hq|e now t He
                  |e now t p0 s0 He Hp0|now t]; simpl; try done.
  - rewrite lookup_insert_ne; [done|congruence].
  - rewrite lookup_insert_ne; [done|]. intros ->. by apply (Hprim k).
  - rewrite lookup_insert_ne by congruence.
    rewrite lookup_insert_ne; [done|]. intros ->. by apply (Hprim k).
  - rewrite lookup_insert_ne; [done|]. intros ->.
    by destruct (Hs _ _ He) as [? _].
Qed.

Lemma dispatched_extend (t t' : tracker T) new :
  dispatched t →
  endCalls t' = endCalls t ++ new →
  (∀ p, p ∈ tracked t' → p ∈ tracked t ∨ heap t !! p = None) →
  (∀ p s, p ∉ tracked t → heap t !! p = Some s → heap t' !! p = Some s) →
  NoDup (ended <$> new) →
  (∀ c, c ∈ new →
        ended c ∈ tracked t ∧ (ended c ∉ tracked t') ∧
        ∃ s, heap t' !! ended c = Some s ∧ endData c = data s ∧
             endMetadata c = metadata s ∧ events s = ∅) →
  dispatched t'.
Proof.
  intros [Hnd Hold] Hcalls Htr Hheap Hndnew Hnew.
  unfold dispatched. rewrite Hcalls. split.
  - rewrite fmap_app. apply NoDup_app. split_and!; [done| |done].
    intros p (c & -> & Hc)%list_elem_of_fmap
      (c' & Heq & Hc')%list_elem_of_fmap.
    destruct (Hold c Hc) as [Hn _]. destruct (Hnew c' Hc') as [Hin _].
    apply Hn. by rewrite Heq.
  - intros c [Hc|Hc]%elem_of_app.
    + destruct (Hold c Hc) as (Hn & s & Hp & Hd & Hm & He). split.
      * intros Hin. destruct (Htr _ Hin) as [?|?]; [done|congruence].
      * exists s. split_and!; try done. by apply Hheap.
    + destruct (Hnew c Hc) as (_ & ? & ?). done.
Qed.

Lemma elem_of_ended_endCallsOf (h : gmap loc (Session T)) ps p :
  p ∈ ended <$> endCallsOf h ps → p ∈ ps.
Proof.
  intros (c & -> & (_ & q & s & Hq & _ & ->)%elem_of_endCallsOf)
    %list_elem_of_fmap. done.
Qed.

Lemma NoDup_ended_endCallsOf (h : gmap loc (Session T)) ps :
  NoDup ps → NoDup (ended <$> endCallsOf h ps).
Proof.
  induction 1 as [|p ps Hp Hnd IH]; [by destruct onSessionEnd; constructor|].
  change (p :: ps) with ([p] ++ ps). rewrite endCallsOf_app, fmap_app.
  apply NoDup_app. split_and!; [| |done].
  - unfold endCallsOf. destruct onSessionEnd; simpl;
      [|constructor]. destruct (h !! p); simpl; [|constructor].
    apply NoDup_singleton.
  - intros q Hq%elem_of_ended_endCallsOf Hq'%elem_of_ended_endCallsOf.
    apply list_elem_of_singleton in Hq as ->. done.
Qed.

Lemma transition_dispatched c (t t' : tracker T) :
  valid t → index_sound t → structured t → dispatched t →
  transition c t t' → dispatched t'.
Proof.
  intros Hv Hs (Hprim & Hret & Hinj) Hd Htr.
  pose proof Hv as [Hv1 Hv2]%valid_lookups.
  pose proof (λ p, transition_tracked c t t' p Htr) as Htrk.
  pose proof (λ p s, transition_untracked c t t' p s Hs Htr) as Hunt.
  destruct Htr as [k e now t q Hk Hq|k e now t p0 s0 Hk Hp0 Hx
                  |k e now t p0 s0 q Hk Hp0 Hx Hq|e now t He
                  |e now t p0 s0 He Hp0|now t].
  1-4: apply (dispatched_extend t _ []); simpl;
         [done|by rewrite app_nil_r|done|done|constructor
         |by intros ? ?%elem_of_nil].
  - (* the end of an event *)
    destruct (drained e s0 && onSessionEnd) eqn:Hdr.
    2:{ apply (dispatched_extend t _ []); simpl;
          [done|by rewrite app_nil_r|done|done|constructor
          |by intros ? ?%elem_of_nil]. }
    apply andb_true_iff in Hdr as [Hdr Hcb].
    eapply (dispatched_extend t); simpl; [done|reflexivity|done|done| |].
    { apply NoDup_singleton. }
    intros c ->%list_elem_of_singleton. simpl.
    destruct (Hs _ _ He) as [Hin _].
    apply drained_true in Hdr as [Hr Hemp].
    split_and!; [done| |].
    + rewrite elem_of_tracked. simpl. rewrite (proj2 (drained_true e s0))
        by done. intros [[k Hk]|Hin']; [|set_solver].
      pose proof (Hprim _ _ _ Hk Hp0). congruence.
    + eexists. rewrite lookup_insert_eq. split; [done|]. done.
  - (* a tick *)
    eapply (dispatched_extend t); [done| |done|done| |].
    { unfold ticked. simpl. by rewrite <- endCallsOf_app. }
    { apply NoDup_ended_endCallsOf, NoDup_app. split_and!.
      - apply NoDup_filter. apply NoDup_fmap_2_strong; [|apply NoDup_map_to_list].
        intros [k1 p1] [k2 p2] H1%elem_of_map_to_list H2%elem_of_map_to_list.
        simpl. intros <-. f_equal. by apply (Hinj k1 k2 p1).
      - intros p [_ (kp & -> & Hkp)%list_elem_of_fmap]%list_elem_of_filter
          [_ Hin%elem_of_elements]%list_elem_of_filter.
        destruct kp as [k p]. apply elem_of_map_to_list in Hkp. simpl in *.
        destruct (Hv1 p) as [s Hp]; [eauto|].
        pose proof (Hprim _ _ _ Hkp Hp). pose proof (Hret _ _ Hin Hp).
        congruence.
      - apply NoDup_filter, NoDup_elements. }
    intros c (_ & p & s & Hin & Hp & ->)%elem_of_endCallsOf. simpl.
    assert (Hgone : removable now (heap t) p = true ∧ p ∈ tracked t).
    { apply elem_of_app in Hin as [Hin|Hin];
        apply list_elem_of_filter in Hin as [Hg Hin]; (split; [done|]);
        apply elem_of_tracked.
      - apply list_elem_of_fmap in Hin as ([k p'] & -> & Hin).
        apply elem_of_map_to_list in Hin. eauto.
      - apply elem_of_elements in Hin. by right. }
    destruct Hgone as [Hg Htr]. split_and!; [done| |].
    + rewrite elem_of_tracked. unfold ticked. simpl.
      intros [[k [_ Hk]%map_lookup_filter_Some]|[Hk _]%elem_of_filter];
        simpl in *; congruence.
    + exists s. unfold ticked. simpl. split_and!; try done.
      unfold removable in Hg. rewrite Hp in Hg.
      by apply shouldRemove_true in Hg as [? _].
Qed.

Lemma NewTracker_dispatched : dispatched (NewTracker (T:=T)).
Proof.
  unfold dispatched, NewTracker. simpl. split; [constructor|].
  by intros c ?%elem_of_nil.
Qed.

(** *** What a call does to the session objects *)

(** An existing object keeps its payload and its creation time; it is
    retired only by a split; its [Updated] is kept or set to the time of the
    call. *)
Lemma transition_heap c (t t' : tracker T) p s :
  transition c t t' →
  heap t !! p = Some s →
  ∃ s', heap t' !! p = Some s' ∧
        data s' = data s ∧
        Created (metadata s') = Created (metadata s) ∧
        (Updated (metadata s') = Updated (metadata s) ∨
         Updated (metadata s') = time_of c) ∧
        (retired s' = retired s ∨
         retired s' = true ∧ expired (time_of c) s = true).
Proof.
  intros Htr Hp.
  destruct Htr as [k e now t q Hk Hq|k e now t p0 s0 Hk Hp0 Hx
                  |k e now t p0 s0 q Hk Hp0 Hx Hq|e now t He
                  |e now t p0 s0 He Hp0|now t]; simpl.
  - exists s. rewrite lookup_insert_ne by congruence. eauto 10.
  - destruct (decide (p0 = p)) as [->|Hne].
    + assert (s0 = s) as -> by congruence.
      eexists. rewrite lookup_insert_eq. split; [done|]. simpl. eauto 10.
    + exists s. rewrite lookup_insert_ne by done. eauto 10.
  - rewrite lookup_insert_ne by congruence.
    destruct (decide (p0 = p)) as [->|Hne].
    + assert (s0 = s) as -> by congruence.
      eexists. rewrite lookup_insert_eq. split; [done|]. simpl. eauto 10.
    + exists s. rewrite lookup_insert_ne by done. eauto 10.
  - exists s. eauto 10.
  - destruct (decide (p0 = p)) as [->|Hne].
    + assert (s0 = s) as -> by congruence.
      eexists. rewrite lookup_insert_eq. split; [done|]. simpl. eauto 10.
    + exists s. rewrite lookup_insert_ne by done. eauto 10.
  - exists s. eauto 10.
Qed.

(** A new object comes from an [EventStart]: the payload is the
    initializer's for the key, the event of the call is its only open
    event, it is created and updated at the time of the call, it is the
    primary session of the key, and the initializer was called once. *)
Lemma transition_fresh c (t t' : tracker T) p s' :
  transition c t t' →
  heap t' !! p = Some s' →
  heap t !! p = None →
  ∃ k e, c = Start k e (time_of c) ∧
         s' = mkSession (sessionInitFunc k) {[e]} false
                (mkSessionMetadata (time_of c) (time_of c)) ∧
         sessions t' !! k = Some p ∧
         initCalls t' = initCalls t ++ [k] ∧
         dom (heap t') = {[p]} ∪ dom (heap t).
Proof.
  intros Htr.
  destruct Htr as [k e now t q Hk Hq|k e now t p0 s0 Hk Hp0 Hx
                  |k e now t p0 s0 q Hk Hp0 Hx Hq|e now t He
                  |e now t p0 s0 He Hp0|now t]; simpl;
    try (intros; congruence).
  - rewrite lookup_insert. case_decide as Hqp; [|intros; congruence].
    intros [= <-] _. subst p. exists k, e.
    rewrite lookup_insert_eq, dom_insert_L. done.
  - rewrite lookup_insert. case_decide as Hpp; [|intros; congruence].
    intros _ ?. congruence.
  - rewrite lookup_insert. case_decide as Hqp.
    + intros [= <-] _. subst p. exists k, e.
      rewrite lookup_insert_eq, !dom_insert_L.
      split_and!; try done.
      assert (p0 ∈ dom (heap t)) by (apply elem_of_dom; eauto). set_solver.
    + rewrite lookup_insert. case_decide; intros; congruence.
  - rewrite lookup_insert. case_decide as Hpp; [|intros; congruence].
    intros _ ?. congruence.
Qed.


(** *** Runs from a new tracker *)

Lemma run_NewTracker cs :
  ∃ t : tracker T,
    run cs NewTracker = Some (tt, t) ∧
    valid t ∧ index_sound t ∧ structured t ∧ dispatched t.
Proof.
  destruct (NewTracker_inv (T:=T)) as [Hv [Hs _]].
  destruct (run_inv sessionInitFunc inactivityTimeout maxSessionTimeout
              onSessionEnd cs _ Hv Hs) as (t & Hrun & Hv' & Hs' & _).
  exists t. split_and!; try done.
  - apply (run_invariant structured) with (cs := cs) (t := NewTracker);
      [|done|done|apply NewTracker_structured|done].
    intros c t1 t2 Hv1 _ Hst Htr. by apply (transition_structured c t1).
  - apply (run_invariant (λ t, structured t ∧ dispatched t))
      with (cs := cs) (t := NewTracker);
      [|done|done| |done].
    + intros c t1 t2 Hv1 Hs1 [Hst Hd] Htr. split.
      * by apply (transition_structured c t1).
      * by apply (transition_dispatched c t1).
    + split; [apply NewTracker_structured|apply NewTracker_dispatched].
Qed.

(** Whatever sequence of [EventStart], [EventEnd] and ticks a new tracker
    gets, with whatever keys, event identifiers and times, no call
    dereferences a nil pointer, and the three index structures only hold
    pointers to session objects. *)
Theorem run_total cs :
  ∃ t : tracker T,
    run cs NewTracker = Some (tt, t) ∧
    (∀ k p, sessions t !! k = Some p → is_Some (heap t !! p)) ∧
    (∀ e p, eventToSession t !! e = Some p → is_Some (heap t !! p)) ∧
    (∀ p, p ∈ retiredSessions t → is_Some (heap t !! p)).
Proof.
  destruct (run_NewTracker cs) as (t & Hrun & [Hv1 Hv2]%valid_lookups & _).
  exists t. split_and!; eauto.
Qed.

(** In every state a new tracker reaches, a primary session is not marked
    retired, every session of the retired set is, no session is at once
    primary and in the retired set, and no session is the primary one of
    two keys. *)
Theorem run_structured cs :
  ∃ t : tracker T,
    run cs NewTracker = Some (tt, t) ∧
    (∀ k p s, sessions t !! k = Some p → heap t !! p = Some s →
              retired s = false) ∧
    (∀ p s, p ∈ retiredSessions t → heap t !! p = Some s →
            retired s = true) ∧
    (∀ k p, sessions t !! k = Some p → p ∉ retiredSessions t) ∧
    (∀ k1 k2 p, sessions t !! k1 = Some p → sessions t !! k2 = Some p →
                k1 = k2).
Proof.
  destruct (run_NewTracker cs)
    as (t & Hrun & [Hv1 Hv2]%valid_lookups & _ & (Hprim & Hret & Hinj) & _).
  exists t. split_and!; try done.
  intros k p Hk Hin. destruct (Hv1 p) as [s Hp]; [eauto|].
  pose proof (Hprim _ _ _ Hk Hp). pose proof (Hret _ _ Hin Hp). congruence.
Qed.

(** *** Handles *)

Lemma Data_eq p (t : tracker T) s :
  heap t !! p = Some s → Data p t = Some (data s, t).
Proof. intros Hp. unfold Data, bind, deref, ret. by rewrite Hp. Qed.

(** A handle keeps its payload: whatever calls and ticks follow, also after
    the session was retired or evicted, [Data()] returns the payload it
    returned before; the creation time of the session does not change
    either, and a retired session is never un-retired. *)
Theorem Data_stable cs (t0 t : tracker T) p s :
  valid t0 → index_sound t0 →
  run cs t0 = Some (tt, t) →
  heap t0 !! p = Some s →
  Data p t0 = Some (data s, t0) ∧
  Data p t = Some (data s, t) ∧
  ∃ s', heap t !! p = Some s' ∧
        data s' = data s ∧
        Created (metadata s') = Created (metadata s) ∧
        (retired s = true → retired s' = true).
Proof.
  intros Hv Hs Hrun Hp. split; [by apply Data_eq|].
  assert (Hinv : ∃ s', heap t !! p = Some s' ∧ data s' = data s ∧
                       Created (metadata s') = Created (metadata s) ∧
                       (retired s = true → retired s' = true)).
  { apply (run_invariant
             (λ t, ∃ s', heap t !! p = Some s' ∧ data s' = data s ∧
                         Created (metadata s') = Created (metadata s) ∧
                         (retired s = true → retired s' = true)))
      with (cs := cs) (t := t0); [|done|done|by exists s|done].
    intros c t1 t2 _ _ (s1 & Hp1 & Hd1 & Hc1 & Hr1) Htr.
    destruct (transition_heap c t1 t2 p s1 Htr Hp1)
      as (s2 & Hp2 & Hd2 & Hc2 & _ & Hr2).
    exists s2. split_and!; [done|congruence|congruence|].
    intros Hr. specialize (Hr1 Hr). destruct Hr2 as [?|[? _]]; congruence. }
  destruct Hinv as (s' & Hp' & Hd' & ?). split; [|by exists s'].
  rewrite (Data_eq _ _ _ Hp'). by rewrite Hd'.
Qed.

(** *** Without a maximum session lifetime *)

Lemma run_no_max cs :
  maxSessionTimeout = None →
  ∃ t : tracker T,
    run cs NewTracker = Some (tt, t) ∧
    retiredSessions t = ∅ ∧
    ∀ p s, heap t !! p = Some s → retired s = false.
Proof.
  intros Hmax. destruct (run_NewTracker cs) as (t & Hrun & _).
  exists t. split; [done|].
  destruct (NewTracker_inv (T:=T)) as [Hv [Hs _]].
  apply (run_invariant
           (λ t, retiredSessions t = ∅ ∧
                 ∀ p s, heap t !! p = Some s → retired s = false))
    with (cs := cs) (t := NewTracker); [|done|done| |done].
  - intros c t1 t2 _ _ [Hr Hf] Htr.
    assert (Hx : ∀ now s, expired now s = false).
    { intros now s. unfold expired. by rewrite Hmax. }
    split.
    + destruct Htr as [k e now t1 q Hk Hq|k e now t1 p0 s0 Hk Hp0 Hx0
                      |k e now t1 p0 s0 q Hk Hp0 Hx0 Hq|e now t1 He
                      |e now t1 p0 s0 He Hp0|now t1]; simpl; try done.
      * rewrite Hx in Hx0. done.
      * rewrite Hr. by destruct (drained e s0); set_solver.
      * rewrite Hr. set_solver.
    + intros p s' Hp'. destruct (heap t1 !! p) as [s|] eqn:Hp.
      * destruct (transition_heap c t1 t2 p s Htr Hp)
          as (s2 & Hp2 & _ & _ & _ & Hr2).
        assert (s2 = s') as -> by congruence.
        destruct Hr2 as [->|[_ Hx2]]; [by apply (Hf p)|].
        rewrite Hx in Hx2. done.
      * destruct (transition_fresh c t1 t2 p s' Htr Hp' Hp)
          as (k & e & _ & -> & _). done.
  - split; [done|]. intros p s Hp. unfold NewTracker in Hp. simpl in Hp.
    by rewrite lookup_empty in Hp.
Qed.

(** *** [EventStart], whatever branch it takes *)

Lemma step_Start k e now (t t' : tracker T) p :
  EventStart k e now t = Some (p, t') →
  step (Start k e now) t = Some (tt, t').
Proof. intros Hrun. unfold step, bind. by rewrite Hrun. Qed.

Lemma EventStart_returns k e now (t : tracker T) :
  valid t → index_sound t →
  ∃ p t' s,
    EventStart k e now t = Some (p, t') ∧
    sessions t' !! k = Some p ∧
    (∀ k', k' ≠ k → sessions t' !! k' = sessions t !! k') ∧
    eventToSession t' = <[e := p]> (eventToSession t) ∧
    heap t' !! p = Some s ∧
    e ∈ events s ∧
    Updated (metadata s) = now ∧
    endCalls t' = endCalls t ∧
    retiredSessions t ⊆ retiredSessions t' ∧
    valid t' ∧ index_sound t'.
Proof.
  intros Hv Hs.
  destruct (EventStart_inv sessionInitFunc maxSessionTimeout k e now t Hv Hs)
    as (p & t' & Hrun & Hv' & Hs' & _ & Hidx).
  destruct (EventStart_Some _ _ _ _ _ _ _ _ Hrun)
    as (Hk & (s & Hp & He & Hu & _) & _).
  assert (Hframe : (∀ k', k' ≠ k → sessions t' !! k' = sessions t !! k') ∧
                   endCalls t' = endCalls t ∧
                   retiredSessions t ⊆ retiredSessions t').
  { pose proof Hv as [Hv1 _]%valid_lookups.
    destruct (sessions t !! k) as [p0|] eqn:Hk0.
    - assert (is_Some (heap t !! p0)) as [s0 Hp0] by (apply Hv1; eauto).
      destruct (expired now s0) eqn:Hx.
      + rewrite (EventStart_split _ _ _ _ _ _ _ _ Hk0 Hp0 Hx) in Hrun.
        simpl in Hrun. injection Hrun as <- <-. simpl.
        split_and!; [|done|set_solver].
        intros k' Hne. by rewrite lookup_insert_ne.
      + rewrite (EventStart_reuse _ _ _ _ _ _ _ _ Hk0 Hp0 Hx) in Hrun.
        injection Hrun as <- <-. done.
    - rewrite (EventStart_new _ _ _ _ _ _ Hk0) in Hrun. simpl in Hrun.
      injection Hrun as <- <-. simpl. split_and!; [|done|done].
      intros k' Hne. by rewrite lookup_insert_ne. }
  destruct Hframe as (? & ? & ?).
  exists p, t', s. split_and!; done.
Qed.

(** *** An event started and ended at once *)

Lemma transition_index c (t t' : tracker T) e :
  transition c t t' → ¬ mentions e c →
  eventToSession t' !! e = eventToSession t !! e.
Proof.
  intros Htr Hm.
  destruct Htr; simpl in *; try done;
    by rewrite ?lookup_insert_ne, ?lookup_delete_ne by done.
Qed.

(** An [EventStart] followed at once by the [EventEnd] of the same event,
    in a state a new tracker reaches: both succeed, the session stays the
    primary one of its key (the end of its last event evicts nothing),
    no callback is dispatched and the retired set is not touched by the
    [EventEnd]. *)
Theorem start_end_keeps_primary cs k e now now' :
  ∃ (t : tracker T) p t1 t2,
    run cs NewTracker = Some (tt, t) ∧
    EventStart k e now t = Some (p, t1) ∧
    EventEnd e now' t1 = Some (nil, t2) ∧
    sessions t2 !! k = Some p ∧
    endCalls t2 = endCalls t ∧
    retiredSessions t2 = retiredSessions t1 ∧
    eventToSession t2 = delete e (eventToSession t).
Proof.
  destruct (run_NewTracker cs) as (t & Hrun & Hv & Hs & Hst & _).
  destruct (EventStart_returns k e now t Hv Hs)
    as (p & t1 & s & Hstart & Hk & _ & Hidx & Hp & He & _ & Hcalls & _).
  destruct (step_transition (Start k e now) t Hv) as (t1' & Hstep & Htr).
  rewrite (step_Start _ _ _ _ _ _ Hstart) in Hstep. injection Hstep as <-.
  destruct (transition_structured _ _ _ Hv Hst Htr) as (Hprim & _).
  assert (Hi : eventToSession t1 !! e = Some p)
    by (by rewrite Hidx, lookup_insert_eq).
  assert (Hdr : drained e s = false).
  { unfold drained. rewrite (Hprim _ _ _ Hk Hp). apply andb_false_r. }
  exists t, p, t1. eexists. split; [done|]. split; [done|].
  rewrite (EventEnd_known _ _ _ _ _ _ Hi Hp). rewrite Hdr. simpl.
  split_and!; try done.
  rewrite Hidx. apply delete_insert_eq.
Qed.

(** *** Timestamps *)

Lemma transition_clock c (t t' : tracker T) lo :
  (∀ p s, heap t !! p = Some s →
          Created (metadata s) ≤ Updated (metadata s) ∧
          Updated (metadata s) ≤ lo) →
  lo ≤ time_of c →
  transition c t t' →
  ∀ p s, heap t' !! p = Some s →
         Created (metadata s) ≤ Updated (metadata s) ∧
         Updated (metadata s) ≤ time_of c.
Proof.
  intros Hinv Hlo Htr p s' Hp'. destruct (heap t !! p) as [s|] eqn:Hp.
  - destruct (transition_heap c t t' p s Htr Hp)
      as (s2 & Hp2 & _ & Hc & Hu & _).
    assert (s2 = s') as -> by congruence.
    destruct (Hinv _ _ Hp) as [? ?]. destruct Hu as [Hu|Hu]; lia.
  - destruct (transition_fresh c t t' p s' Htr Hp' Hp)
      as (k & e & _ & -> & _). simpl. lia.
Qed.

Lemma run_clock cs : ∀ lo (t t' : tracker T),
  valid t → index_sound t →
  (∀ p s, heap t !! p = Some s →
          Created (metadata s) ≤ Updated (metadata s) ∧
          Updated (metadata s) ≤ lo) →
  clock_ok lo cs →
  run cs t = Some (tt, t') →
  ∀ p s, heap t' !! p = Some s →
         Created (metadata s) ≤ Updated (metadata s).
Proof.
  induction cs as [|c cs IH]; intros lo t t' Hv Hs Hinv Hclk Hrun.
  - unfold run in Hrun. simpl in Hrun. injection Hrun as <-.
    intros p s Hp. by destruct (Hinv p s Hp).
  - destruct Hclk as [Hlo Hclk].
    destruct (step_transition c t Hv) as (t1 & Hst & Htr).
    destruct (step_inv sessionInitFunc inactivityTimeout maxSessionTimeout
                onSessionEnd c t Hv Hs) as (t1' & Hst' & Hv1 & Hs1 & _).
    assert (t1' = t1) as -> by congruence.
    unfold run in Hrun. simpl in Hrun. unfold bind at 1 in Hrun.
    rewrite Hst in Hrun.
    apply (IH (time_of c) t1 t'); try done.
    by apply (transition_clock c t t1 lo).
Qed.

(** When the clock does not go back between the calls, every session a new
    tracker holds has [Created <= Updated], and so has the metadata of
    every callback that was dispatched. *)
Theorem timestamps_ordered lo cs :
  clock_ok lo cs →
  ∃ t : tracker T,
    run cs NewTracker = Some (tt, t) ∧
    (∀ p s, heap t !! p = Some s →
            Created (metadata s) ≤ Updated (metadata s)) ∧
    (∀ c, c ∈ endCalls t →
          Created (endMetadata c) ≤ Updated (endMetadata c)).
Proof.
  intros Hclk.
  destruct (run_NewTracker cs) as (t & Hrun & _ & _ & _ & [_ Hd]).
  destruct (NewTracker_inv (T:=T)) as [Hv [Hs _]].
  assert (Hheap : ∀ p s, heap t !! p = Some s →
                         Created (metadata s) ≤ Updated (metadata s)).
  { by apply (run_clock cs lo NewTracker t). }
  exists t. split_and!; try done.
  intros c Hc. destruct (Hd c Hc) as (_ & s & Hp & _ & -> & _).
  by apply (Hheap (ended c)).
Qed.

(** *** The initializer *)



End MoreProperties.

(** ** The goroutines, step by step *)

Section CriticalSections.
Set Default Proof Using "Type".
Context {T : Type}.
Variable onSessionEnd : bool.

Local Abbreviation effect := (effect (T:=T) onSessionEnd).

(** *** The critical sections in closed form *)

Lemma EventEnd_session_eq e p now (t : tracker T) s :
  heap t !! p = Some s →
  EventEnd_session e p now t =
    Some (drained e s,
          mkTracker (<[p := ended_session e now s]> (heap t)) (sessions t)
            (eventToSession t) (retiredSessions t) (initCalls t)
            (endCalls t)).
Proof.
  intros Hp. unfold EventEnd_session, bind, update, deref, ret. simpl.
  rewrite Hp. simpl. rewrite lookup_insert_eq. simpl.
  rewrite lookup_insert_eq. simpl. rewrite insert_insert_eq. reflexivity.
Qed.

Lemma EventEnd_retire_eq p (t : tracker T) s :
  heap t !! p = Some s →
  EventEnd_retire onSessionEnd p t =
    Some (tt, mkTracker (heap t) (sessions t) (eventToSession t)
                (retiredSessions t ∖ {[p]}) (initCalls t)
                (if onSessionEnd
                 then endCalls t ++ [mkEndCall p (data s) (metadata s)]
                 else endCalls t)).
Proof.
  intros Hp. unfold EventEnd_retire, bind. simpl.
  destruct onSessionEnd; [|reflexivity].
  unfold goOnSessionEnd, bind, deref. simpl. rewrite Hp. reflexivity.
Qed.

Lemma janitorRetire_eq p (t : tracker T) s :
  heap t !! p = Some s →
  janitorRetire onSessionEnd p t =
    Some (tt, mkTracker (heap t) (sessions t) (eventToSession t)
                (retiredSessions t ∖ {[p]}) (initCalls t)
                (if onSessionEnd
                 then endCalls t ++ [mkEndCall p (data s) (metadata s)]
                 else endCalls t)).
Proof.
  intros Hp. unfold janitorRetire, bind. simpl.
  destruct onSessionEnd; [|reflexivity].
  unfold goOnSessionEnd, bind, deref. simpl. rewrite Hp. reflexivity.
Qed.

(** *** What a critical section does to the store *)

Lemma effect_heap l (t t' : tracker T) p s :
  effect l t t' →
  heap t !! p = Some s →
  ∃ s', heap t' !! p = Some s' ∧
        data s' = data s ∧
        Created (metadata s') = Created (metadata s) ∧
        retired s' = retired s ∧
        (∀ e, l ≠ Some e → e ∈ events s → e ∈ events s').
Proof.
  intros Hef Hp.
  destruct Hef as [t|e0 now p0 s0 t Hp0|e0 t|p0 s0 t Hp0 Hr|k p0 s0 t Hk Hp0];
    simpl; try (exists s; by split_and!).
  destruct (decide (p0 = p)) as [->|Hne].
  - assert (s0 = s) as -> by congruence.
    eexists. rewrite lookup_insert_eq. split; [done|]. simpl.
    split_and!; try done. intros e Hne He. set_solver.
  - exists s. rewrite lookup_insert_ne by done. by split_and!.
Qed.

Lemma effect_dom l (t t' : tracker T) :
  effect l t t' → dom (heap t') = dom (heap t).
Proof.
  destruct 1; simpl; try done. apply dom_insert_lookup_L. eauto.
Qed.

Lemma effect_index l (t t' : tracker T) e :
  effect l t t' →
  (∀ p, eventToSession t' !! e = Some p → eventToSession t !! e = Some p) ∧
  (l ≠ Some e → eventToSession t' !! e = eventToSession t !! e).
Proof.
  destruct 1 as [t|e0 now p0 s0 t Hp0|e0 t|p0 s0 t Hp0 Hr|k p0 s0 t Hk Hp0];
    simpl; try done.
  split.
  - intros p. rewrite lookup_delete_Some. by intros [_ ?].
  - intros Hne. rewrite lookup_delete_ne; [done|congruence].
Qed.

Lemma effect_tracked l (t t' : tracker T) p :
  effect l t t' → p ∈ tracked t' → p ∈ tracked t.
Proof.
  destruct 1 as [t|e0 now p0 s0 t Hp0|e0 t|p0 s0 t Hp0 Hr|k p0 s0 t Hk Hp0];
    rewrite !elem_of_tracked; simpl; try done.
  - intros [?|Hin]; [by left|right]. set_solver.
  - intros [[k' Hk']|?]; [left|by right].
    apply lookup_delete_Some in Hk' as [_ ?]. eauto.
Qed.

Lemma effect_valid l (t t' : tracker T) :
  valid t → effect l t t' → valid t'.
Proof.
  intros Hv Hef. pose proof (effect_dom _ _ _ Hef) as Hdom.
  destruct Hv as [Hv1 Hv2]. split.
  - rewrite Hdom. intros p Hp. apply Hv1. by apply (effect_tracked l t t').
  - rewrite Hdom. intros e p He. apply (Hv2 e).
    by apply (effect_index l t t' e Hef).
Qed.

Lemma effect_structured l (t t' : tracker T) :
  structured t → effect l t t' → structured t'.
Proof.
  intros (Hprim & Hret & Hinj) Hef.
  destruct Hef as [t|e0 now p0 s0 t Hp0|e0 t|p0 s0 t Hp0 Hr|k p0 s0 t Hk Hp0];
    unfold structured; simpl; try done.
  - split_and!; [| |done].
    + intros k p s Hk. rewrite lookup_insert. case_decide as Hpp.
      * intros [= <-]. simpl. subst p. by apply (Hprim k p0).
      * by apply (Hprim k).
    + intros p s Hin. rewrite lookup_insert. case_decide as Hpp.
      * intros [= <-]. simpl. subst p. by apply (Hret p0).
      * by apply Hret.
  - split_and!; [done| |done].
    intros p s Hin. apply Hret. set_solver.
  - split_and!; [| done|].
    + intros k' p s [_ Hk']%lookup_delete_Some. by apply (Hprim k').
    + intros k1 k2 p [_ Hk1]%lookup_delete_Some [_ Hk2]%lookup_delete_Some.
      by apply (Hinj k1 k2 p).
Qed.

(** A critical section dispatches at most one callback, for a session that
    is then neither primary nor retired, with the payload and the metadata
    of that session. *)
Lemma effect_calls l (t t' : tracker T) :
  valid t → structured t → effect l t t' →
  ∃ new, endCalls t' = endCalls t ++ new ∧ (length new ≤ 1)%nat ∧
         ∀ c, c ∈ new →
              (ended c ∉ tracked t') ∧
              ∃ s, heap t' !! ended c = Some s ∧ endData c = data s ∧
                   endMetadata c = metadata s.
Proof.
  intros Hv (Hprim & Hret & Hinj) Hef.
  destruct Hef as [t|e0 now p0 s0 t Hp0|e0 t|p0 s0 t Hp0 Hr|k p0 s0 t Hk Hp0];
    simpl.
  1-3: exists []; rewrite app_nil_r; split_and!; [done|simpl; lia|];
       by intros c ?%elem_of_nil.
  - destruct onSessionEnd.
    2:{ exists []. rewrite app_nil_r. split_and!; [done|simpl; lia|].
        by intros c ?%elem_of_nil. }
    eexists. split; [reflexivity|]. split; [simpl; lia|].
    intros c ->%list_elem_of_singleton. simpl. split; [|eauto].
    rewrite elem_of_tracked. simpl. intros [[k Hk]|Hin]; [|set_solver].
    pose proof (Hprim _ _ _ Hk Hp0). congruence.
  - destruct onSessionEnd.
    2:{ exists []. rewrite app_nil_r. split_and!; [done|simpl; lia|].
        by intros c ?%elem_of_nil. }
    eexists. split; [reflexivity|]. split; [simpl; lia|].
    intros c ->%list_elem_of_singleton. simpl. split; [|eauto].
    rewrite elem_of_tracked. simpl. intros [[k' Hk']|Hin].
    + apply lookup_delete_Some in Hk' as [Hne Hk'].
      apply Hne. by apply (Hinj k k' p0).
    + pose proof (Hprim _ _ _ Hk Hp0). pose proof (Hret _ _ Hin Hp0).
      congruence.
Qed.

(** The objects stay, and so do their retired marks. *)
Lemma effect_le l (t t' : tracker T) p s :
  effect l t t' → heap t !! p = Some s →
  ∃ s', heap t' !! p = Some s' ∧ (retired s = true → retired s' = true).
Proof.
  intros Hef Hp. destruct (effect_heap l t t' p s Hef Hp)
    as (s' & Hp' & _ & _ & Hr & _).
  exists s'. split; [done|]. congruence.
Qed.

Lemma marked_le (h h' : gmap loc (Session T)) p :
  (∀ p s, h !! p = Some s →
          ∃ s', h' !! p = Some s' ∧ (retired s = true → retired s' = true)) →
  marked h p → marked h' p.
Proof.
  intros Hle (s & Hp & Hr). destruct (Hle p s Hp) as (s' & Hp' & Hr').
  exists s'. auto.
Qed.

Lemma dom_le (h h' : gmap loc (Session T)) p :
  (∀ p s, h !! p = Some s →
          ∃ s', h' !! p = Some s' ∧ (retired s = true → retired s' = true)) →
  p ∈ dom h → p ∈ dom h'.
Proof.
  intros Hle [s Hp]%elem_of_dom. destruct (Hle p s Hp) as (s' & Hp' & _).
  apply elem_of_dom. eauto.
Qed.

Lemma ending_ok_le (h h' : gmap loc (Session T)) c :
  (∀ p s, h !! p = Some s →
          ∃ s', h' !! p = Some s' ∧ (retired s = true → retired s' = true)) →
  ending_ok h c → ending_ok h' c.
Proof.
  intros Hle. destruct c as [e p|e p b|p]; simpl.
  - by apply dom_le.
  - intros [Hd Hm]. split; [by apply (dom_le h)|].
    intros Hb. by apply (marked_le h), Hm.
  - by apply marked_le.
Qed.

Lemma janitor_ok_le (h h' : gmap loc (Session T)) j :
  (∀ p s, h !! p = Some s →
          ∃ s', h' !! p = Some s' ∧ (retired s = true → retired s' = true)) →
  janitor_ok h j → janitor_ok h' j.
Proof.
  intros Hle. destruct j; simpl; try done;
    intros Hall; (eapply Forall_impl; [exact Hall|]); intros p;
    by (apply dom_le || apply marked_le).
Qed.

End CriticalSections.

Section Interleavings.
Set Default Proof Using "Type".
Context {T : Type}.
Variable sessionInitFunc : string → T.
Variable inactivityTimeout : Duration.
Variable maxSessionTimeout : option Duration.
Variable onSessionEnd : bool.

Local Abbreviation EventStart :=
  (EventStart sessionInitFunc maxSessionTimeout).
Local Abbreviation EventEnd := (EventEnd (T:=T) onSessionEnd).
Local Abbreviation shouldRemove :=
  (shouldRemove (T:=T) inactivityTimeout maxSessionTimeout).
Local Abbreviation janitorTick :=
  (janitorTick (T:=T) inactivityTimeout maxSessionTimeout onSessionEnd).
Local Abbreviation janitorActive :=
  (janitorActive (T:=T) inactivityTimeout maxSessionTimeout onSessionEnd).
Local Abbreviation janitorRetired :=
  (janitorRetired (T:=T) inactivityTimeout maxSessionTimeout onSessionEnd).
Local Abbreviation janitorStep :=
  (janitorStep (T:=T) inactivityTimeout maxSessionTimeout onSessionEnd).
Local Abbreviation endingStep := (endingStep (T:=T) onSessionEnd).
Local Abbreviation act :=
  (act sessionInitFunc inactivityTimeout maxSessionTimeout onSessionEnd).
Local Abbreviation schedule :=
  (schedule sessionInitFunc inactivityTimeout maxSessionTimeout onSessionEnd).
Local Abbreviation transition :=
  (transition sessionInitFunc inactivityTimeout maxSessionTimeout
     onSessionEnd).
Local Abbreviation effect := (effect (T:=T) onSessionEnd).
Local Abbreviation world := (world (T:=T)).
Local Abbreviation inflight := (inflight (T:=T)).

Lemma transition_le c (t t' : tracker T) p s :
  transition c t t' → heap t !! p = Some s →
  ∃ s', heap t' !! p = Some s' ∧ (retired s = true → retired s' = true).
Proof.
  intros Htr Hp.
  destruct (transition_heap _ _ _ _ c t t' p s Htr Hp)
    as (s' & Hp' & _ & _ & _ & Hr).
  exists s'. split; [done|]. destruct Hr as [->|[-> _]]; done.
Qed.

(** *** What a call of [EventStart] does to the store *)

Lemma transition_valid c (t t' : tracker T) :
  valid t → transition c t t' → valid t'.
Proof.
  intros [Hv1 Hv2]%valid_lookups Htr. apply valid_lookups.
  destruct Htr as [k e now t q Hk Hq|k e now t p0 s0 Hk Hp0 Hx
                  |k e now t p0 s0 q Hk Hp0 Hx Hq|e now t He
                  |e now t p0 s0 He Hp0|now t]; simpl; try done.
  - split.
    + intros p Hor. apply lookup_insert_is_Some'.
      destruct Hor as [[k0 Hk0]|Hr]; [|right; apply Hv1; eauto].
      rewrite lookup_insert in Hk0. case_decide; simplify_eq; [by left|].
      right. apply Hv1. eauto.
    + intros e0 p He0. apply lookup_insert_is_Some'.
      rewrite lookup_insert in He0. case_decide; simplify_eq; [by left|].
      right. eauto.
  - split.
    + intros p Hor. apply lookup_insert_is_Some'. right. by apply Hv1.
    + intros e0 p He0. apply lookup_insert_is_Some'.
      rewrite lookup_insert in He0. case_decide; simplify_eq; [by left|].
      right. eauto.
  - split.
    + intros p Hor. rewrite !lookup_insert_is_Some'.
      destruct Hor as [[k0 Hk0]|Hr].
      * rewrite lookup_insert in Hk0. case_decide; simplify_eq; [by left|].
        right. right. apply Hv1. eauto.
      * apply elem_of_union in Hr as [->%elem_of_singleton|Hr];
          [right; by left|]. right. right. apply Hv1. by right.
    + intros e0 p He0. rewrite !lookup_insert_is_Some'.
      rewrite lookup_insert in He0. case_decide; simplify_eq; [by left|].
      right. right. eauto.
  - split.
    + intros p Hor. apply lookup_insert_is_Some'. right. apply Hv1.
      destruct Hor as [?|Hr]; [by left|right].
      destruct (drained e s0); set_solver.
    + intros e0 p [_ He0]%lookup_delete_Some.
      apply lookup_insert_is_Some'. right. eauto.
  - split; [|done].
    intros p [[k [Hk _]%map_lookup_filter_Some]|[_ Hr]%elem_of_filter];
      apply Hv1; eauto.
Qed.


Lemma transition_open c (t t' : tracker T) e p :
  transition c t t' → ¬ mentions e c →
  e ∈ openEvents (heap t) p → e ∈ openEvents (heap t') p.
Proof.
  intros Htr Hm (s & Hp & He)%openEvents_elem.
  destruct Htr as [k e0 now t q Hk Hq|k e0 now t p0 s0 Hk Hp0 Hx
                  |k e0 now t p0 s0 q Hk Hp0 Hx Hq|e0 now t He0
                  |e0 now t p0 s0 He0 Hp0|now t]; simpl in *.
  - rewrite openEvents_insert. case_decide; [congruence|].
    by rewrite (openEvents_Some _ _ _ Hp).
  - rewrite openEvents_insert. case_decide; simplify_eq; simpl.
    + set_solver.
    + by rewrite (openEvents_Some _ _ _ Hp).
  - rewrite !openEvents_insert. case_decide; [congruence|].
    case_decide; simplify_eq; simpl.
    + set_solver.
    + by rewrite (openEvents_Some _ _ _ Hp).
  - by rewrite (openEvents_Some _ _ _ Hp).
  - rewrite openEvents_insert. case_decide; simplify_eq; simpl.
    + set_solver.
    + by rewrite (openEvents_Some _ _ _ Hp).
  - by rewrite (openEvents_Some _ _ _ Hp).
Qed.

(** *** One step of a goroutine *)

Lemma endingStep_spec now c (t : tracker T) :
  ending_ok (heap t) c →
  ∃ r t',
    endingStep now c t = Some (r, t') ∧
    effect (ending_event c) t t' ∧
    ∀ c', r = Some c' →
          ending_ok (heap t') c' ∧
          (ending_event c' = None ∨ ending_event c' = ending_event c).
Proof.
  destruct c as [e p|e p b|p]; simpl.
  - intros [s Hp]%elem_of_dom. unfold bind.
    rewrite (EventEnd_session_eq _ _ _ _ _ Hp). simpl.
    eexists _, _. split; [reflexivity|]. split; [by apply effect_session|].
    intros c' [= <-]. simpl. split; [|by right]. split.
    + apply elem_of_dom. rewrite lookup_insert_eq. eauto.
    + intros [Hr _]%drained_true. eexists. rewrite lookup_insert_eq.
      split; [done|]. done.
  - intros [Hd Hm]. unfold bind, EventEnd_unindex, set_eventToSession, modify.
    simpl. eexists _, _. split; [reflexivity|].
    split; [apply effect_unindex|].
    intros c'. destruct b; [|done]. intros [= <-]. simpl.
    split; [by apply Hm|by left].
  - intros (s & Hp & Hr). unfold bind.
    rewrite (EventEnd_retire_eq _ _ _ _ Hp). simpl.
    eexists _, _. split; [reflexivity|]. split; [by apply effect_retire|].
    done.
Qed.

Lemma janitorStep_spec tick i j (t : tracker T) :
  valid t → structured t → janitor_ok (heap t) j →
  ∃ j' t',
    janitorStep tick i j t = Some (j', t') ∧
    effect None t t' ∧
    janitor_ok (heap t) j'.
Proof.
  intros [Hv1 Hv2]%valid_lookups (Hprim & Hret & Hinj) Hj.
  destruct j as [|now l|now k p l|now l|now p l].
  - eexists _, _. split; [reflexivity|]. split; [apply effect_none|].
    simpl. apply Forall_forall. intros p ([k p'] & -> & Hin)%list_elem_of_fmap.
    apply elem_of_map_to_list in Hin. apply elem_of_dom. apply Hv1. eauto.
  - destruct l as [|kp l].
    { eexists _, _. split; [reflexivity|]. split; [apply effect_none|].
      simpl. apply Forall_forall. intros p Hin%elem_of_elements.
      destruct (Hv1 p) as [s Hp]; [by right|]. exists s. split; [done|].
      by apply (Hret p). }
    cbn [janitorStep]. simpl in Hj.
    destruct ((kp :: l) !! i) as [[k p]|] eqn:Hi.
    2:{ eexists _, _. split; [reflexivity|]. split; [apply effect_none|].
        done. }
    assert (Hrest : Forall (λ p, p ∈ dom (heap t)) (delete i (kp :: l)).*2).
    { rewrite list_fmap_delete. by apply Forall_delete. }
    assert (is_Some (heap t !! p)) as [s Hp].
    { apply elem_of_dom. rewrite Forall_forall in Hj. apply Hj.
      change (p ∈ (kp :: l).*2). apply list_elem_of_fmap. exists (k, p).
      split; [done|]. apply list_elem_of_lookup. eauto. }
    unfold bind. rewrite (janitorShouldRemove_eq _ _ _ _ _ _ Hp). simpl.
    eexists _, _. split; [reflexivity|]. split; [apply effect_none|].
    destruct (shouldRemove now s); simpl; [|done].
    apply Forall_cons. split; [|done]. apply elem_of_dom. eauto.
  - simpl in Hj. apply Forall_cons in Hj as [[s Hp]%elem_of_dom Hj].
    cbn [janitorStep]. unfold bind.
    destruct (decide (sessions t !! k = Some p)) as [Hk|Hk].
    + rewrite (janitorEvict_same _ _ _ _ _ Hk Hp). simpl.
      eexists _, _. split; [reflexivity|]. split; [by apply effect_evict|].
      done.
    + rewrite (janitorEvict_other _ _ _ _ Hk). simpl.
      eexists _, _. split; [reflexivity|]. split; [apply effect_none|].
      done.
  - destruct l as [|p0 l].
    { eexists _, _. split; [reflexivity|]. split; [apply effect_none|].
      done. }
    cbn [janitorStep]. simpl in Hj.
    destruct ((p0 :: l) !! i) as [p|] eqn:Hi.
    2:{ eexists _, _. split; [reflexivity|]. split; [apply effect_none|].
        done. }
    assert (Hrest : Forall (marked (heap t)) (delete i (p0 :: l)))
      by (by apply Forall_delete).
    assert (marked (heap t) p) as (s & Hp & Hr).
    { rewrite Forall_forall in Hj. apply Hj.
      apply list_elem_of_lookup. eauto. }
    unfold bind. rewrite (janitorShouldRemove_eq _ _ _ _ _ _ Hp). simpl.
    eexists _, _. split; [reflexivity|]. split; [apply effect_none|].
    destruct (shouldRemove now s); simpl; [|done].
    apply Forall_cons. split; [|done]. exists s. done.
  - simpl in Hj. apply Forall_cons in Hj as [(s & Hp & Hr) Hj].
    cbn [janitorStep]. unfold bind.
    rewrite (janitorRetire_eq _ _ _ _ Hp). simpl.
    eexists _, _. split; [reflexivity|]. split; [by apply effect_retire|].
    done.
Qed.

Lemma inflight_app e (t t' : tracker T) j j' es c :
  inflight e (mkWorld t j (es ++ [c])) →
  inflight e (mkWorld t' j' es) ∨ ending_event c = Some e.
Proof.
  unfold inflight. simpl. rewrite fmap_app, elem_of_app. simpl.
  rewrite list_elem_of_singleton. intros [?|?]; [by left|by right].
Qed.

Lemma act_spec a (w : world) :
  sane w →
  ∃ w',
    act a w = Some w' ∧ sane w' ∧
    (∀ e, inflight e w' → inflight e w ∨ a = CallEnd e) ∧
    match a with
    | CallStart k e now => transition (Start k e now) (store w) (store w')
    | _ => ∃ l, effect l (store w) (store w') ∧
                ∀ e, l = Some e → inflight e w
    end.
Proof.
  intros (Hv & Hst & Hj & He). destruct w as [t j es]. simpl in *.
  destruct a as [k e now|e|i now|tick i]; simpl.
  - (* EventStart *)
    destruct (step_transition sessionInitFunc inactivityTimeout
                maxSessionTimeout onSessionEnd (Start k e now) t Hv)
      as (t' & Hstep & Htr).
    unfold step, bind in Hstep.
    destruct (EventStart k e now t) as [[p t1]|]; [|done].
    simpl in Hstep. injection Hstep as ->.
    eexists. split; [reflexivity|]. split_and!; simpl; [|by left|done].
    pose proof (λ p s, transition_le _ t t' p s Htr) as Hle.
    split_and!; simpl.
    + apply (transition_valid _ t t' Hv Htr).
    + apply (transition_structured _ _ _ _ _ t t' Hv Hst Htr).
    + by apply (janitor_ok_le (heap t)).
    + eapply Forall_impl; [exact He|]. intros c.
      by apply (ending_ok_le (heap t)).
  - (* EventEnd, the lookup *)
    unfold EventEnd_lookup, gets.
    destruct (eventToSession t !! e) as [p|] eqn:Hp.
    + eexists. split; [reflexivity|]. split_and!; simpl.
      * split_and!; simpl; try done.
        apply Forall_app. split; [done|]. apply Forall_singleton. simpl.
        by apply (proj2 Hv e).
      * intros e0 [?|Hc]%(inflight_app _ _ t _ j); [by left|right].
        simpl in Hc. congruence.
      * exists None. split; [apply effect_none|done].
    + eexists. split; [reflexivity|]. split_and!; simpl.
      * by split_and!.
      * by left.
      * exists None. split; [apply effect_none|done].
  - (* EventEnd, a later critical section *)
    destruct (es !! i) as [c|] eqn:Hi.
    2:{ eexists. split; [reflexivity|]. split_and!; simpl.
        - by split_and!.
        - by left.
        - exists None. split; [apply effect_none|done]. }
    assert (Hc : ending_ok (heap t) c).
    { rewrite Forall_forall in He. apply He.
      apply list_elem_of_lookup. eauto. }
    destruct (endingStep_spec now c t Hc) as (r & t' & -> & Hef & Hr).
    pose proof (λ p s, effect_le _ _ t t' p s Hef) as Hle.
    assert (Hin : ∀ e, ending_event c = Some e →
                       inflight e (mkWorld t j es)).
    { intros e Hce. unfold inflight. simpl. apply list_elem_of_fmap.
      exists c. split; [done|]. apply list_elem_of_lookup. eauto. }
    assert (Hes : Forall (ending_ok (heap t')) es).
    { eapply Forall_impl; [exact He|]. intros c0.
      by apply (ending_ok_le (heap t)). }
    destruct r as [c'|].
    + destruct (Hr c' eq_refl) as [Hok Hev].
      eexists. split; [reflexivity|]. split_and!; simpl.
      * split_and!; simpl.
        -- apply (effect_valid _ _ t t' Hv Hef).
        -- apply (effect_structured _ _ t t' Hst Hef).
        -- by apply (janitor_ok_le (heap t)).
        -- by apply Forall_insert.
      * intros e. unfold inflight. simpl. rewrite list_fmap_insert.
        intros [n Hn]%list_elem_of_lookup.
        apply list_lookup_insert_Some in Hn
          as [(_ & Heq & _)|[_ Hn]]; left.
        -- apply Hin. destruct Hev as [Hev|Hev]; congruence.
        -- apply list_elem_of_lookup. eauto.
      * exists (ending_event c). split; [done|]. intros e Hce. by apply Hin.
    + eexists. split; [reflexivity|]. split_and!; simpl.
      * split_and!; simpl.
        -- apply (effect_valid _ _ t t' Hv Hef).
        -- apply (effect_structured _ _ t t' Hst Hef).
        -- by apply (janitor_ok_le (heap t)).
        -- by apply Forall_delete.
      * intros e. unfold inflight. simpl. rewrite list_fmap_delete.
        intros Hn%list_elem_of_delete_inv. by left.
      * exists (ending_event c). split; [done|]. intros e Hce. by apply Hin.
  - (* the janitor *)
    destruct (janitorStep_spec tick i j t Hv Hst Hj) as (j' & t' & -> & Hef & Hj').
    pose proof (λ p s, effect_le _ _ t t' p s Hef) as Hle.
    eexists. split; [reflexivity|]. split_and!; simpl.
    + split_and!; simpl.
      * apply (effect_valid _ _ t t' Hv Hef).
      * apply (effect_structured _ _ t t' Hst Hef).
      * by apply (janitor_ok_le (heap t)).
      * eapply Forall_impl; [exact He|]. intros c.
        by apply (ending_ok_le (heap t)).
    + by left.
    + exists None. split; [done|done].
Qed.

(** *** Schedules *)

Lemma NewWorld_sane : sane (NewWorld (T:=T)).
Proof.
  unfold sane, NewWorld. simpl. split_and!.
  - apply NewTracker_inv.
  - apply NewTracker_structured.
  - done.
  - constructor.
Qed.

Lemma schedule_app acts1 acts2 (w : world) :
  schedule (acts1 ++ acts2) w =
    match schedule acts1 w with
    | Some w1 => schedule acts2 w1
    | None => None
    end.
Proof.
  revert w. induction acts1 as [|a acts1 IH]; intros w; simpl; [done|].
  destruct (act a w); [apply IH|done].
Qed.

Lemma schedule_sane acts : ∀ w : world,
  sane w → ∃ w', schedule acts w = Some w' ∧ sane w'.
Proof.
  induction acts as [|a acts IH]; intros w Hw; simpl; [by exists w|].
  destruct (act_spec a w Hw) as (w1 & -> & Hw1 & _). by apply IH.
Qed.

(** An invariant of the steps is an invariant of the schedules. *)
Lemma schedule_invariant (A : action → Prop) (I : world → Prop) :
  (∀ a w w', A a → sane w → I w → act a w = Some w' → I w') →
  ∀ acts w w', Forall A acts → sane w → I w →
               schedule acts w = Some w' → I w'.
Proof.
  intros Hstep. induction acts as [|a acts IH]; intros w w' Hall Hw HI Hrun.
  - simpl in Hrun. by injection Hrun as <-.
  - apply Forall_cons in Hall as [Ha Hall]. simpl in Hrun.
    destruct (act_spec a w Hw) as (w1 & Hact & Hw1 & _).
    rewrite Hact in Hrun. apply (IH w1 w'); try done.
    by apply (Hstep a w).
Qed.

Lemma NewWorld_schedule acts (w : world) :
  schedule acts NewWorld = Some w → sane w.
Proof.
  intros Hrun.
  destruct (schedule_sane acts NewWorld NewWorld_sane) as (w' & Hrun' & Hw).
  congruence.
Qed.

(** *** Events are indexed by [EventStart] only *)





(** *** An open event keeps its session *)

Lemma EventStart_index k e now (t t1 : tracker T) p :
  EventStart k e now t = Some (p, t1) →
  eventToSession t1 !! e = Some p.
Proof.
  destruct (sessions t !! k) as [p0|] eqn:Hk.
  - destruct (heap t !! p0) as [s0|] eqn:Hp0.
    2:{ unfold EventStart, bind, gets, deref. simpl.
        by rewrite Hk, Hp0. }
    destruct (expired maxSessionTimeout now s0) eqn:Hx.
    + rewrite (EventStart_split _ _ _ _ _ _ _ _ Hk Hp0 Hx). simpl.
      intros [= <- <-]. simpl. by rewrite lookup_insert_eq.
    + rewrite (EventStart_reuse _ _ _ _ _ _ _ _ Hk Hp0 Hx).
      intros [= <- <-]. simpl. by rewrite lookup_insert_eq.
  - rewrite (EventStart_new _ _ _ _ _ _ Hk). simpl.
    intros [= <- <-]. simpl. by rewrite lookup_insert_eq.
Qed.

Lemma act_keeps a (w w' : world) e p :
  ¬ names e a → sane w → act a w = Some w' →
  eventToSession (store w) !! e = Some p ∧
  e ∈ openEvents (heap (store w)) p ∧ ¬ inflight e w →
  eventToSession (store w') !! e = Some p ∧
  e ∈ openEvents (heap (store w')) p ∧ ¬ inflight e w'.
Proof.
  intros Hn Hw Hact (He & Hopen & Hin).
  destruct (act_spec a w Hw) as (w1 & Hact' & _ & Hfl & Hcase).
  assert (w1 = w') as -> by congruence.
  assert (Hin' : ¬ inflight e w').
  { intros [?| ->]%Hfl; [done|]. by apply Hn. }
  destruct a as [k e0 now|e0|i now|tick i].
  - assert (Hm : ¬ mentions e (Start k e0 now)) by done.
    split_and!; [|by apply (transition_open _ _ _ _ _ Hcase Hm)|done].
    by rewrite (transition_index _ _ _ _ _ _ _ e Hcase Hm).
  - destruct Hcase as (l & Hef & Hl).
    assert (Hne : l ≠ Some e) by (intros ->; by apply Hin, Hl).
    destruct (openEvents_elem _ _ _ Hopen) as (s & Hp & Hes).
    destruct (effect_heap _ _ _ _ p s Hef Hp) as (s' & Hp' & _ & _ & _ & Hev).
    split_and!; [|rewrite (openEvents_Some _ _ _ Hp'); by apply Hev|done].
    by rewrite (proj2 (effect_index _ _ _ _ e Hef) Hne).
  - destruct Hcase as (l & Hef & Hl).
    assert (Hne : l ≠ Some e) by (intros ->; by apply Hin, Hl).
    destruct (openEvents_elem _ _ _ Hopen) as (s & Hp & Hes).
    destruct (effect_heap _ _ _ _ p s Hef Hp) as (s' & Hp' & _ & _ & _ & Hev).
    split_and!; [|rewrite (openEvents_Some _ _ _ Hp'); by apply Hev|done].
    by rewrite (proj2 (effect_index _ _ _ _ e Hef) Hne).
  - destruct Hcase as (l & Hef & Hl).
    assert (Hne : l ≠ Some e) by (intros ->; by apply Hin, Hl).
    destruct (openEvents_elem _ _ _ Hopen) as (s & Hp & Hes).
    destruct (effect_heap _ _ _ _ p s Hef Hp) as (s' & Hp' & _ & _ & _ & Hev).
    split_and!; [|rewrite (openEvents_Some _ _ _ Hp'); by apply Hev|done].
    by rewrite (proj2 (effect_index _ _ _ _ e Hef) Hne).
Qed.

(** An event that was started and is not ended yet keeps its session,
    however the goroutines are interleaved: when no call of [EventEnd] for
    [e] is under way at the [EventStart], then after any steps of calls on
    other events, of calls of [EventEnd] under way and of the janitor, the
    event is still indexed to the session [EventStart] returned and still
    open in it (whether or not the janitor has evicted that session in
    between), and [EventEnd] returns nil, removes the event from that very
    session and from the reverse index, and sets the [Updated] of the
    session to its time. *)
Theorem start_end_interleaved acts0 acts k e now now' :
  Forall (λ a, ¬ names e a) acts →
  ∃ (w : world) p t1 (w2 : world),
    schedule acts0 NewWorld = Some w ∧
    EventStart k e now (store w) = Some (p, t1) ∧
    schedule acts (mkWorld t1 (janitorAt w) (endings w)) = Some w2 ∧
    (¬ inflight e w →
     ∃ t3 s2,
       eventToSession (store w2) !! e = Some p ∧
       heap (store w2) !! p = Some s2 ∧ e ∈ events s2 ∧
       EventEnd e now' (store w2) = Some (nil, t3) ∧
       heap t3 !! p =
         Some (mkSession (data s2) (events s2 ∖ {[e]}) (retired s2)
                 (mkSessionMetadata (Created (metadata s2)) now')) ∧
       eventToSession t3 !! e = None).
Proof.
  intros Hall.
  destruct (schedule_sane acts0 NewWorld NewWorld_sane) as (w & Hrun0 & Hw).
  destruct (act_spec (CallStart k e now) w Hw) as (w1 & Hact & Hw1 & Hfl & _).
  simpl in Hact.
  destruct (EventStart k e now (store w)) as [[p t1]|] eqn:Hstart; [|done].
  injection Hact as <-.
  destruct (schedule_sane acts _ Hw1) as (w2 & Hrun & _).
  exists w, p, t1, w2. split_and!; try done. intros Hin.
  destruct (EventStart_Some _ _ _ _ _ _ _ _ Hstart)
    as (_ & (s1 & Hp1 & He1 & _) & _).
  assert (HK : eventToSession (store w2) !! e = Some p ∧
               e ∈ openEvents (heap (store w2)) p ∧ ¬ inflight e w2).
  { apply (schedule_invariant (λ a, ¬ names e a)
             (λ w, eventToSession (store w) !! e = Some p ∧
                   e ∈ openEvents (heap (store w)) p ∧ ¬ inflight e w))
      with (acts := acts) (w := mkWorld t1 (janitorAt w) (endings w));
      try done.
    - intros a wa wb Hn Hwa HI Hact. by apply (act_keeps a wa).
    - simpl. split_and!.
      + by apply (EventStart_index k e now (store w)).
      + by rewrite (openEvents_Some _ _ _ Hp1).
      + intros [?|?]%Hfl; done. }
  destruct HK as (Hi & (s2 & Hp2 & He2)%openEvents_elem & _).
  rewrite (EventEnd_known _ _ _ _ _ _ Hi Hp2). simpl.
  eexists _, s2. split_and!; try done; simpl.
  - by rewrite lookup_insert_eq.
  - apply lookup_delete_eq.
Qed.

(** *** Dispatched callbacks *)

Lemma act_callbacks a (w w' : world) :
  sane w → act a w = Some w' →
  (∀ c, c ∈ endCalls (store w) →
        (ended c ∉ tracked (store w)) ∧
        ∃ s, heap (store w) !! ended c = Some s ∧ endData c = data s ∧
             Created (endMetadata c) = Created (metadata s)) →
  ∀ c, c ∈ endCalls (store w') →
       (ended c ∉ tracked (store w')) ∧
       ∃ s, heap (store w') !! ended c = Some s ∧ endData c = data s ∧
            Created (endMetadata c) = Created (metadata s).
Proof.
  intros Hw Hact Hold.
  destruct (act_spec a w Hw) as (w1 & Hact' & _ & _ & Hcase).
  assert (w1 = w') as -> by congruence.
  destruct Hw as (Hv & Hst & _).
  assert (Heff : (∃ l, effect l (store w) (store w')) →
            ∀ c, c ∈ endCalls (store w') →
                 (ended c ∉ tracked (store w')) ∧
                 ∃ s, heap (store w') !! ended c = Some s ∧
                      endData c = data s ∧
                      Created (endMetadata c) = Created (metadata s)).
  { intros (l & Hef) c Hc.
    destruct (effect_calls _ _ _ _ Hv Hst Hef) as (new & Hcalls & _ & Hnew).
    rewrite Hcalls in Hc. apply elem_of_app in Hc as [Hc|Hc].
    - destruct (Hold c Hc) as (Hn & s & Hp & Hd & Hcr). split.
      + intros Hin. by apply Hn, (effect_tracked _ _ _ _ _ Hef).
      + destruct (effect_heap _ _ _ _ _ s Hef Hp)
          as (s' & Hp' & Hd' & Hc' & _).
        exists s'. split_and!; congruence.
    - destruct (Hnew c Hc) as (Hn & s & Hp & Hd & Hm).
      split; [done|]. exists s. split_and!; congruence. }
  destruct a as [k e now|e|i now|tick i];
    try (apply Heff; destruct Hcase as (l & Hef & _); by exists l).
  intros c Hc.
  assert (Hcalls : endCalls (store w') = endCalls (store w)).
  { inversion Hcase; subst; done. }
  rewrite Hcalls in Hc.
  destruct (Hold c Hc) as (Hn & s & Hp & Hd & Hcr). split.
  - intros Hin.
    destruct (transition_tracked _ _ _ _ _ _ _ _ Hcase Hin); [done|congruence].
  - destruct (transition_heap _ _ _ _ _ _ _ _ s Hcase Hp)
      as (s' & Hp' & Hd' & Hc' & _).
    exists s'. split_and!; congruence.
Qed.

Lemma EventStart_not_dispatched k e now (t t' : tracker T) p q s :
  valid t → EventStart k e now t = Some (p, t') →
  q ∉ tracked t → heap t !! q = Some s → p ≠ q.
Proof.
  intros [Hv1 _]%valid_lookups Hstart Hq Hs ->.
  destruct (sessions t !! k) as [p0|] eqn:Hk.
  - assert (is_Some (heap t !! p0)) as [s0 Hp0] by (apply Hv1; eauto).
    destruct (expired maxSessionTimeout now s0) eqn:Hx.
    + rewrite (EventStart_split _ _ _ _ _ _ _ _ Hk Hp0 Hx) in Hstart.
      simpl in Hstart. injection Hstart as Hfresh _.
      pose proof (fresh_heap (<[p0:=mkSession (data s0) (events s0 ∖ {[e]})
                                      true (metadata s0)]> (heap t))) as Hf.
      rewrite Hfresh, lookup_insert in Hf. case_decide; [done|congruence].
    + rewrite (EventStart_reuse _ _ _ _ _ _ _ _ Hk Hp0 Hx) in Hstart.
      injection Hstart as -> _. apply Hq, elem_of_tracked. eauto.
  - rewrite (EventStart_new _ _ _ _ _ _ Hk) in Hstart. simpl in Hstart.
    injection Hstart as Hfresh _.
    pose proof (fresh_heap (heap t)) as Hf. rewrite Hfresh in Hf. congruence.
Qed.

(** However the goroutines are interleaved, a callback is dispatched for a
    session object of the store with the payload and the creation time of
    that session; once it is dispatched the session is neither primary
    nor in the retired set, and no [EventStart] returns it again. *)
Theorem callbacks_final acts :
  ∃ w : world,
    schedule acts NewWorld = Some w ∧
    ∀ c, c ∈ endCalls (store w) →
      (∀ k, sessions (store w) !! k ≠ Some (ended c)) ∧
      (ended c ∉ retiredSessions (store w)) ∧
      (∃ s, heap (store w) !! ended c = Some s ∧ endData c = data s ∧
            Created (endMetadata c) = Created (metadata s)) ∧
      ∀ k e now, ∃ p t', EventStart k e now (store w) = Some (p, t') ∧
                         p ≠ ended c.
Proof.
  destruct (schedule_sane acts NewWorld NewWorld_sane) as (w & Hrun & Hw).
  exists w. split; [done|]. intros c Hc.
  assert (HI : ∀ c, c ∈ endCalls (store w) →
            (ended c ∉ tracked (store w)) ∧
            ∃ s, heap (store w) !! ended c = Some s ∧ endData c = data s ∧
                 Created (endMetadata c) = Created (metadata s)).
  { apply (schedule_invariant (λ _, True)
             (λ w, ∀ c, c ∈ endCalls (store w) →
                (ended c ∉ tracked (store w)) ∧
                ∃ s, heap (store w) !! ended c = Some s ∧
                     endData c = data s ∧
                     Created (endMetadata c) = Created (metadata s)))
      with (acts := acts) (w := NewWorld (T:=T)).
    - intros a wa wb _ Hwa HI Hact. by apply (act_callbacks a wa).
    - by apply Forall_forall.
    - apply NewWorld_sane.
    - by intros c0 ?%elem_of_nil.
    - done. }
  destruct (HI c Hc) as (Hn & s & Hp & Hd & Hcr).
  pose proof Hn as Hn'. rewrite elem_of_tracked in Hn'. split_and!.
  - intros k Hk. apply Hn'. eauto.
  - intros Hin. apply Hn'. by right.
  - by exists s.
  - intros k e now.
    destruct (act_spec (CallStart k e now) w Hw) as (w1 & Hact & _).
    simpl in Hact.
    destruct (EventStart k e now (store w)) as [[p t']|] eqn:Hstart; [|done].
    exists p, t'. split; [done|].
    apply (EventStart_not_dispatched k e now (store w) t' p (ended c) s);
      try done. apply Hw.
Qed.

(** *** The critical sections of the janitor *)

(** Each critical section of the janitor, on any store in which the
    sessions the janitor holds are objects: it changes no session object,
    no entry of the reverse index and not the trace of the initializer; the
    only changes it makes are, in the removal of a primary session, the
    deletion of the key of the snapshot entry when that key still maps to
    the session of the snapshot entry, and, in the removal of a retired
    session, the deletion of that session from the retired set, each with
    the dispatch of the callback of that session when one is configured;
    and a removal is entered only after [janitorShouldRemove] answered
    true for that session, in the critical section before. *)
Theorem janitorStep_frame tick i j (t : tracker T) :
  Forall (λ p, p ∈ dom (heap t)) (janitor_sessions j) →
  ∃ j' t' fired,
    janitorStep tick i j t = Some (j', t') ∧
    heap t' = heap t ∧
    eventToSession t' = eventToSession t ∧
    initCalls t' = initCalls t ∧
    endCalls t' = endCalls t ++ fired ∧
    ((sessions t' = sessions t ∧ retiredSessions t' = retiredSessions t ∧
      fired = []) ∨
     (∃ now k p l s,
        j = Evicting now k p l ∧ sessions t !! k = Some p ∧
        heap t !! p = Some s ∧
        sessions t' = delete k (sessions t) ∧
        retiredSessions t' = retiredSessions t ∧
        fired = if onSessionEnd
                then [mkEndCall p (data s) (metadata s)] else []) ∨
     (∃ now p l s,
        j = Retiring now p l ∧ heap t !! p = Some s ∧
        sessions t' = sessions t ∧
        retiredSessions t' = retiredSessions t ∖ {[p]} ∧
        fired = if onSessionEnd
                then [mkEndCall p (data s) (metadata s)] else [])) ∧
    (∀ now k p l, j' = Evicting now k p l →
       ∃ l0 s, j = Sweeping now l0 ∧ l0 !! i = Some (k, p) ∧
               l = delete i l0 ∧ heap t !! p = Some s ∧
               shouldRemove now s = true) ∧
    (∀ now p l, j' = Retiring now p l →
       ∃ l0 s, j = SweepingRetired now l0 ∧ l0 !! i = Some p ∧
               l = delete i l0 ∧ heap t !! p = Some s ∧
               shouldRemove now s = true).
Proof.
  intros Hj.
  destruct j as [|now l|now k p l|now l|now p l].
  - eexists _, _, []. split; [reflexivity|]. rewrite app_nil_r.
    split_and!; try done. left. done.
  - destruct l as [|kp l].
    { eexists _, _, []. split; [reflexivity|]. rewrite app_nil_r.
      split_and!; try done. left. done. }
    cbn [janitorStep]. simpl in Hj.
    destruct ((kp :: l) !! i) as [[k p]|] eqn:Hi.
    2:{ eexists _, _, []. split; [reflexivity|]. rewrite app_nil_r.
        split_and!; try done. left. done. }
    assert (is_Some (heap t !! p)) as [s Hp].
    { apply elem_of_dom. rewrite Forall_forall in Hj. apply Hj.
      change (p ∈ (kp :: l).*2). apply list_elem_of_fmap. exists (k, p).
      split; [done|]. apply list_elem_of_lookup. eauto. }
    unfold bind. rewrite (janitorShouldRemove_eq _ _ _ _ _ _ Hp). simpl.
    eexists _, _, []. split; [reflexivity|]. rewrite app_nil_r.
    split_and!; try done.
    + left. done.
    + intros now0 k0 p0 l0.
      destruct (shouldRemove now s) eqn:Hsr; [|done].
      intros [= <- <- <- <-]. exists (kp :: l), s. done.
    + intros now0 p0 l0. by destruct (shouldRemove now s).
  - simpl in Hj. apply Forall_cons in Hj as [[s Hp]%elem_of_dom Hj].
    cbn [janitorStep]. unfold bind.
    destruct (decide (sessions t !! k = Some p)) as [Hk|Hk].
    + rewrite (janitorEvict_same _ _ _ _ _ Hk Hp). simpl.
      exists (Sweeping now l). eexists.
      exists (if onSessionEnd then [mkEndCall p (data s) (metadata s)]
              else []).
      split; [reflexivity|]. simpl. split_and!; try done.
      * destruct onSessionEnd; [done|by rewrite app_nil_r].
      * right. left. exists now, k, p, l, s. done.
    + rewrite (janitorEvict_other _ _ _ _ Hk). simpl.
      eexists _, _, []. split; [reflexivity|]. rewrite app_nil_r.
      split_and!; try done. left. done.
  - destruct l as [|p0 l].
    { eexists _, _, []. split; [reflexivity|]. rewrite app_nil_r.
      split_and!; try done. left. done. }
    cbn [janitorStep]. simpl in Hj.
    destruct ((p0 :: l) !! i) as [p|] eqn:Hi.
    2:{ eexists _, _, []. split; [reflexivity|]. rewrite app_nil_r.
        split_and!; try done. left. done. }
    assert (is_Some (heap t !! p)) as [s Hp].
    { apply elem_of_dom. rewrite Forall_forall in Hj. apply Hj.
      apply list_elem_of_lookup. eauto. }
    unfold bind. rewrite (janitorShouldRemove_eq _ _ _ _ _ _ Hp). simpl.
    eexists _, _, []. split; [reflexivity|]. rewrite app_nil_r.
    split_and!; try done.
    + left. done.
    + intros now0 k0 p1 l0. by destruct (shouldRemove now s).
    + intros now0 p1 l0.
      destruct (shouldRemove now s) eqn:Hsr; [|done].
      intros [= <- <- <-]. exists (p0 :: l), s. done.
  - simpl in Hj. apply Forall_cons in Hj as [[s Hp]%elem_of_dom Hj].
    cbn [janitorStep]. unfold bind.
    rewrite (janitorRetire_eq _ _ _ _ Hp). simpl.
    exists (SweepingRetired now l). eexists.
    exists (if onSessionEnd then [mkEndCall p (data s) (metadata s)]
            else []).
    split; [reflexivity|]. simpl. split_and!; try done.
    + destruct onSessionEnd; [done|by rewrite app_nil_r].
    + right. right. exists now, p, l, s. done.
Qed.

(** *** Calls and ticks that no goroutine interrupts *)

Lemma act_CallEnd e (t : tracker T) j es :
  act (CallEnd e) (mkWorld t j es) =
    Some (mkWorld t j
            match eventToSession t !! e with
            | Some p => es ++ [AtSession e p]
            | None => es
            end).
Proof.
  cbn. unfold EventEnd_lookup, gets. by destruct (eventToSession t !! e).
Qed.

Lemma act_Resume_None i now (t : tracker T) j es :
  es !! i = None →
  act (Resume i now) (mkWorld t j es) = Some (mkWorld t j es).
Proof. intros Hi. cbn. by rewrite Hi. Qed.

Lemma act_Resume_Some i now (t : tracker T) j es c :
  es !! i = Some c →
  act (Resume i now) (mkWorld t j es) =
    match endingStep now c t with
    | Some (Some c', t') => Some (mkWorld t' j (<[i := c']> es))
    | Some (None, t') => Some (mkWorld t' j (delete i es))
    | None => None
    end.
Proof. intros Hi. cbn. by rewrite Hi. Qed.

Lemma schedule_cons a acts (w : world) :
  schedule (a :: acts) w =
    match act a w with
    | Some w' => schedule acts w'
    | None => None
    end.
Proof. reflexivity. Qed.

(** A call of [EventEnd] whose critical sections follow one another without
    a step of another goroutine is the call [EventEnd]. *)
Lemma EventEnd_sections e now (w : world) :
  schedule [CallEnd e; Resume (length (endings w)) now;
            Resume (length (endings w)) now;
            Resume (length (endings w)) now] w =
    match EventEnd e now (store w) with
    | Some (_, t') => Some (mkWorld t' (janitorAt w) (endings w))
    | None => None
    end.
Proof.
  destruct w as [t j es]. cbn [store janitorAt endings].
  assert (Hge : es !! length es = None) by (apply lookup_ge_None; lia).
  rewrite schedule_cons, act_CallEnd.
  destruct (eventToSession t !! e) as [p|] eqn:He.
  2:{ rewrite (EventEnd_unknown _ _ _ _ He).
      do 3 (rewrite schedule_cons, (act_Resume_None _ _ _ _ _ Hge)).
      done. }
  assert (Hmid : ∀ c, (es ++ [c]) !! length es = Some c).
  { intros c. by apply list_lookup_middle. }
  assert (Hins : ∀ c c' : ending,
            <[length es := c']> (es ++ [c]) = es ++ [c']).
  { intros c c'. rewrite insert_app_r_alt by lia.
    by rewrite Nat.sub_diag. }
  rewrite schedule_cons, (act_Resume_Some _ _ _ _ _ _ (Hmid _)).
  destruct (heap t !! p) as [s|] eqn:Hp.
  2:{ cbn. unfold bind, EventEnd_session, bind, update. rewrite Hp.
      unfold EventEnd, bind, gets, update. simpl. by rewrite He, Hp. }
  rewrite (EventEnd_known _ _ _ _ _ _ He Hp).
  cbn [endingStep]. unfold bind at 1.
  rewrite (EventEnd_session_eq _ _ _ _ _ Hp). cbn [ret].
  rewrite Hins.
  rewrite schedule_cons, (act_Resume_Some _ _ _ _ _ _ (Hmid _)).
  cbn [endingStep]. unfold bind, EventEnd_unindex, set_eventToSession, modify.
  cbn [ret].
  destruct (drained e s) eqn:Hdr; cbn -[schedule act].
  - rewrite Hins.
    rewrite schedule_cons, (act_Resume_Some _ _ _ _ _ _ (Hmid _)).
    cbn [endingStep]. unfold bind.
    erewrite EventEnd_retire_eq by (cbn; by rewrite lookup_insert_eq).
    cbn -[schedule]. rewrite delete_middle, app_nil_r.
    by destruct onSessionEnd.
  - rewrite delete_middle, app_nil_r.
    rewrite schedule_cons, (act_Resume_None _ _ _ _ _ Hge). done.
Qed.

Lemma forM_janitorActive_sections now l es : ∀ t t' : tracker T,
  forM l (janitorActive now) t = Some (tt, t') →
  ∃ n, schedule (replicate n (Janitor now 0)) (mkWorld t (Sweeping now l) es)
       = Some (mkWorld t' (Sweeping now []) es).
Proof.
  induction l as [|[k p] l IH]; intros t t' Hrun.
  - simpl in Hrun. injection Hrun as <-. by exists 0%nat.
  - simpl in Hrun. unfold bind at 1 in Hrun.
    unfold janitorActive at 1 in Hrun. unfold bind at 1 in Hrun.
    simpl in Hrun.
    destruct (janitorShouldRemove inactivityTimeout maxSessionTimeout p now t)
      as [[b t0]|] eqn:Hsr; [|done].
    assert (t0 = t) as ->.
    { unfold janitorShouldRemove, bind, deref, ret in Hsr.
      destruct (heap t !! p); [|done]. by injection Hsr as _ <-. }
    destruct b.
    + destruct (janitorEvict onSessionEnd k p t) as [[[] t1]|] eqn:Hev;
        [|done].
      destruct (IH t1 t' Hrun) as (n & Hn). exists (S (S n)).
      simpl. unfold bind at 1. rewrite Hsr. simpl. unfold bind at 1.
      rewrite Hev. simpl. exact Hn.
    + destruct (IH t t' Hrun) as (n & Hn). exists (S n).
      simpl. unfold bind at 1. rewrite Hsr. simpl. exact Hn.
Qed.

Lemma forM_janitorRetired_sections now l es : ∀ t t' : tracker T,
  forM l (janitorRetired now) t = Some (tt, t') →
  ∃ n, schedule (replicate n (Janitor now 0))
         (mkWorld t (SweepingRetired now l) es)
       = Some (mkWorld t' (SweepingRetired now []) es).
Proof.
  induction l as [|p l IH]; intros t t' Hrun.
  - simpl in Hrun. injection Hrun as <-. by exists 0%nat.
  - simpl in Hrun. unfold bind at 1 in Hrun.
    unfold janitorRetired at 1 in Hrun. unfold bind at 1 in Hrun.
    destruct (janitorShouldRemove inactivityTimeout maxSessionTimeout p now t)
      as [[b t0]|] eqn:Hsr; [|done].
    assert (t0 = t) as ->.
    { unfold janitorShouldRemove, bind, deref, ret in Hsr.
      destruct (heap t !! p); [|done]. by injection Hsr as _ <-. }
    destruct b.
    + change ((set_retiredSessions (λ r, r ∖ {[p]}) ;;;
               (if onSessionEnd then goOnSessionEnd p else ret tt)) t)
        with (janitorRetire (T:=T) onSessionEnd p t) in Hrun.
      destruct (janitorRetire (T:=T) onSessionEnd p t) as [[[] t1]|] eqn:Hev;
        [|done].
      destruct (IH t1 t' Hrun) as (n & Hn). exists (S (S n)).
      simpl. unfold bind at 1. rewrite Hsr. simpl. unfold bind at 1.
      rewrite Hev. simpl. exact Hn.
    + destruct (IH t t' Hrun) as (n & Hn). exists (S n).
      simpl. unfold bind at 1. rewrite Hsr. simpl. exact Hn.
Qed.

(** A tick of the janitor whose critical sections follow one another
    without a step of another goroutine is [janitorTick]. *)
Lemma janitorTick_sections now (t t' : tracker T) es :
  janitorTick now t = Some (tt, t') →
  ∃ n, schedule (replicate n (Janitor now 0)) (mkWorld t Waiting es)
       = Some (mkWorld t' Waiting es).
Proof.
  unfold janitorTick, bind, sweepActive, sweepRetired, bind, gets.
  destruct (forM (map_to_list (sessions t)) (janitorActive now) t)
    as [[[] t1]|] eqn:Hact; [|done].
  intros Hret.
  destruct (forM_janitorActive_sections now _ es t t1 Hact) as (n1 & Hn1).
  destruct (forM_janitorRetired_sections now _ es t1 t' Hret) as (n2 & Hn2).
  exists (S (n1 + S (n2 + 1)))%nat.
  cbn [replicate]. rewrite schedule_cons.
  change (act (Janitor now 0%nat) (mkWorld t Waiting es))
    with (Some (mkWorld t (Sweeping now (map_to_list (sessions t))) es)).
  rewrite replicate_add, schedule_app, Hn1.
  cbn [replicate]. rewrite schedule_cons.
  change (act (Janitor now 0%nat) (mkWorld t1 (Sweeping now []) es))
    with (Some (mkWorld t1
                  (SweepingRetired now (elements (retiredSessions t1))) es)).
  rewrite replicate_add, schedule_app, Hn2. reflexivity.
Qed.

End Interleavings.

(** However the calls, the critical sections of the calls of [EventEnd]
    under way and those of the janitor are interleaved, no goroutine
    dereferences a nil pointer: the three index structures, the snapshots
    of the janitor and the locals of the calls of [EventEnd] under way only
    hold pointers to session objects; a primary session is not marked
    retired, a session of the retired set is, and no session is the
    primary one of two keys. *)
Theorem schedule_total {T} (sessionInitFunc : string → T)
    (inactivityTimeout : Duration) (maxSessionTimeout : option Duration)
    (onSessionEnd : bool) acts :
  ∃ w : world,
    schedule sessionInitFunc inactivityTimeout maxSessionTimeout onSessionEnd
      acts NewWorld = Some w ∧
    (∀ k p, sessions (store w) !! k = Some p →
            is_Some (heap (store w) !! p)) ∧
    (∀ e p, eventToSession (store w) !! e = Some p →
            is_Some (heap (store w) !! p)) ∧
    (∀ p, p ∈ retiredSessions (store w) → is_Some (heap (store w) !! p)) ∧
    (∀ p, p ∈ janitor_sessions (janitorAt w) →
          is_Some (heap (store w) !! p)) ∧
    (∀ c, c ∈ endings w →
          match c with
          | AtSession _ p | AtIndex _ p _ | AtRetired p =>
              is_Some (heap (store w) !! p)
          end) ∧
    structured (store w).
Proof.
  destruct (schedule_sane sessionInitFunc inactivityTimeout maxSessionTimeout
              onSessionEnd acts NewWorld NewWorld_sane)
    as (w & Hrun & Hv & Hst & Hj & He).
  exists w. pose proof Hv as [Hv1 Hv2]%valid_lookups.
  split_and!; eauto.
  - intros p Hp. destruct (janitorAt w); simpl in *;
      try (by apply elem_of_nil in Hp);
      rewrite Forall_forall in Hj; specialize (Hj p Hp).
    1-2: by apply elem_of_dom in Hj.
    1-2: destruct Hj as (s & -> & _); eauto.
  - intros c Hc. rewrite Forall_forall in He. specialize (He c Hc).
    destruct c as [e p|e p b|p]; simpl in He.
    + by apply elem_of_dom in He.
    + destruct He as [He _]. by apply elem_of_dom in He.
    + destruct He as (s & -> & _). eauto.
Qed.

(** On a state without dangling pointers [EventStart] returns a session,
    whatever the key and the event identifier and whichever branch it
    takes: afterwards that session is the primary one of the key, the event
    is open in it and indexed to it, its [Updated] is the time of the call;
    the primary sessions of the other keys, the other entries of the
    reverse index and the trace of the callbacks are as before, no session
    leaves the retired set, and the state has no dangling pointer. *)
Theorem EventStart_post {T} (sessionInitFunc : string → T)
    (maxSessionTimeout : option Duration) k e now (t : tracker T) :
  valid t →
  ∃ p t' s,
    EventStart sessionInitFunc maxSessionTimeout k e now t = Some (p, t') ∧
    sessions t' !! k = Some p ∧
    (∀ k', k' ≠ k → sessions t' !! k' = sessions t !! k') ∧
    eventToSession t' = <[e := p]> (eventToSession t) ∧
    heap t' !! p = Some s ∧
    e ∈ events s ∧
    Updated (metadata s) = now ∧
    endCalls t' = endCalls t ∧
    retiredSessions t ⊆ retiredSessions t' ∧
    valid t' ∧
    (index_sound t → index_sound t').
Proof.
  intros Hv.
  destruct (step_transition sessionInitFunc 0 maxSessionTimeout false
              (Start k e now) t Hv) as (t' & Hstep & Htr).
  pose proof (transition_valid _ _ _ _ _ _ _ Hv Htr) as Hv'.
  unfold step, bind in Hstep.
  destruct (EventStart sessionInitFunc maxSessionTimeout k e now t)
    as [[p t1]|] eqn:Hstart; [|done].
  simpl in Hstep. injection Hstep as ->.
  destruct (EventStart_Some _ _ _ _ _ _ _ _ Hstart)
    as (Hk & (s & Hp & He & Hu & _) & _).
  pose proof (EventStart_index _ _ _ _ _ _ _ _ Hstart) as Hi.
  exists p, t', s. split; [done|].
  assert (Hframe : (∀ k', k' ≠ k → sessions t' !! k' = sessions t !! k') ∧
                   eventToSession t' = <[e := p]> (eventToSession t) ∧
                   endCalls t' = endCalls t ∧
                   retiredSessions t ⊆ retiredSessions t').
  { inversion Htr; subst; simpl in *; rewrite lookup_insert_eq in Hi;
      injection Hi as ->; split_and!; try done;
      try (intros k' Hne; by rewrite lookup_insert_ne);
      set_solver. }
  destruct Hframe as (? & ? & ? & ?). split_and!; try done.
  intros Hs.
  destruct (EventStart_returns sessionInitFunc maxSessionTimeout k e now t
              Hv Hs) as (p' & t2 & s' & Hstart' & Hrest).
  assert (t2 = t') as -> by congruence.
  apply Hrest.
Qed.

(** *** The options *)

Section OptionsProperties.
Context {F : Type}.
Import Options.

Lemma newConfig_snoc (opts : list (Option F)) o :
  newConfig (opts ++ [o]) = o (newConfig opts).
Proof. unfold newConfig. by rewrite foldl_app. Qed.

Lemma newConfig_last {A} (field : config F → A) (o : Option F) v pre post :
  (∀ c, field (o c) = v) →
  Forall (λ o', ∀ c, field (o' c) = field c) post →
  field (newConfig (pre ++ o :: post)) = v.
Proof.
  intros Ho. induction post as [|o' post IH] using rev_ind; intros Hpost.
  - by rewrite newConfig_snoc.
  - apply Forall_app in Hpost as [Hpost Ho'%Forall_inv].
    rewrite app_comm_cons, app_assoc, newConfig_snoc, Ho'. by apply IH.
Qed.

Lemma WithMaxSessionTimeout_other (o : Option F) :
  exported o → (∀ d, o ≠ WithMaxSessionTimeout d) →
  ∀ c, maxSessionTimeout (o c) = maxSessionTimeout c.
Proof. intros [d|d|d|f] Hne c; try done. by destruct (Hne d). Qed.

Lemma WithInactivityTimeout_other (o : Option F) :
  exported o → (∀ d, o ≠ WithInactivityTimeout d) →
  ∀ c, inactivityTimeout (o c) = inactivityTimeout c.
Proof. intros [d|d|d|f] Hne c; try done. by destruct (Hne d). Qed.

Lemma WithJanitorInterval_other (o : Option F) :
  exported o → (∀ d, o ≠ WithJanitorInterval d) →
  ∀ c, janitorInterval (o c) = janitorInterval c.
Proof. intros [d|d|d|f] Hne c; try done. by destruct (Hne d). Qed.

Lemma WithOnSessionEnd_other (o : Option F) :
  exported o → (∀ f, o ≠ WithOnSessionEnd f) →
  ∀ c, onSessionEnd (o c) = onSessionEnd c.
Proof. intros [d|d|d|f] Hne c; try done. by destruct (Hne f). Qed.

(** The options of [NewTracker] are applied in order: an option decides its
    field of the configuration unless an option of the same kind comes
    later in the list, whatever the options before it and whatever the
    options of the other kinds after it. *)
Theorem options_last_wins (pre post : list (Option F)) :
  Forall exported post →
  (∀ d, (∀ d', WithJanitorInterval d' ∉ post) →
        janitorInterval (newConfig (pre ++ WithJanitorInterval d :: post))
        = d) ∧
  (∀ d, (∀ d', WithInactivityTimeout d' ∉ post) →
        inactivityTimeout
          (newConfig (pre ++ WithInactivityTimeout d :: post)) = d) ∧
  (∀ d, (∀ d', WithMaxSessionTimeout d' ∉ post) →
        maxSessionTimeout
          (newConfig (pre ++ WithMaxSessionTimeout d :: post)) = Some d) ∧
  (∀ f, (∀ f', WithOnSessionEnd f' ∉ post) →
        onSessionEnd (newConfig (pre ++ WithOnSessionEnd f :: post)) = f).
Proof.
  intros Hex. split_and!; intros v Hno; apply newConfig_last; try done;
    apply Forall_forall; intros o Ho;
    pose proof (proj1 (Forall_forall _ _) Hex o Ho) as Hexo.
  - apply WithJanitorInterval_other; [done|]. intros d ->. by apply (Hno d).
  - apply WithInactivityTimeout_other; [done|]. intros d ->.
    by apply (Hno d).
  - apply WithMaxSessionTimeout_other; [done|]. intros d ->.
    by apply (Hno d).
  - apply WithOnSessionEnd_other; [done|]. intros d ->. by apply (Hno d).
Qed.

Lemma newConfig_keeps {A} (field : config F → A) (opts : list (Option F)) :
  Forall (λ o, ∀ c, field (o c) = field c) opts →
  field (newConfig opts) = field defaults.
Proof.
  induction opts as [|o opts IH] using rev_ind; intros Hall; [done|].
  apply Forall_app in Hall as [Hall Ho%Forall_inv].
  rewrite newConfig_snoc, Ho. by apply IH.
Qed.

Lemma newConfig_no_max (opts : list (Option F)) :
  Forall exported opts →
  (∀ d, WithMaxSessionTimeout d ∉ opts) →
  maxSessionTimeout (newConfig opts) = None.
Proof.
  intros Hex Hno. rewrite (newConfig_keeps maxSessionTimeout); [done|].
  apply Forall_forall. intros o Ho.
  apply WithMaxSessionTimeout_other;
    [by apply (proj1 (Forall_forall _ _) Hex)|].
  intros d ->. by apply (Hno d).
Qed.

(** A field no option of the list sets keeps its default: 30 seconds for the
    janitor interval, 15 minutes for the inactivity timeout, no handler;
    and the maximum session lifetime is unset exactly when the list has no
    [WithMaxSessionTimeout]: no option removes it once it is set. *)
Theorem options_defaults (opts : list (Option F)) :
  Forall exported opts →
  ((∀ d, WithJanitorInterval d ∉ opts) →
   janitorInterval (newConfig opts) = 30 * Second) ∧
  ((∀ d, WithInactivityTimeout d ∉ opts) →
   inactivityTimeout (newConfig opts) = 15 * Minute) ∧
  ((∀ f, WithOnSessionEnd f ∉ opts) →
   onSessionEnd (newConfig opts) = None) ∧
  (maxSessionTimeout (newConfig opts) = None ↔
   ∀ d, WithMaxSessionTimeout d ∉ opts).
Proof.
  intros Hex.
  assert (Hin : ∀ o, o ∈ opts → exported o)
    by (by apply Forall_forall).
  split_and!.
  - intros Hno. rewrite (newConfig_keeps janitorInterval); [done|].
    apply Forall_forall. intros o Ho.
    apply WithJanitorInterval_other; [by apply Hin|].
    intros d ->. by apply (Hno d).
  - intros Hno. rewrite (newConfig_keeps inactivityTimeout); [done|].
    apply Forall_forall. intros o Ho.
    apply WithInactivityTimeout_other; [by apply Hin|].
    intros d ->. by apply (Hno d).
  - intros Hno. rewrite (newConfig_keeps onSessionEnd); [done|].
    apply Forall_forall. intros o Ho.
    apply WithOnSessionEnd_other; [by apply Hin|].
    intros d ->. by apply (Hno d).
  - split.
    + intros Hnone d Hd.
      apply list_elem_of_split in Hd as (pre & post & ->).
      clear Hin. induction post as [|o post IH] using rev_ind.
      * rewrite newConfig_snoc in Hnone. done.
      * rewrite app_comm_cons, app_assoc in Hnone, Hex.
        rewrite newConfig_snoc in Hnone.
        apply Forall_app in Hex as [Hex Ho%Forall_inv].
        apply IH; [|done]. by destruct Ho.
    + by apply newConfig_no_max.
Qed.

End OptionsProperties.

(** A tracker built without [WithMaxSessionTimeout] never splits a session:
    whatever calls and ticks it gets, its retired set stays empty and no
    session is ever marked retired. *)
Theorem no_max_never_retires {T F} (sessionInitFunc : string → T)
    (opts : list (Options.Option F)) cs :
  Forall Options.exported opts →
  (∀ d, Options.WithMaxSessionTimeout d ∉ opts) →
  ∃ t : tracker T,
    runWith sessionInitFunc opts cs NewTracker = Some (tt, t) ∧
    retiredSessions t = ∅ ∧
    ∀ p s, heap t !! p = Some s → retired s = false.
Proof.
  intros Hex Hno. unfold runWith. apply run_no_max.
  by apply newConfig_no_max.
Qed.

(** *** After an eviction *)

(** When a tick evicts the primary session of a key, the next [EventStart]
    for that key does not get the evicted session back: it makes a new
    session object with a payload from a new call of the initializer and
    with the time of the call as creation time, and it leaves the evicted
    object as it was. *)
Theorem evicted_then_new {T} (sessionInitFunc : string → T)
    (inactivityTimeout : Duration) (maxSessionTimeout : option Duration)
    (onSessionEnd : bool) k e now now' (t : tracker T) p s :
  tracked t ⊆ dom (heap t) →
  sessions t !! k = Some p →
  heap t !! p = Some s →
  shouldRemove inactivityTimeout maxSessionTimeout now s = true →
  ∃ t1 q t2,
    janitorTick inactivityTimeout maxSessionTimeout onSessionEnd now t
      = Some (tt, t1) ∧
    sessions t1 !! k = None ∧
    EventStart sessionInitFunc maxSessionTimeout k e now' t1
      = Some (q, t2) ∧
    q ≠ p ∧
    sessions t2 !! k = Some q ∧
    heap t2 !! q =
      Some (mkSession (sessionInitFunc k) {[e]} false
              (mkSessionMetadata now' now')) ∧
    heap t2 !! p = Some s ∧
    initCalls t2 = initCalls t ++ [k].
Proof.
  intros Hv Hk Hp Hgo. rewrite (janitorTick_eq _ _ _ _ _ Hv).
  assert (Hk1 : sessions (ticked inactivityTimeout maxSessionTimeout
                            onSessionEnd now t) !! k = None).
  { unfold ticked. simpl. apply map_lookup_filter_None. right.
    intros p' Hk'. simpl. assert (p' = p) as -> by congruence.
    unfold removable. rewrite Hp, Hgo. done. }
  eexists _, _, _. split; [reflexivity|]. split; [exact Hk1|].
  rewrite (EventStart_new _ _ _ _ _ _ Hk1). simpl.
  pose proof (fresh_heap (heap t)) as Hq.
  split; [reflexivity|]. simpl. split_and!.
  - intros Heq. rewrite Heq in Hq. congruence.
  - by rewrite lookup_insert_eq.
  - by rewrite lookup_insert_eq.
  - rewrite lookup_insert_ne; [done|]. intros Heq. rewrite Heq in Hq.
    congruence.
  - done.
Qed.

(** *** The inactivity timeout under a maximum lifetime *)

Lemma forM_ext {T A} (f g : A → M T unit) (l : list A) :
  (∀ x t, f x t = g x t) → ∀ t, forM l f t = forM l g t.
Proof.
  intros Hfg. induction l as [|x l IH]; intros t; [done|].
  simpl. unfold bind. rewrite Hfg. destruct (g x t) as [[[] t1]|]; [|done].
  apply IH.
Qed.

(** When a maximum session lifetime is configured the inactivity timeout
    has no effect: two trackers that differ only in their inactivity
    timeout go through the same states and dispatch the same callbacks, on
    every sequence of calls and ticks. *)
Theorem inactivityTimeout_ignored {T} (sessionInitFunc : string → T)
    (inactivityTimeout1 inactivityTimeout2 m : Duration)
    (onSessionEnd : bool) cs (t : tracker T) :
  run sessionInitFunc inactivityTimeout1 (Some m) onSessionEnd cs t =
  run sessionInitFunc inactivityTimeout2 (Some m) onSessionEnd cs t.
Proof.
  unfold run. apply forM_ext. clear cs t. intros c t.
  destruct c as [k e now|e now|now]; simpl; [done|done|].
  unfold janitorTick, bind.
  assert (Hact : ∀ t : tracker T,
            sweepActive inactivityTimeout1 (Some m) onSessionEnd now t
            = sweepActive inactivityTimeout2 (Some m) onSessionEnd now t).
  { intros t'. unfold sweepActive, bind, gets. by apply forM_ext. }
  assert (Hret : ∀ t : tracker T,
            sweepRetired inactivityTimeout1 (Some m) onSessionEnd now t
            = sweepRetired inactivityTimeout2 (Some m) onSessionEnd now t).
  { intros t'. unfold sweepRetired, bind, gets. by apply forM_ext. }
  rewrite Hact.
  destruct (sweepActive inactivityTimeout2 (Some m) onSessionEnd now t)
    as [[[] t1]|]; [|done].
  apply Hret.
Qed.

(** ** The further properties on the concrete tracker *)

Lemma ex_open_inv : valid ex_open ∧ index_sound ex_open.
Proof.
  destruct (NewTracker_inv (T:=string)) as [Hv [Hs _]].
  destruct (run_inv ex_init 5 (Some 2) true [Start "x" "a" 0] _ Hv Hs)
    as (t & Hrun & Hv' & Hs' & _).
  pose proof ex_open_run as Hrun'. unfold ex_run in Hrun'.
  rewrite Hrun' in Hrun. injection Hrun as <-. done.
Qed.

Lemma Data_stable_witness :
  heap ex_open !! 1%positive =
    Some (mkSession "x" {["a"]} false (mkSessionMetadata 0 0)) ∧
  ex_run [Start "x" "b" 3; End "a" 4; Tick 100] ex_open
    = Some (tt, mkTracker
                  {[1%positive := mkSession "x" ∅ true
                                    (mkSessionMetadata 0 4);
                    2%positive := mkSession "x" {["b"]} false
                                    (mkSessionMetadata 3 3)]}
                  {["x" := 2%positive]} {["b" := 2%positive]} ∅
                  ["x"; "x"]
                  [mkEndCall 1%positive "x" (mkSessionMetadata 0 4)]) ∧
  Data 1%positive
    (mkTracker
       {[1%positive := mkSession "x" ∅ true (mkSessionMetadata 0 4);
         2%positive := mkSession "x" {["b"]} false (mkSessionMetadata 3 3)]}
       {["x" := 2%positive]} {["b" := 2%positive]} ∅ ["x"; "x"]
       [mkEndCall 1%positive "x" (mkSessionMetadata 0 4)])
    = Some ("x",
            mkTracker
              {[1%positive := mkSession "x" ∅ true (mkSessionMetadata 0 4);
                2%positive := mkSession "x" {["b"]} false
                                (mkSessionMetadata 3 3)]}
              {["x" := 2%positive]} {["b" := 2%positive]} ∅ ["x"; "x"]
              [mkEndCall 1%positive "x" (mkSessionMetadata 0 4)]).
Proof.
  assert (Hrun : ex_run [Start "x" "b" 3; End "a" 4; Tick 100] ex_open
    = Some (tt, mkTracker
                  {[1%positive := mkSession "x" ∅ true
                                    (mkSessionMetadata 0 4);
                    2%positive := mkSession "x" {["b"]} false
                                    (mkSessionMetadata 3 3)]}
                  {["x" := 2%positive]} {["b" := 2%positive]} ∅
                  ["x"; "x"]
                  [mkEndCall 1%positive "x" (mkSessionMetadata 0 4)]))
    by (vm_compute; reflexivity).
  split; [reflexivity|]. split; [exact Hrun|].
  apply (Data_stable ex_init 5 (Some 2) true
           [Start "x" "b" 3; End "a" 4; Tick 100] ex_open _ 1%positive
           (mkSession "x" {["a"]} false (mkSessionMetadata 0 0))
           (proj1 ex_open_inv) (proj2 ex_open_inv) Hrun eq_refl).
Defined.

Lemma timestamps_ordered_witness :
  clock_ok 0 [Start "x" "a" 0; Start "x" "b" 3; End "a" 4; Tick 100] ∧
  ∃ t, ex_run [Start "x" "a" 0; Start "x" "b" 3; End "a" 4; Tick 100]
         NewTracker = Some (tt, t) ∧
       ∀ c, c ∈ endCalls t →
            Created (endMetadata c) ≤ Updated (endMetadata c).
Proof.
  assert (Hclk : clock_ok 0
            [Start "x" "a" 0; Start "x" "b" 3; End "a" 4; Tick 100]).
  { simpl. lia. }
  split; [exact Hclk|].
  destruct (timestamps_ordered ex_init 5 (Some 2) true 0 _ Hclk)
    as (t & Hrun & _ & Hcalls).
  exists t. split; assumption.
Defined.

Lemma ex_no_max : ∀ d, Options.WithMaxSessionTimeout d ∉ ex_opts.
Proof.
  intros d Hin.
  apply elem_of_cons in Hin as [Heq|Hin].
  { apply (f_equal (λ o, Options.maxSessionTimeout (o Options.defaults)))
      in Heq. discriminate Heq. }
  apply elem_of_cons in Hin as [Heq|Hin].
  { apply (f_equal (λ o, Options.maxSessionTimeout (o Options.defaults)))
      in Heq. discriminate Heq. }
  by apply elem_of_nil in Hin.
Qed.

Lemma ex_exported : Forall Options.exported ex_opts.
Proof. repeat constructor. Qed.

Lemma options_last_wins_witness :
  Forall Options.exported ex_opts ∧
  (∀ d, Options.WithMaxSessionTimeout d ∉ ex_opts) ∧
  Options.maxSessionTimeout
    (Options.newConfig
       ([Options.WithMaxSessionTimeout 7]
        ++ Options.WithMaxSessionTimeout 9 :: ex_opts))
  = Some 9.
Proof.
  split; [exact ex_exported|]. split; [exact ex_no_max|].
  apply (options_last_wins [Options.WithMaxSessionTimeout 7] _ ex_exported).
  exact ex_no_max.
Defined.

Lemma options_defaults_witness :
  Forall Options.exported ex_opts ∧
  Options.maxSessionTimeout (Options.newConfig ex_opts) = None.
Proof.
  split; [exact ex_exported|].
  apply (options_defaults _ ex_exported). exact ex_no_max.
Defined.

Lemma no_max_never_retires_witness :
  Forall Options.exported ex_opts ∧
  (∀ d, Options.WithMaxSessionTimeout d ∉ ex_opts) ∧
  ∃ t, runWith ex_init ex_opts
         [Start "x" "a" 0; Start "x" "b" (1000 * Second); End "a" 4]
         NewTracker = Some (tt, t) ∧
       retiredSessions t = ∅.
Proof.
  split; [exact ex_exported|]. split; [exact ex_no_max|].
  destruct (no_max_never_retires ex_init ex_opts
              [Start "x" "a" 0; Start "x" "b" (1000 * Second); End "a" 4]
              ex_exported ex_no_max) as (t & Hrun & Hret & _).
  exists t. split; assumption.
Defined.

Lemma evicted_then_new_witness :
  tracked ex_ended ⊆ dom (heap ex_ended) ∧
  sessions ex_ended !! "x" = Some 1%positive ∧
  shouldRemove 5 (Some 2) 10 (mkSession "x" ∅ false (mkSessionMetadata 0 1))
    = true ∧
  ∃ t1 q t2,
    janitorTick 5 (Some 2) true 10 ex_ended = Some (tt, t1) ∧
    EventStart ex_init (Some 2) "x" "c" 11 t1 = Some (q, t2) ∧
    q ≠ 1%positive.
Proof.
  assert (Hsub : tracked ex_ended ⊆ dom (heap ex_ended)) by compute_done.
  split; [exact Hsub|]. split; [reflexivity|]. split; [reflexivity|].
  destruct (evicted_then_new ex_init 5 (Some 2) true "x" "c" 10 11 ex_ended
              1%positive (mkSession "x" ∅ false (mkSessionMetadata 0 1))
              Hsub eq_refl eq_refl eq_refl)
    as (t1 & q & t2 & Htick & _ & Hstart & Hq & _).
  exists t1, q, t2. repeat split; assumption.
Defined.

Lemma ex_shared_valid : valid ex_shared.
Proof.
  destruct (NewTracker_inv (T:=string)) as [Hv [Hs _]].
  destruct (run_inv ex_init 5 (Some 2) true
              [Start "a" "e" 0; Start "b" "e" 1] _ Hv Hs)
    as (t & Hrun & Hv' & _).
  pose proof ex_shared_run as Hrun'. unfold ex_run in Hrun'.
  rewrite Hrun' in Hrun. injection Hrun as <-. done.
Qed.

Lemma EventStart_post_witness :
  valid ex_shared ∧
  (∃ p t',
     EventStart ex_init (Some 2) "a" "f" 5 ex_shared = Some (p, t') ∧
     sessions t' !! "a" = Some p ∧
     sessions t' !! "b" = Some 2%positive ∧
     eventToSession t' !! "e" = Some 2%positive ∧
     eventToSession t' !! "f" = Some p ∧
     1%positive ∈ retiredSessions t' ∧
     valid t') ∧
  (∃ p t',
     EventStart ex_init (Some 2) "b" "g" 2 ex_shared = Some (p, t') ∧
     sessions t' !! "b" = Some p ∧
     sessions t' !! "a" = Some 1%positive ∧
     eventToSession t' !! "e" = Some 2%positive ∧
     eventToSession t' !! "g" = Some p ∧
     valid t').
Proof.
  split; [exact ex_shared_valid|]. split.
  - destruct (EventStart_post ex_init (Some 2) "a" "f" 5 ex_shared
                ex_shared_valid)
      as (p & t' & s & Hrun & Hk & Hother & Hidx & _ & _ & _ & _ & Hret
          & Hv & _).
    exists p, t'. split; [exact Hrun|]. split; [exact Hk|].
    split; [rewrite Hother; [reflexivity|discriminate]|].
    rewrite Hidx. split; [reflexivity|]. split; [apply lookup_insert_eq|].
    split; [|exact Hv].
    assert (Hsplit : EventStart ex_init (Some 2) "a" "f" 5 ex_shared
              = Some (3%positive,
                      mkTracker
                        {[1%positive := mkSession "a" {["e"]} true
                                          (mkSessionMetadata 0 0);
                          2%positive := mkSession "b" {["e"]} false
                                          (mkSessionMetadata 1 1);
                          3%positive := mkSession "a" {["f"]} false
                                          (mkSessionMetadata 5 5)]}
                        {["a" := 3%positive; "b" := 2%positive]}
                        {["e" := 2%positive; "f" := 3%positive]}
                        {[1%positive]} ["a"; "b"; "a"] []))
      by (vm_compute; reflexivity).
    rewrite Hsplit in Hrun. injection Hrun as _ <-. simpl.
    apply elem_of_singleton. reflexivity.
  - destruct (EventStart_post ex_init (Some 2) "b" "g" 2 ex_shared
                ex_shared_valid)
      as (p & t' & s & Hrun & Hk & Hother & Hidx & _ & _ & _ & _ & _
          & Hv & _).
    exists p, t'. split; [exact Hrun|]. split; [exact Hk|].
    split; [rewrite Hother; [reflexivity|discriminate]|].
    rewrite Hidx. split; [reflexivity|]. split; [|exact Hv].
    apply lookup_insert_eq.
Defined.



Lemma start_end_interleaved_witness :
  Forall (λ a, ¬ names "c" a) [Janitor 10 0] ∧
  ∃ (w : world) p t1 (w2 : world),
    ex_schedule ex_idle NewWorld = Some w ∧
    EventStart ex_init None "x" "c" 11 (store w) = Some (p, t1) ∧
    ex_schedule [Janitor 10 0] (mkWorld t1 (janitorAt w) (endings w))
      = Some w2 ∧
    ¬ inflight "c" w ∧
    ∃ t3, EventEnd true "c" 12 (store w2) = Some (nil, t3) ∧
          eventToSession t3 !! "c" = None.
Proof.
  assert (Hall : Forall (λ a, ¬ names "c" a) [Janitor 10 0]).
  { repeat constructor; simpl; tauto. }
  split; [exact Hall|].
  destruct (start_end_interleaved ex_init 5 None true ex_idle [Janitor 10 0]
              "x" "c" 11 12 Hall)
    as (w & p & t1 & w2 & Hrun0 & Hstart & Hrun & Hend).
  assert (Hw : w = mkWorld ex_ended
                     (Evicting 10 "x" 1%positive []) []).
  { assert (Hrun' : ex_schedule ex_idle NewWorld
                    = Some (mkWorld ex_ended
                              (Evicting 10 "x" 1%positive []) []))
      by (vm_compute; reflexivity).
    unfold ex_schedule in Hrun'. rewrite Hrun' in Hrun0.
    injection Hrun0 as <-. reflexivity. }
  assert (Hin : ¬ inflight "c" w).
  { rewrite Hw. unfold inflight. simpl. apply not_elem_of_nil. }
  destruct (Hend Hin) as (t3 & s2 & _ & _ & _ & Hend3 & _ & Hidx).
  exists w, p, t1, w2. split; [exact Hrun0|]. split; [exact Hstart|].
  split; [exact Hrun|]. split; [exact Hin|].
  exists t3. split; [exact Hend3|exact Hidx].
Defined.

Lemma janitorStep_frame_witness :
  Forall (λ p, p ∈ dom (heap ex_open))
    (janitor_sessions (Evicting 10 "x" 1%positive [])) ∧
  ∃ j' t' fired,
    janitorStep 5 None true 20 0 (Evicting 10 "x" 1%positive []) ex_open
      = Some (j', t') ∧
    heap t' = heap ex_open ∧
    eventToSession t' = eventToSession ex_open ∧
    endCalls t' = endCalls ex_open ++ fired.
Proof.
  assert (Hj : Forall (λ p, p ∈ dom (heap ex_open))
                 (janitor_sessions (Evicting 10 "x" 1%positive []))).
  { simpl. apply Forall_singleton. compute_done. }
  split; [exact Hj|].
  destruct (janitorStep_frame 5 None true 20 0 _ ex_open Hj)
    as (j' & t' & fired & Hrun & Hh & Hi & _ & Hc & _).
  exists j', t', fired. split; [exact Hrun|]. split; [exact Hh|].
  split; [exact Hi|exact Hc].
Defined.
